(** * Tensile, KernelWriterAssembly.py: register pool, instruction selection
      and emitted scalar arithmetic

    A shallow embedding of the parts of [Tensile/KernelWriterAssembly.py]
    that decide the allocator, selection and arithmetic properties of the
    kernel writer:

    - [RegisterPool]: the class of the same name (lines 110-381);
    - [MemoryInstruction], [findMemoryInstructionForWidthStride],
      [selectMemoryInstruction] (lines 39-98, 802-857, 1178-1275);
    - the emitters [sMagicDiv], [sMagicDivAlg2], [s_mul_u64_u32],
      [calculateLoopNumIterGsu] together with an interpreter for the scalar
      instructions they emit;
    - the addressing-mode part of [StoreState.__init__] and the
      store-packing loop of [globalWriteBatch];
    - [VgprOccupancyCurve], [getOccupancy], [getMaxRegsForOccupancy] and
      [getLdsLimitedOccupancy] (lines 401-421, 633-673);
    - the label dict and its four allocators (lines 748-797);
    - [getTmpSgpr], [defineSgpr], [undefineSgpr] (lines 859-930) and
      [scalarMagicDivExplicit], [scalarMagicDiv] (lines 11995-12010).

    Python objects are mutated in place and may raise half-way through a
    method; methods therefore run in a small state-and-exception monad that
    keeps the state reached when the exception was raised, and that collects
    what was written to the log. *)

From Stdlib Require Import ZArith QArith Lia List Bool Ascii Sorted.
From stdpp Require Import base decidable option list gmap strings pretty.

Open Scope nat_scope.

(** ** Exceptions, log and the method monad *)

Module Common.

(** Payload of the [RuntimeError]s raised in the file; the fields are the
    values substituted into the format string of the message. *)
Inductive ErrorMsg : Type :=
| NeverCheckedIn (si : nat) (tag : string)
    (* "RegisterPool::checkFinalState: temp (%s, '%s') was never checked in." *)
| NoValidMemoryInstruction (operation : string) (width : Q) (kernelName : string)
    (* "Could not find valid memory instruction for operation=%s, width=%f, kernel=%s" *).

Inductive Exn : Type :=
| AssertionError
| IndexError
| ZeroDivisionError
| UnboundLocalError
| KeyError (key : string)
| RuntimeError (msg : ErrorMsg).

(** Messages passed to [printWarning]. *)
Inductive Diagnostic : Type :=
| AddAlreadyAvailable (start size i : nat) (tag : string)
| AddAlreadyInUse (start size i : nat) (tag : string)
| RemovePastPoolSize (start size poolSize : nat)
| RemoveAlreadyUnavailable (start size i : nat) (tag : string)
| RemoveStillInUse (start size i : nat) (tag : string)
| CheckInNeverCheckedOut (tag : string) (start : nat)
| NoValidInstructionForWidth (width : Q).

(** Messages passed to [print] (and [print2]). *)
Inductive Stdout : Type :=
| RPAdd (start size : nat) (tag : string)
| RPRemove (start size : nat) (tag : string)
| RPCheckOut (tag : string) (size alignment found avail : nat)
| RPCheckOutOverflow (tag : string) (size alignment start : nat)
| RPCheckIn (tag : string) (start size : nat)
| RPState (s : string)
| TotalVgprCount (n : nat).

Inductive Event : Type :=
| Warn (d : Diagnostic)
| Out (m : Stdout).

Inductive Outcome (A : Type) : Type :=
| Ok (a : A)
| Raise (e : Exn).

Arguments Ok {A} a.
Arguments Raise {A} e.

(** A method over a mutable object of type [S]: the outcome, the object as
    the method left it, and the log lines it produced. *)
Definition M (S A : Type) : Type := S -> Outcome A * S * list Event.

Definition ret {S A} (a : A) : M S A := fun s => (Ok a, s, []).

Definition bind {S A B} (m : M S A) (f : A -> M S B) : M S B :=
  fun s =>
    match m s with
    | (Ok a, s1, o1) =>
        match f a s1 with
        | (r, s2, o2) => (r, s2, o1 ++ o2)
        end
    | (Raise e, s1, o1) => (Raise e, s1, o1)
    end.

Definition raise {S A} (e : Exn) : M S A := fun s => (Raise e, s, []).
Definition get {S} : M S S := fun s => (Ok s, s, []).
Definition put {S} (s : S) : M S unit := fun _ => (Ok tt, s, []).
Definition emit {S} (ev : Event) : M S unit := fun s => (Ok tt, s, [ev]).
Definition printWarning {S} (d : Diagnostic) : M S unit := emit (Warn d).
Definition print {S} (m : Stdout) : M S unit := emit (Out m).
Definition assert {S} (b : bool) : M S unit :=
  if b then ret tt else raise AssertionError.
Definition when {S} (b : bool) (m : M S unit) : M S unit :=
  if b then m else ret tt.

(** [for x in xs: body(x)] *)
Fixpoint forM_ {S A} (xs : list A) (body : A -> M S unit) : M S unit :=
  match xs with
  | [] => ret tt
  | x :: xs' => bind (body x) (fun _ => forM_ xs' body)
  end.

Definition outcome {S A} (r : Outcome A * S * list Event) : Outcome A := r.1.1.
Definition final {S A} (r : Outcome A * S * list Event) : S := r.1.2.
Definition logged {S A} (r : Outcome A * S * list Event) : list Event := r.2.

End Common.

Export Common.

Declare Scope method_scope.
Delimit Scope method_scope with method.
Notation "x <- m ;; k" := (bind m (fun x => k))
  (at level 100, m at next level, right associativity) : method_scope.
Notation "m ;; k" := (bind m (fun _ => k))
  (at level 100, right associativity) : method_scope.

(** ** RegisterPool *)

Module RegisterPool.

Inductive Status : Type := Unavailable | Available | InUse.

#[global] Instance Status_eq_dec : EqDecision Status.
Proof. solve_decision. Defined.

Record Register : Type := mkRegister { status : Status; tag : string }.

(** The object: [self.printRP], [self.type], [self.defaultPreventOverflow],
    [self.pool] and the dict [self.checkOutSize]. *)
Record t : Type := mkPool {
  printRP : bool;
  type : string;
  defaultPreventOverflow : bool;
  pool : list Register;
  checkOutSize : gmap nat nat
}.

Definition withPool (s : t) (p : list Register) : t :=
  mkPool (printRP s) (type s) (defaultPreventOverflow s) p (checkOutSize s).

Definition withCheckOutSize (s : t) (c : gmap nat nat) : t :=
  mkPool (printRP s) (type s) (defaultPreventOverflow s) (pool s) c.

(** [__init__(size, type, defaultPreventOverflow, printRP=0)] *)
Definition init (size : nat) (ty : string) (dpo : bool) (prp : bool) : t :=
  mkPool prp ty dpo (replicate size (mkRegister Unavailable "init")) ∅.

(** [self.pool[i]]: raises [IndexError] out of range. *)
Definition readSlot (i : nat) : M t Register :=
  fun s =>
    match pool s !! i with
    | Some r => (Ok r, s, [])
    | None => (Raise IndexError, s, [])
    end.

(** [self.pool[i].status = st] *)
Definition setStatus (i : nat) (st : Status) : M t unit :=
  fun s =>
    match pool s !! i with
    | Some r => (Ok tt, withPool s (<[i := mkRegister st (tag r)]> (pool s)), [])
    | None => (Raise IndexError, s, [])
    end.

(** [self.pool[i].tag = tg] *)
Definition setTag (i : nat) (tg : string) : M t unit :=
  fun s =>
    match pool s !! i with
    | Some r => (Ok tt, withPool s (<[i := mkRegister (status r) tg]> (pool s)), [])
    | None => (Raise IndexError, s, [])
    end.

(** [self.pool.append(self.Register(st, tg))] *)
Definition append (st : Status) (tg : string) : M t unit :=
  fun s => (Ok tt, withPool s (pool s ++ [mkRegister st tg]), []).

Definition newline : string := String "010"%char EmptyString.

(** One ruler line of [state()]: a digit at every multiple of
    [placeValue], blanks elsewhere. *)
Definition placeValueLine (n placeValue priorPlaceValue : nat) : string :=
  fold_right
    (fun i acc =>
       (if decide (i mod placeValue = 0)
        then pretty ((i mod priorPlaceValue) / placeValue)
        else " ") +:+ acc)
    "" (seq 0 n).

Definition statusChar (st : Status) : string :=
  match st with
  | Unavailable => "."
  | Available => "|"
  | InUse => "#"
  end.

(** [state()] *)
Definition state (p : list Register) : string :=
  fold_right
    (fun pv acc =>
       (if decide (pv.1 <= length p)
        then placeValueLine (length p) pv.1 pv.2 +:+ newline
        else "") +:+ acc)
    "" [(100, 1000); (10, 100); (1, 10)]
  +:+ fold_right (fun r acc => statusChar (status r) +:+ acc) "" p.

(** [available()] *)
Definition available (p : list Register) : nat :=
  length (filter (fun r => status r = Available) p).

(** [size()] *)
Definition size (s : t) : nat := length (pool s).

Local Open Scope method_scope.

(** [add(start, size, tag)] *)
Definition add (start sz : nat) (tg : string) : M t unit :=
  s <- get ;;
  when (printRP s) (print (RPAdd start sz tg)) ;;
  let newSize := start + sz in
  let oldSize := length (pool s) in
  when (oldSize <? newSize)
       (forM_ (seq 0 (newSize - oldSize)) (fun _ => append Unavailable tg)) ;;
  forM_ (seq start sz)
    (fun i =>
       r <- readSlot i ;;
       match status r with
       | Unavailable => setStatus i Available ;; setTag i tg
       | Available => printWarning (AddAlreadyAvailable start sz i (tag r))
       | InUse => printWarning (AddAlreadyInUse start sz i (tag r))
       end) ;;
  s' <- get ;;
  when (printRP s') (print (RPState (state (pool s')))).

(** One turn of the loop "mark as unavailable" of [remove]. *)
Definition removeSlot (start sz i : nat) : M t unit :=
  r <- readSlot i ;;
  match status r with
  | Available => setStatus i Unavailable
  | Unavailable => printWarning (RemoveAlreadyUnavailable start sz i (tag r))
  | InUse => printWarning (RemoveStillInUse start sz i (tag r))
  end.

(** [remove(start, size, tag)] *)
Definition remove (start sz : nat) (tg : string) : M t unit :=
  s <- get ;;
  when (printRP s) (print (RPRemove start sz tg)) ;;
  let newSize := start + sz in
  let oldSize := length (pool s) in
  when (oldSize <? newSize) (printWarning (RemovePastPoolSize start sz oldSize)) ;;
  forM_ (seq start sz) (removeSlot start sz).

(** Modelled from the spec: [Utils.roundUpToNearestMultiple] is imported by
    the file but defined elsewhere.  The spec describes its use as "rounding
    the append point up to satisfy [alignment]": the least multiple of
    [multiple] that is not below [numToRound].  ([multiple = 0] is outside
    that description; the quotient by zero is [0] here.) *)
Definition roundUpToNearestMultiple (numToRound multiple : nat) : nat :=
  ((numToRound + multiple - 1) / multiple) * multiple.

Definition liftOutcome {A} (o : Outcome A) : M t A := fun s => (o, s, []).

(** The inner loop [for j in range(0, size)] of [checkOutAligned]: are the
    slots [i+j] all Available?  It stops at the first one that is not. *)
Fixpoint allAvailable (p : list Register) (i : nat) (js : list nat) : Outcome bool :=
  match js with
  | [] => Ok true
  | j :: js' =>
      match p !! (i + j) with
      | None => Raise IndexError
      | Some r =>
          if decide (status r = Available) then allAvailable p i js' else Ok false
      end
  end.

(** The outer loop [for i in range(0, len(self.pool))] of [checkOutAligned].
    The assignment [i = j+1] made before the inner [break] is overwritten by
    the next value of the range, so it has no effect on the search. *)
Fixpoint scan (p : list Register) (sz alignment : nat) (candidates : list nat)
  : Outcome (option nat) :=
  match candidates with
  | [] => Ok None
  | i :: rest =>
      if alignment =? 0 then Raise ZeroDivisionError
      else if negb (i mod alignment =? 0) then scan p sz alignment rest
      else if length p <? i + sz then scan p sz alignment rest
      else match allAvailable p i (seq 0 sz) with
           | Raise e => Raise e
           | Ok true => Ok (Some i)
           | Ok false => scan p sz alignment rest
           end
  end.

(** The loop [for i in range(len(self.pool)-1, 0, -1)] of the overflow path:
    walks down the Available tail, retagging it, and returns where it
    begins.  [indices] is the range, [start] the value found so far. *)
Fixpoint tailScan (tg : string) (indices : list nat) (start : nat) : M t nat :=
  match indices with
  | [] => ret start
  | i :: rest =>
      r <- readSlot i ;;
      if decide (status r = Available)
      then setTag i tg ;; tailScan tg rest i
      else ret start
  end.

(** [self.checkOutSize[start] = size] *)
Definition recordCheckOut (start sz : nat) : M t unit :=
  fun s => (Ok tt, withCheckOutSize s (<[start := sz]> (checkOutSize s)), []).

(** [self.checkOutSize.pop(start)] *)
Definition popCheckOut (start : nat) : M t unit :=
  fun s => (Ok tt, withCheckOutSize s (delete start (checkOutSize s)), []).

(** [self.pool[i].status = InUse; self.pool[i].tag = tag] *)
Definition markInUse (tg : string) (i : nat) : M t unit :=
  setStatus i InUse ;; setTag i tg.

(** One turn of the loop [for i in range(0, overflow)]: a new slot, padding
    below [start] and part of the checkout from [start] on. *)
Definition growSlot (start : nat) (tg : string) : M t unit :=
  s <- get ;;
  if length (pool s) <? start
  then append Available tg   (* padding to meet alignment *)
  else append InUse tg.

(** [checkOutAligned(size, alignment, tag, preventOverflow=-1)];
    [None] stands for the default [-1]. *)
Definition checkOutAligned (sz alignment : nat) (tg : string)
    (preventOverflow : option bool) : M t nat :=
  s <- get ;;
  let preventOverflow :=
    match preventOverflow with
    | None => defaultPreventOverflow s
    | Some b => b
    end in
  assert (0 <? sz) ;;
  found <- liftOutcome (scan (pool s) sz alignment (seq 0 (length (pool s)))) ;;
  match found with
  | Some found =>
      (* success without overflowing *)
      forM_ (seq found sz) (markInUse tg) ;;
      recordCheckOut found sz ;;
      s1 <- get ;;
      when (printRP s1)
           (print (RPCheckOut tg sz alignment found (available (pool s1)))) ;;
      ret found
  | None =>
      (* need overflow *)
      assert (negb preventOverflow) ;;
      start <- tailScan tg (rev (seq 1 (length (pool s) - 1))) (length (pool s)) ;;
      let start := roundUpToNearestMultiple start alignment in
      let newSize := start + sz in
      let oldSize := length (pool s) in
      let overflow := newSize - oldSize in
      forM_ (seq start (length (pool s) - start)) (markInUse tg) ;;
      forM_ (seq 0 overflow) (fun _ => growSlot start tg) ;;
      recordCheckOut start sz ;;
      s3 <- get ;;
      when (printRP s3)
           (print (RPState (state (pool s3))) ;;
            print (RPCheckOutOverflow tg sz alignment start)) ;;
      ret start
  end.

(** [checkOut(size, tag, preventOverflow=-1)] *)
Definition checkOut (sz : nat) (tg : string) (preventOverflow : option bool)
  : M t nat :=
  checkOutAligned sz 1 tg preventOverflow.

(** [checkIn(start)].  The debug line reads [self.pool[i]] with the loop
    variable left over from the [for]; it is unbound when the recorded size
    is zero. *)
Definition checkIn (start : nat) : M t unit :=
  s <- get ;;
  match checkOutSize s !! start with
  | Some sz =>
      forM_ (seq start sz) (fun i => setStatus i Available) ;;
      popCheckOut start ;;
      s1 <- get ;;
      when (printRP s1)
           (match sz with
            | 0 => raise UnboundLocalError
            | S k => r <- readSlot (start + k) ;; print (RPCheckIn (tag r) start sz)
            end)
  | None =>
      r <- readSlot start ;;
      printWarning (CheckInNeverCheckedOut (tag r) start)
  end.

(** One turn of the loop of [checkFinalState]. *)
Definition checkSlot (si : nat) : M t unit :=
  r <- readSlot si ;;
  if decide (status r = InUse)
  then
    s1 <- get ;;
    when (printRP s1) (print (RPState (state (pool s1)))) ;;
    raise (RuntimeError (NeverCheckedIn si (tag r)))
  else ret tt.

(** [checkFinalState()].  [print2] writes only at print level 2 and above;
    the line is logged here whenever it is reached. *)
Definition checkFinalState : M t unit :=
  s <- get ;;
  forM_ (seq 0 (length (pool s))) checkSlot ;;
  s2 <- get ;;
  print (TotalVgprCount (size s2)).

(** The slots a raised error names, each with the tag it gives. *)
Definition reportedLeaks {A} (o : Outcome A) : list (nat * string) :=
  match o with
  | Raise (RuntimeError (NeverCheckedIn si tg)) => [(si, tg)]
  | _ => []
  end.

(** Slot [i] exists and is Available. *)
Definition availableAt (p : list Register) (i : nat) : Prop :=
  exists r, p !! i = Some r /\ status r = Available.

(** What [checkOutAligned] searches for: an aligned, in-bounds run of [sz]
    Available slots starting at [i]. *)
Definition fits (p : list Register) (sz al i : nat) : Prop :=
  i mod al = 0 /\ i + sz <= length p /\
  forall j, j < sz -> availableAt p (i + j).

(** *** The counting queries *)

(** [availableBlock(blockSize)]: the loop state is
    [(blocksAvail, consecAvailable)]. *)
Definition availableBlock (p : list Register) (blockSize : nat) : nat :=
  let blockSize := if blockSize =? 0 then 1 else blockSize in
  let '(blocksAvail, consecAvailable) :=
    foldl (fun '(blocksAvail, consecAvailable) s =>
             if decide (status s = Available)
             then (blocksAvail, consecAvailable + 1)
             else (blocksAvail + consecAvailable / blockSize, 0))
          (0, 0) p in
  (blocksAvail + consecAvailable / blockSize) * blockSize.

(** The loop [for s in reversed(self.pool)] of [availableBlockAtEnd], on
    the reversed pool: it counts until the first slot that is not
    Available. *)
Fixpoint countAvailable (reversed : list Register) : nat :=
  match reversed with
  | [] => 0
  | s :: rest =>
      if decide (status s = Available) then S (countAvailable rest) else 0
  end.

(** [availableBlockAtEnd()] *)
Definition availableBlockAtEnd (p : list Register) : nat :=
  countAvailable (rev p).

End RegisterPool.

(** ** Memory instructions and their selection *)

(** [x < y] on widths.  Widths are Python floats (0.25, 0.5, 1, 2, 4, ...);
    every finite float is a rational and the comparison is exact, so they
    are rationals here. *)
Definition Qlt_bool (x y : Q) : bool :=
  (Qnum x * Zpos (Qden y) <? Qnum y * Zpos (Qden x))%Z.

Module MemoryInstruction.

Record t : Type := mk {
  name : string;
  numAddresses : nat;
  numOffsets : nat;
  offsetMultiplier : Z;
  blockWidth : Q;
  formatting : string
}.

Definition numBlocks (i : t) : nat :=
  if (1 <? numAddresses i) || (1 <? numOffsets i) then 2 else 1.

Definition totalWidth (i : t) : Q := (blockWidth i * inject_Z (Z.of_nat (numBlocks i)))%Q.

(** in Quad-Cycle *)
Definition IssueLatency (i : t) : nat :=
  if String.eqb (name i) "ds_read_b128" then 2
  else if String.eqb (name i) "ds_write_b128" then 5
  else if String.eqb (name i) "ds_write2_b64" then 3
  else if String.eqb (name i) "ds_write_b64" then 3
  else if String.eqb (name i) "ds_write2_b32" then 3
  else if String.eqb (name i) "ds_write_b32" then 2
  else if String.eqb (name i) "ds_write_u16" then 2
  else 1.

End MemoryInstruction.

Module Catalog.

Import MemoryInstruction.

(* Local Read *)
Definition ds_read_b128 := mk "ds_read_b128" 1 1 4 4 "%s, %s offset:%s".
Definition ds_read2_b64 := mk "ds_read2_b64" 1 2 2 2 "%s, %s offset0:%s, offset1:%s".
Definition ds_read_b64 := mk "ds_read_b64" 1 1 2 2 "%s, %s offset:%s".
Definition ds_read2_b32 := mk "ds_read2_b32" 1 2 1 1 "%s, %s offset0:%s offset1:%s".
Definition ds_read_b32 := mk "ds_read_b32" 1 1 1 1 "%s, %s offset:%s".
Definition ds_read_u16 := mk "ds_read_u16" 1 1 1 (1 # 2) "%s, %s offset:%s".
Definition ds_read_u8 := mk "ds_read_u8" 1 1 1 (1 # 4) "%s, %s offset:%s".
(* Local Write *)
Definition ds_write_b128 := mk "ds_write_b128" 1 1 4 4 "%s, %s offset:%s".
Definition ds_write2_b64 := mk "ds_write2_b64" 1 2 2 2 "%s, %s, %s offset0:%s, offset1:%s".
Definition ds_write_b64 := mk "ds_write_b64" 1 1 2 2 "%s, %s offset:%s".
Definition ds_write2_b32 := mk "ds_write2_b32" 1 2 1 1 "%s, %s, %s offset0:%s offset1:%s".
Definition ds_write_b32 := mk "ds_write_b32" 1 1 1 1 "%s, %s offset:%s".
Definition ds_write_b16 := mk "ds_write_b16" 1 1 1 (1 # 2) "%s, %s offset:%s".
Definition ds_write_b8 := mk "ds_write_b8" 1 1 1 (1 # 4) "%s, %s offset:%s".
(* Global Read *)
Definition flat_load_dwordx4 := mk "flat_load_dwordx4" 1 0 0 4 "UNUSED %s, %s".
Definition flat_load_dwordx2 := mk "flat_load_dwordx2" 1 0 0 2 "UNUSED %s, %s".
Definition flat_load_dword := mk "flat_load_dword" 1 0 0 1 "UNUSED %s, %s".
Definition buffer_load_dwordx4 :=
  mk "buffer_load_dwordx4" 1 0 0 4 "UNUSED %s, %s, %s, %s offen offset:0 %s".
Definition buffer_load_dwordx2 :=
  mk "buffer_load_dwordx2" 1 0 0 2 "UNUSED %s, %s, %s, %s offen offset:0 %s".
Definition buffer_load_dword :=
  mk "buffer_load_dword" 1 0 0 1 "UNUSED %s, %s, %s, %s offen offset:0 %s".
Definition buffer_load_short :=
  mk "buffer_load_short_d16" 1 0 0 (1 # 2) "UNUSED %s, %s, %s, %s offen offset:0 %s".
Definition buffer_load_byte :=
  mk "buffer_load_byte_d16" 1 0 0 (1 # 4) "UNUSED %s, %s, %s, %s offen offset:0 %s".
(* Global Write *)
Definition flat_store_dwordx4 := mk "flat_store_dwordx4" 1 0 0 4 "%s, %s".
Definition flat_store_dwordx2 := mk "flat_store_dwordx2" 1 0 0 2 "%s, %s".
Definition flat_store_dword := mk "flat_store_dword" 1 0 0 1 "%s, %s".

(** [self.memoryInstructions], as built in [initKernel] from
    [kernel["BufferLoad"]]. *)
Definition memoryInstructions (bufferLoad : bool) : gmap string (list t) :=
  let chosen_load_dwordx4 := if bufferLoad then buffer_load_dwordx4 else flat_load_dwordx4 in
  let chosen_load_dwordx2 := if bufferLoad then buffer_load_dwordx2 else flat_load_dwordx2 in
  let chosen_load_dword := if bufferLoad then buffer_load_dword else flat_load_dword in
  let chosen_load_short := if bufferLoad then buffer_load_short else flat_load_dword in
  let chosen_load_byte := if bufferLoad then buffer_load_byte else flat_load_dword in
  let chosen_store_dwordx4 := flat_store_dwordx4 in
  let chosen_store_dwordx2 := flat_store_dwordx2 in
  let chosen_store_dword := flat_store_dword in
  list_to_map
    [ ("GlobalRead", [chosen_load_dwordx4; chosen_load_dwordx2; chosen_load_dword;
                      chosen_load_short; chosen_load_byte]);
      ("GlobalWrite", [chosen_store_dwordx4; chosen_store_dwordx2; chosen_store_dword]);
      ("LocalRead", [ds_read_b128; ds_read2_b64; ds_read_b64; ds_read2_b32;
                     ds_read_b32; ds_read_u16; ds_read_u8]);
      ("LocalWrite", [ds_write_b128; ds_write2_b64; ds_write_b64; ds_write2_b32;
                      ds_write_b32; ds_write_b16; ds_write_b8]) ].

End Catalog.

Module Select.

Import MemoryInstruction.
Local Open Scope method_scope.

(** The loop [for stride in strides] of
    [findMemoryInstructionForWidthStride]: does every stride divide by the
    offset multiplier?  [%] by zero raises on the first stride. *)
Definition stridesDivide (strides : list Z) (offsetMultiplier : Z) : Outcome bool :=
  match strides with
  | [] => Ok true
  | _ :: _ =>
      if (offsetMultiplier =? 0)%Z then Raise ZeroDivisionError
      else Ok (forallb (fun stride => (stride mod offsetMultiplier =? 0)%Z) strides)
  end.

(** The body of the loop over [instructions]: the final value of [valid]. *)
Definition isValid (width : Q) (strides : list Z) (combine : bool) (instruction : t)
  : Outcome bool :=
  let valid := negb (Qlt_bool width (blockWidth instruction)) in
  if combine then
    (* try to combine ops *)
    if 0 <? numOffsets instruction then
      (* if inst combines using offsets *)
      match stridesDivide strides (offsetMultiplier instruction) with
      | Ok divides => Ok (valid && divides)
      | Raise e => Raise e
      end
    else Ok valid
  else
    (* don't try to combine ops *)
    Ok (valid && negb ((1 <? numOffsets instruction) || (1 <? numAddresses instruction))).

(** The loop of [findMemoryInstructionForWidthStride] from index [i] on. *)
Fixpoint findFrom (width : Q) (strides : list Z) (combine : bool)
    (instructions : list t) (i : nat) : Outcome (option nat) :=
  match instructions with
  | [] => Ok None
  | instruction :: rest =>
      match isValid width strides combine instruction with
      | Raise e => Raise e
      | Ok true => Ok (Some i)
      | Ok false => findFrom width strides combine rest (S i)
      end
  end.

(** [findMemoryInstructionForWidthStride(width, strides, combine,
    instructions)] *)
Definition findMemoryInstructionForWidthStride {S} (width : Q) (strides : list Z)
    (combine : bool) (instructions : list t) : M S nat :=
  match findFrom width strides combine instructions 0 with
  | Raise e => raise e
  | Ok (Some i) => ret i
  | Ok None =>
      printWarning (NoValidInstructionForWidth width) ;;
      ret (length instructions)
  end.

(** The fields of the kernel writer that [selectMemoryInstruction] reads. *)
Record Writer : Type := mkWriter {
  memoryInstructions : gmap string (list t);
  kernelName : string
}.

(** [selectMemoryInstruction(operation, width, write2, para2, perp2,
    strides)] *)
Definition selectMemoryInstruction (operation : string) (width : Q)
    (write2 : string) (para2 perp2 : bool) (strides : list Z) : M Writer nat :=
  self <- get ;;
  match memoryInstructions self !! operation with
  | None => raise (KeyError operation)
  | Some instructions =>
      instructionIdx <-
        (if (String.eqb write2 "Coalesced" && para2)
            || (String.eqb write2 "Perpendicular" && perp2)
         then findMemoryInstructionForWidthStride width strides true instructions
         else findMemoryInstructionForWidthStride width strides false instructions) ;;
      if instructionIdx <? length instructions
      then ret instructionIdx
      else raise (RuntimeError
                    (NoValidMemoryInstruction operation width (kernelName self)))
  end.

(** The caller's "try to combine" decision, as tested in
    [selectMemoryInstruction]. *)
Definition combines (write2 : string) (para2 perp2 : bool) : bool :=
  (String.eqb write2 "Coalesced" && para2)
  || (String.eqb write2 "Perpendicular" && perp2).

(** The selection rule in the spec's words: not wider than requested; when
    combining, an instruction that combines through offsets needs every
    stride to divide by its offset multiplier; when not combining, only
    single-address, single-offset instructions. *)
Definition qualifies (width : Q) (strides : list Z) (combine : bool) (i : t) : Prop :=
  (blockWidth i <= width)%Q /\
  if combine
  then 0 < numOffsets i ->
       forall stride, stride ∈ strides -> (stride mod offsetMultiplier i = 0)%Z
  else numOffsets i <= 1 /\ numAddresses i <= 1.

(** An instruction that combines through offsets has a non-zero offset
    multiplier, so the [%] of the stride test cannot divide by zero. *)
Definition wellFormed (i : t) : Prop :=
  0 < numOffsets i -> offsetMultiplier i <> 0%Z.

End Select.

(** ** Emitted instructions *)

Module Asm.

(** Modelled from the spec: [AsmUtils.inst], [sgpr] and [vgpr] are imported
    by the file but defined elsewhere; they render one instruction line and
    its register operands as text.  Following the spec's "emitted
    instruction IR with typed operand fields, rendered to text by a separate
    pass", an instruction is kept as its opcode, operand list and comment.
    A register is named by number, or by symbol plus offset as in
    [sgpr("GSUSumIdx+1")]. *)
Inductive RegIdx : Type :=
| Idx (i : nat)
| Sym (name : string) (offset : nat).

Inductive Operand : Type :=
| sgpr (r : RegIdx) (num : nat)
| vgpr (r : RegIdx) (num : nat)
| imm (z : Z).

#[global] Instance RegIdx_eq_dec : EqDecision RegIdx.
Proof. solve_decision. Defined.

#[global] Instance Operand_eq_dec : EqDecision Operand.
Proof. solve_decision. Defined.

Record Inst : Type := inst {
  opcode : string;
  operands : list Operand;
  comment : string
}.

(** Modelled from the spec: [AsmUtils.scalarStaticDivideAndRemainder(qReg,
    rReg, dReg, divisor, tmpSgpr, doRemainder)] is defined elsewhere.  The
    spec describes what its output computes: "quotient/remainder of
    total-trip-count over partition-count".  Its output is kept as one block
    of the instruction stream. *)
Inductive Item : Type :=
| Instr (i : Inst)
| StaticDivRem (qReg rReg dReg : RegIdx) (divisor : Z) (tmpSgpr : nat)
    (doRemainder : nat).

Definition scalarStaticDivideAndRemainder (qReg rReg dReg : RegIdx)
    (divisor : Z) (tmpSgpr : nat) (doRemainder : nat) : list Item :=
  [StaticDivRem qReg rReg dReg divisor tmpSgpr doRemainder].

Local Open Scope method_scope.

(** [s_mul_u64_u32(dst0, dst1, src0, src1, comment)].  [hasSMulHi] is
    [globalParameters["AsmCaps"][self.version]["HasSMulHi"]]; the state is
    [self.vgprPool].  In the branch without [s_mul_hi_u32] the test
    [type(src1) != 'str'] compares a type with a string and is always true,
    so the operands are always swapped. *)
Definition s_mul_u64_u32 (hasSMulHi : bool) (dst0 dst1 src0 src1 : Operand)
    (cmt : string) : M RegisterPool.t (list Item) :=
  assert (negb (bool_decide (dst1 = src0))) ;;
  assert (negb (bool_decide (dst1 = src1))) ;;
  if hasSMulHi then
    ret [ Instr (inst "s_mul_hi_u32" [dst1; src0; src1] cmt);
          Instr (inst "s_mul_i32" [dst0; src0; src1] cmt) ]
  else
    let t := src0 in
    let src0 := src1 in
    let src1 := t in
    vtmp0 <- RegisterPool.checkOut 2 "_untagged_" None ;;
    let vtmp1 := vtmp0 + 1 in
    RegisterPool.checkIn vtmp0 ;;
    ret [ Instr (inst "v_mov_b32" [vgpr (Idx vtmp0) 1; src0] cmt);
          Instr (inst "v_mul_hi_u32" [vgpr (Idx vtmp1) 1; vgpr (Idx vtmp0) 1; src1] cmt);
          Instr (inst "v_readfirstlane_b32" [dst1; vgpr (Idx vtmp1) 1] cmt);
          Instr (inst "v_mul_lo_u32" [vgpr (Idx vtmp1) 1; vgpr (Idx vtmp0) 1; src1] cmt);
          Instr (inst "v_readfirstlane_b32" [dst0; vgpr (Idx vtmp1) 1] cmt) ].

(** [sMagicDiv(kernel, dest, dividend, magicNumber, magicShift)]:
    result quotient returned in [sgpr(dest,1)]. *)
Definition sMagicDiv (hasSMulHi : bool) (dest : nat)
    (dividend magicNumber magicShift : Operand) : M RegisterPool.t (list Item) :=
  kStr <- s_mul_u64_u32 hasSMulHi (sgpr (Idx dest) 1) (sgpr (Idx (dest + 1)) 1)
            dividend magicNumber "s_magic mul" ;;
  ret (kStr ++
       [Instr (inst "s_lshr_b64" [sgpr (Idx dest) 2; sgpr (Idx dest) 2; magicShift]
                    "sMagicDiv")]).

(** [sMagicDivAlg2(kernel, dest, dividend, magicNumber, magicShiftAbit)]:
    dest+0: q, dest+1: intermediate, dest+2: the abit, then the shift. *)
Definition sMagicDivAlg2 (dest : nat) (dividend magicNumber magicShiftAbit : Operand)
  : list Item :=
  let tmpS := dest + 2 in
  [ Instr (inst "s_mul_hi_u32" [sgpr (Idx (dest + 1)) 1; dividend; magicNumber]
                " s_magic mul, div alg 2");
    Instr (inst "s_lshr_b32" [sgpr (Idx tmpS) 1; magicShiftAbit; imm 31]
                " tmpS = extract abit");
    Instr (inst "s_mul_i32" [sgpr (Idx dest) 1; dividend; sgpr (Idx tmpS) 1]
                " s_magic mul, div alg 2");
    Instr (inst "s_add_u32" [sgpr (Idx dest) 1; sgpr (Idx dest) 1; sgpr (Idx (dest + 1)) 1]
                "");
    Instr (inst "s_and_b32" [sgpr (Idx tmpS) 1; magicShiftAbit; imm 0x7fffffff]
                " tmpS = remove abit to final shift");
    Instr (inst "s_lshr_b32" [sgpr (Idx dest) 1; sgpr (Idx dest) 1; sgpr (Idx tmpS) 1]
                " sMagicDiv Alg 2") ].

(** [calculateLoopNumIterGsu(kernel, destName, tmpSgpr)];
    [globalSplitU] is [kernel["GlobalSplitU"]]. *)
Definition calculateLoopNumIterGsu (globalSplitU : Z) (destName : RegIdx)
    (tmpSgpr : nat) : list Item :=
  let loopCounter := sgpr destName 1 in
  let quotient := destName in
  let remainder := Sym "GSUSumIdx" 1 in  (* numIterPerWgRemainder *)
  let dividend := tmpSgpr + 2 in         (* numIterMyWg *)
  let divisor := globalSplitU in
  [ Instr (inst "s_mov_b32" [sgpr (Idx dividend) 1; loopCounter] "copy for divide IterGsu") ]
  ++ scalarStaticDivideAndRemainder quotient remainder (Idx dividend) divisor tmpSgpr 1
  ++ [ (* if gsuSumIdx < numIterPerWgRemainder *)
       Instr (inst "s_add_u32" [sgpr (Idx tmpSgpr) 1; imm 1; loopCounter]
                   "tmp<-numIterMyWg+");
       Instr (inst "s_cmp_lt_u32" [sgpr (Sym "GSUSumIdx" 0) 1; sgpr (Sym "GSUSumIdx" 1) 1]
                   "gsuSumIdx < numIterPerWgRemainder");
       Instr (inst "s_cmov_b32" [loopCounter; sgpr (Idx tmpSgpr) 1]
                   "numIterMyWg++ if needed") ].

(** *** What the emitted scalar instructions compute

    The register file seen by one wave: 32-bit scalar registers, the SCC
    bit, and vector registers.  A vector register is only ever loaded with
    a scalar value here, so it is modelled by the one value all its lanes
    hold. *)
Record Machine : Type := mkMachine {
  sregs : nat -> Z;
  vregs : nat -> Z;
  scc : bool
}.

Definition setS (m : Machine) (i : nat) (v : Z) : Machine :=
  mkMachine (fun j => if decide (j = i) then v else sregs m j) (vregs m) (scc m).

Definition setV (m : Machine) (i : nat) (v : Z) : Machine :=
  mkMachine (sregs m) (fun j => if decide (j = i) then v else vregs m j) (scc m).

Definition setScc (m : Machine) (b : bool) : Machine :=
  mkMachine (sregs m) (vregs m) b.

Definition wrap32 (z : Z) : Z := (z mod 2 ^ 32)%Z.

Section Interpreter.

(** [self.sgprs]: the register number of a named scalar register; likewise
    for the named vector registers. *)
Variable sgprs : string -> nat.
Variable vgprs : string -> nat.

(** What the static-divide block leaves in its two temporaries and in SCC,
    as a function of the dividend: unspecified. *)
Variable scratch : nat -> Z -> Z.
Variable scratchScc : Z -> bool.

Definition resolve (names : string -> nat) (r : RegIdx) : nat :=
  match r with
  | Idx i => i
  | Sym name offset => names name + offset
  end.

Definition read32 (m : Machine) (o : Operand) : option Z :=
  match o with
  | sgpr r 1 => Some (sregs m (resolve sgprs r))
  | vgpr r 1 => Some (vregs m (resolve vgprs r))
  | imm z => Some (wrap32 z)
  | _ => None
  end.

Definition read64 (m : Machine) (o : Operand) : option Z :=
  match o with
  | sgpr r 2 =>
      Some (sregs m (resolve sgprs r) + 2 ^ 32 * sregs m (resolve sgprs r + 1))%Z
  | _ => None
  end.

Definition write32 (m : Machine) (o : Operand) (v : Z) : option Machine :=
  match o with
  | sgpr r 1 => Some (setS m (resolve sgprs r) (wrap32 v))
  | vgpr r 1 => Some (setV m (resolve vgprs r) (wrap32 v))
  | _ => None
  end.

Definition write64 (m : Machine) (o : Operand) (v : Z) : option Machine :=
  match o with
  | sgpr r 2 =>
      Some (setS (setS m (resolve sgprs r) (wrap32 v))
                 (resolve sgprs r + 1) (wrap32 (v / 2 ^ 32)))
  | _ => None
  end.

(** One instruction.  [s_add_u32] keeps the low 32 bits of the sum and puts
    the carry in SCC; the 32-bit shifts take their count from the low five
    bits of the second source, the 64-bit shift from the low six. *)
Definition step (m : Machine) (i : Inst) : option Machine :=
  let op := opcode i in
  match operands i with
  | [a; b] =>
      if String.eqb op "s_mov_b32" then
        v ← read32 m b; write32 m a v
      else if String.eqb op "s_cmov_b32" then
        v ← read32 m b; if scc m then write32 m a v else Some m
      else if String.eqb op "s_cmp_lt_u32" then
        x ← read32 m a; y ← read32 m b; Some (setScc m (x <? y)%Z)
      else if String.eqb op "v_mov_b32" then
        v ← read32 m b; write32 m a v
      else if String.eqb op "v_readfirstlane_b32" then
        v ← read32 m b; write32 m a v
      else None
  | [d; a; b] =>
      if String.eqb op "s_add_u32" then
        x ← read32 m a; y ← read32 m b;
        m' ← write32 m d (x + y)%Z; Some (setScc m' (2 ^ 32 <=? x + y)%Z)
      else if String.eqb op "s_mul_i32" then
        x ← read32 m a; y ← read32 m b; write32 m d (x * y)%Z
      else if String.eqb op "s_mul_hi_u32" then
        x ← read32 m a; y ← read32 m b; write32 m d (x * y / 2 ^ 32)%Z
      else if String.eqb op "v_mul_lo_u32" then
        x ← read32 m a; y ← read32 m b; write32 m d (x * y)%Z
      else if String.eqb op "v_mul_hi_u32" then
        x ← read32 m a; y ← read32 m b; write32 m d (x * y / 2 ^ 32)%Z
      else if String.eqb op "s_and_b32" then
        x ← read32 m a; y ← read32 m b;
        m' ← write32 m d (Z.land x y); Some (setScc m' (negb (Z.land x y =? 0)%Z))
      else if String.eqb op "s_lshr_b32" then
        x ← read32 m a; y ← read32 m b;
        m' ← write32 m d (Z.shiftr x (y mod 32));
        Some (setScc m' (negb (Z.shiftr x (y mod 32) =? 0)%Z))
      else if String.eqb op "s_lshr_b64" then
        x ← read64 m a; y ← read32 m b;
        m' ← write64 m d (Z.shiftr x (y mod 64));
        Some (setScc m' (negb (Z.shiftr x (y mod 64) =? 0)%Z))
      else None
  | _ => None
  end.

(** Modelled from the spec: the static-divide block (see [Item]) leaves the
    quotient of the dividend register by [divisor] in [qReg] and the
    remainder in [rReg]; [tmpSgpr] and [tmpSgpr+1] are its scratch.  Only
    the form with [doRemainder = 1] is given a meaning. *)
Definition stepDivRem (m : Machine) (qReg rReg dReg : RegIdx) (divisor : Z)
    (tmpSgpr doRemainder : nat) : option Machine :=
  if decide (doRemainder = 1 ∧ (0 < divisor < 2 ^ 32)%Z) then
    let d := sregs m (resolve sgprs dReg) in
    let m1 := setScc (setS (setS m tmpSgpr (wrap32 (scratch 0 d)))
                           (tmpSgpr + 1) (wrap32 (scratch 1 d)))
                     (scratchScc d) in
    let m2 := setS m1 (resolve sgprs qReg) (wrap32 (d / divisor)) in
    Some (setS m2 (resolve sgprs rReg) (wrap32 (d mod divisor)))
  else None.

(** An operand the emitters may read while [n] scalar registers from [lo]
    on are being written: a constant, or one scalar register outside them. *)
Definition scalarSource (o : Operand) (lo n : nat) : Prop :=
  match o with
  | sgpr r 1 => resolve sgprs r < lo \/ lo + n <= resolve sgprs r
  | imm _ => True
  | _ => False
  end.

Definition stepItem (m : Machine) (it : Item) : option Machine :=
  match it with
  | Instr i => step m i
  | StaticDivRem q r d divisor tmp doRem => stepDivRem m q r d divisor tmp doRem
  end.

Fixpoint exec (m : Machine) (code : list Item) : option Machine :=
  match code with
  | [] => Some m
  | it :: rest => m' ← stepItem m it; exec m' rest
  end.

(** The scalar registers [calculateLoopNumIterGsu] touches: the loop
    counter, GSUSumIdx and GSUSumIdx+1, and three temporaries. *)
Definition gsuRegisters (destName : RegIdx) (tmpSgpr : nat) : list nat :=
  [resolve sgprs destName; sgprs "GSUSumIdx" + 0; sgprs "GSUSumIdx" + 1;
   tmpSgpr; tmpSgpr + 1; tmpSgpr + 2].

(** The trip count a workgroup ends up with: the loop counter after the
    emitted code has run, started with [numIter] in the loop counter and
    [gsuSumIdx] in GSUSumIdx. *)
Definition tripCount (globalSplitU : Z) (destName : RegIdx) (tmpSgpr : nat)
    (m : Machine) (numIter gsuSumIdx : Z) : option Z :=
  let m0 := setS (setS m (resolve sgprs destName) numIter)
                 (sgprs "GSUSumIdx" + 0) gsuSumIdx in
  m' ← exec m0 (calculateLoopNumIterGsu globalSplitU destName tmpSgpr);
  Some (sregs m' (resolve sgprs destName)).

End Interpreter.

(** The rebalancing rule in the spec's words: the quotient, plus one for the
    partitions whose index is below the remainder. *)
Definition splitKRule (totalIterations numPartitions partition : Z) : Z :=
  (totalIterations / numPartitions
   + (if partition <? totalIterations mod numPartitions then 1 else 0))%Z.

Definition sumZ (l : list Z) : Z := foldr Z.add 0%Z l.

(** Modelled from the spec: the magic-division constants of
    [sMagicDivAlg2] are kernel arguments, "computed host-side and passed
    in"; their generator is not part of the file.  A triple {multiplier, shift, abit} is valid for the divisor [n] when
    multiply-high, add of the dividend times abit, and shift give the
    quotient for every 32-bit dividend, in exact arithmetic. *)
Record MagicTriple : Type := mkMagic {
  magicNumber : Z;
  magicShift : Z;
  magicAbit : Z
}.

Definition validMagic (n : Z) (t : MagicTriple) : Prop :=
  (1 <= n < 2 ^ 32)%Z /\
  (0 <= magicNumber t < 2 ^ 32)%Z /\
  (0 <= magicShift t < 32)%Z /\
  (magicAbit t = 0 \/ magicAbit t = 1)%Z /\
  forall d, (0 <= d < 2 ^ 32)%Z ->
    ((d * magicNumber t / 2 ^ 32 + d * magicAbit t) / 2 ^ magicShift t = d / n)%Z.

(** The constants of the [sMagicDiv] calls, as [graWorkGroup] computes
    them for the divisor [absWgm] (lines 3717-3718):
    [smallNumMagicShift = 31] and
    [magicNumberWgm = ((1<<smallNumMagicShift) // absWgm + 1)]. *)
Definition smallNumMagicShift : Z := 31.

Definition magicNumberWgm (absWgm : Z) : Z :=
  (Z.shiftl 1 smallNumMagicShift / absWgm + 1)%Z.

(** The word passed as [magicShiftAbit]: the abit in bit 31, the shift in
    the low 31 bits. *)
Definition magicShiftAbitWord (t : MagicTriple) : Z :=
  (magicAbit t * 2 ^ 31 + magicShift t)%Z.

End Asm.

(** ** The store epilogue: addressing modes and narrowing *)

Module Store.

Import Asm.
Local Open Scope method_scope.

Inductive DataType : Type :=
| Half | Single | Double | SingleComplex | DoubleComplex | Int32 | BFloat16.

#[global] Instance DataType_eq_dec : EqDecision DataType.
Proof. solve_decision. Defined.

Definition isHalf (d : DataType) : bool := bool_decide (d = Half).
Definition isBFloat16 (d : DataType) : bool := bool_decide (d = BFloat16).

(** The entries of [kernel] (and of [kernel["ProblemType"]]) that the two
    routines below read. *)
Record Kernel : Type := mkKernel {
  DestDataType : DataType;
  HighPrecisionAccumulate : bool;
  UseInitialStridesCD : bool;
  BufferStore : bool;
  PackedC0IndicesX : list nat;
  PackedC1IndicesX : list nat;
  StoreRemapVectorWidth : Z;
  GlobalAccumulation : string;
  EnableMatrixInstruction : bool
}.

(** The attributes [StoreState.__init__] sets.  The flags are the Python
    integers 0 and 1, used only as truth values. *)
Record StoreState : Type := mkStoreState {
  optSingleColVgpr : bool;
  optSharedColVgpr : bool;
  optSrdIncForRow : bool;
  optSharedMask : bool;
  numAddrVgpr : nat;
  sharedColVgprs : option nat
}.

(** The flag assignments of [StoreState.__init__], in source order:
    (optSingleColVgpr, optSharedColVgpr, optSrdIncForRow). *)
Definition addressingFlags (kernel : Kernel) (edge atomic : bool) : bool * bool * bool :=
  let single := false in
  let shared := false in
  let srdInc := false in
  let '(single, shared, srdInc) :=
    if BufferStore kernel && negb edge && negb atomic then
      let '(single, shared) :=
        if 1 <? length (PackedC0IndicesX kernel) then
          (* packed mode needs a unique VGPR address calc for each column. *)
          (single, true)
        else if 1 <? length (PackedC1IndicesX kernel) then (false, false)
        else (true, shared) in
      let srdInc :=
        if negb atomic && (length (PackedC1IndicesX kernel) =? 1) then true else srdInc in
      (single, shared, srdInc)
    else (single, shared, srdInc) in
  let srdInc := if negb (StoreRemapVectorWidth kernel =? 0)%Z then true else srdInc in
  let '(single, shared) :=
    if UseInitialStridesCD kernel then (false, false) else (single, shared) in
  (single, shared, srdInc).

(** [StoreState.__init__(kernelWriter, kernel, gwvw, edge, beta, atomic,
    elements)]; the state is [kernelWriter.vgprPool].  [StoreConstConfig]
    reads the flags and the pools without writing them; of it only the
    assertion made under [kernelWriter.serializedStore] is kept. *)
Definition StoreState_init (serializedStore : bool) (kernel : Kernel)
    (gwvw : nat) (edge beta atomic : bool) (elements : list (nat * nat * nat * nat))
  : M RegisterPool.t StoreState :=
  let '(single, shared, srdInc) := addressingFlags kernel edge atomic in
  let sharedMask := BufferStore kernel && negb edge && negb atomic in
  (* can't have both of these enabled: *)
  assert (negb (single && shared)) ;;
  assert (implb serializedStore (EnableMatrixInstruction kernel)) ;;
  if shared then
    let numCols :=
      length (filter (fun e => e.1.1.1 = 0 ∧ e.1.2 = 0) elements) in
    v <- RegisterPool.checkOut numCols "sharedColVgprs for packed elements" None ;;
    ret (mkStoreState single shared srdInc sharedMask numCols (Some v))
  else if single then
    v <- RegisterPool.checkOut 1 "sharedColVgprs" None ;;
    ret (mkStoreState single shared srdInc sharedMask 1 (Some v))
  else
    ret (mkStoreState single shared srdInc sharedMask 0 None).

(** [kStr] built by a [for] loop. *)
Fixpoint concatM {S A} (xs : list A) (body : A -> M S (list Item))
  : M S (list Item) :=
  match xs with
  | [] => ret []
  | x :: xs' => a <- body x ;; b <- concatM xs' body ;; ret (a ++ b)
  end.

Definition ValuC (i : nat) : Operand := vgpr (Sym "ValuC" i) 1.

(** One turn of the loop [for vi in range(0, gwvw)] under "pack stores" in
    [globalWriteBatch]; [sumIdx] is [ss.elementSumIdx[elementIdx]], and the
    three constants sit after [vgprBf16Temp] as allocated at the top of the
    routine. *)
Definition packStoreVi {S} (kernel : Kernel) (gwvw sumIdx tmpS01 laneSGPRC
    vgprBf16Temp : nat) (vi : nat) : M S (list Item) :=
  let vgprBf16Mask := vgprBf16Temp + 1 in
  let vgprFp32Nan := vgprBf16Temp + 2 in
  let vgprBf16Inc := vgprBf16Temp + 3 in
  let sumIdxV := sumIdx + vi in
  if isHalf (DestDataType kernel) then
    let cvt := Instr (inst "v_cvt_f16_f32" [ValuC sumIdxV; ValuC sumIdxV]
                           "convert C to fp16") in
    if vi mod 2 =? 1 then
      assert (gwvw mod 2 =? 0) ;;
      let d := sumIdx + vi / 2 in
      ret [cvt;
           Instr (inst "v_pack_b32_f16"
                       [vgpr (Idx d) 1; ValuC (sumIdxV - 1); ValuC sumIdxV]
                       "Pack with neighbor")]
    else ret [cvt]
  else if isBFloat16 (DestDataType kernel) then
    let narrow :=
      [ Instr (inst "v_cmp_u_f32"
                    [sgpr (Idx tmpS01) laneSGPRC; ValuC sumIdxV; ValuC sumIdxV]
                    "check Nan");
        Instr (inst "v_bfe_u32"
                    [vgpr (Idx vgprBf16Temp) 1; ValuC sumIdxV; imm 16; imm 1]
                    "Non-Nan case: store lsb of bf16");
        Instr (inst "v_add3_u32"
                    [vgpr (Idx vgprBf16Temp) 1; ValuC sumIdxV;
                     vgpr (Idx vgprBf16Temp) 1; vgpr (Idx vgprBf16Inc) 1]
                    "Non-Nan case: add lsb and the increment for rounding");
        Instr (inst "v_cndmask_b32"
                    [ValuC sumIdxV; vgpr (Idx vgprBf16Temp) 1;
                     vgpr (Idx vgprFp32Nan) 1; sgpr (Idx tmpS01) laneSGPRC]
                    "") ] in
    if vi mod 2 =? 0 then
      ret (narrow ++
           [Instr (inst "v_lshrrev_b32" [ValuC sumIdxV; imm 16; ValuC sumIdxV]
                        "convert C to bf16")])
    else if vi mod 2 =? 1 then
      let d := sumIdx + vi / 2 in
      ret (narrow ++
           [Instr (inst "v_and_or_b32"
                        [vgpr (Idx d) 1; ValuC sumIdxV; vgpr (Idx vgprBf16Mask) 1;
                         ValuC (sumIdxV - 1)]
                        "pack two bf16 to dword")])
    else ret narrow
  else ret [].

(** "pack stores, beta and non-beta reach here": the whole block. *)
Definition packStores {S} (kernel : Kernel) (gwvw sumIdx tmpS01 laneSGPRC
    vgprBf16Temp : nat) : M S (list Item) :=
  if HighPrecisionAccumulate kernel
     && negb (String.eqb (GlobalAccumulation kernel) "MultipleBuffer")
  then concatM (seq 0 gwvw)
               (packStoreVi kernel gwvw sumIdx tmpS01 laneSGPRC vgprBf16Temp)
  else ret [].

(** How often an opcode occurs in a piece of emitted code. *)
Definition opcodeOf (it : Item) : string :=
  match it with
  | Instr i => opcode i
  | StaticDivRem _ _ _ _ _ _ => "scalarStaticDivideAndRemainder"
  end.

Definition countOpcode (op : string) (code : list Item) : nat :=
  length (filter (fun it => opcodeOf it = op) code).

(** What the spec asks of one bfloat16-narrowing sequence: one self-compare,
    one rounding add and one conditional select, in that order, then the
    16-bit shift (even component) or the pack (odd component). *)
Definition narrowingShape (vi : nat) (code : list Item) : Prop :=
  exists cmp bfe add3 cnd fin,
    code = [Instr cmp; Instr bfe; Instr add3; Instr cnd; Instr fin] /\
    opcode cmp = "v_cmp_u_f32" /\
    (exists d x, operands cmp = [d; x; x]) /\
    opcode add3 = "v_add3_u32" /\
    opcode cnd = "v_cndmask_b32" /\
    (if vi mod 2 =? 0
     then opcode fin = "v_lshrrev_b32" /\ operands fin !! 1 = Some (imm 16)
     else opcode fin = "v_and_or_b32") /\
    countOpcode "v_cmp_u_f32" code = 1 /\
    countOpcode "v_add3_u32" code = 1 /\
    countOpcode "v_cndmask_b32" code = 1.

End Store.

(** ** Concrete states used below *)

Module Examples.

Import RegisterPool.

(** A two-register pool, both registers handed out by [add]. *)
Definition fresh2 : RegisterPool.t := final (add 0 2 "" (init 2 "v" false false)).

(** The same pool after two one-register checkouts that are never checked
    in. *)
Definition twoLeaks : RegisterPool.t :=
  final (checkOut 1 "b" None (final (checkOut 1 "a" None fresh2))).

(** Five registers, the first reserved, the rest Available. *)
Definition oneReserved : RegisterPool.t :=
  final (add 1 4 "a" (init 3 "v" false false)).

Definition gsuNames : string -> nat :=
  fun name => if String.eqb name "GSUSumIdx" then 10 else 20.
Definition noNames : string -> nat := fun _ => 0.
Definition noScratch : nat -> Z -> Z := fun _ _ => 0%Z.
Definition noScratchScc : Z -> bool := fun _ => false.

(** Divisors 7 (with the add indicator) and 3 (without). *)
Definition divideBy7 : Asm.MagicTriple := Asm.mkMagic 0x24924925 3 1.
Definition divideBy3 : Asm.MagicTriple := Asm.mkMagic 0xAAAAAAAB 1 0.

(** Scalar registers 4, 5 and 6 hold a dividend, a multiplier and a shift
    word. *)
Definition machineWith (d mg w : Z) : Asm.Machine :=
  Asm.mkMachine (fun i => match i with 4 => d | 5 => mg | 6 => w | _ => 0%Z end)
                (fun _ => 0%Z) false.

Definition bf16Kernel : Store.Kernel :=
  Store.mkKernel Store.BFloat16 true false true [0] [1] 0 "" false.

End Examples.

(** ** Register-pool initialisation code *)

Module PoolInit.
Import RegisterPool Asm.
Local Open Scope method_scope.

(** The loop [for i in range(start, stop)] of [initTmps]: one move per
    Available slot; a pool whose type is neither 's' nor 'v' fails the
    [assert(0)] at its first Available slot. *)
Fixpoint initSlots (ty : string) (p : list Register) (initValue : Z)
    (indices : list nat) : Outcome (list Item) :=
  match indices with
  | [] => Ok []
  | i :: rest =>
      match p !! i with
      | None => Raise IndexError
      | Some r =>
          if decide (status r = Available) then
            if String.eqb ty "s" then
              match initSlots ty p initValue rest with
              | Ok kStr =>
                  Ok (Instr (inst "s_mov_b32" [sgpr (Idx i) 1; imm initValue]
                                  "init tmp in pool") :: kStr)
              | Raise e => Raise e
              end
            else if String.eqb ty "v" then
              match initSlots ty p initValue rest with
              | Ok kStr =>
                  Ok (Instr (inst "v_mov_b32" [vgpr (Idx i) 1; imm initValue]
                                  "init tmp in pool") :: kStr)
              | Raise e => Raise e
              end
            else Raise AssertionError  (* bad regpool type *)
          else initSlots ty p initValue rest
      end
  end.

(** [initTmps(initValue, start=0, stop=-1)]; [None] stands for the
    default [stop=-1]. *)
Definition initTmps (initValue : Z) (start : nat) (stop : option nat)
  : M t (list Item) :=
  self <- get ;;
  let stop :=
    match stop with
    | None => length (pool self)
    | Some stop => if length (pool self) <? stop then length (pool self) else stop + 1
    end in
  liftOutcome (initSlots (type self) (pool self) initValue (seq start (stop - start))).

End PoolInit.

(** ** Occupancy *)

Module Occupancy.
Local Open Scope Z_scope.

(** [for i in range(lo, hi+1): self._vgprOccupancy[i] = v] *)
Definition fill (lo hi : nat) (v : Z) (table : list Z) : list Z :=
  foldl (fun table i => <[i := v]> table) table (seq lo (hi + 1 - lo)).

(** [VgprOccupancyCurve.__init__] *)
Definition _vgprOccupancy : list Z :=
  let t := replicate (256 + 1) 0 in
  let t := fill 0 24 10 t in
  let t := fill 25 28 9 t in
  let t := fill 29 32 8 t in
  let t := fill 33 36 7 t in
  let t := fill 37 40 6 t in
  let t := fill 41 48 5 t in
  let t := fill 49 64 4 t in
  let t := fill 65 84 3 t in
  let t := fill 85 128 2 t in
  fill 129 256 1 t.

(** [VgprOccupancyCurve.__call__], also reached through [vgprOccupancy[i]];
    the guard keeps the index inside the table. *)
Definition vgprOccupancy (index : Z) : Z :=
  if (index <? 0) || (256 <? index) then 0
  else default 0 (_vgprOccupancy !! Z.to_nat index).


(** [getLdsLimitedOccupancy(ldsSize)] *)
Definition getLdsLimitedOccupancy (ldsSize : Z) : Outcome Z :=
  let maxLds := 65536 in
  let ldsSize := Z.land (Z.min (ldsSize + 255) maxLds) 0x1ff00 in
  if ldsSize =? 0 then Raise ZeroDivisionError
  else Ok (maxLds / ldsSize).





End Occupancy.

(** ** Labels *)

Module Labels.
Local Open Scope method_scope.

(** A value of the dict [self.labels]: [getLabelNum] stores numbers,
    [getNamedLabel] and [getNamedLabelUnique] store names. *)
Inductive LabelValue : Type :=
| LabelNum (n : nat)
| LabelName (name : string).

(** [self.labels] *)
Abbreviation t := (gmap string LabelValue).

(** [self.labels[name]] *)
Definition readLabel (name : string) : M t LabelValue :=
  labels <- get ;;
  match labels !! name with
  | Some v => ret v
  | None => raise (KeyError name)
  end.

(** [getLabelNum(name)] *)
Definition getLabelNum (name : string) : M t LabelValue :=
  labels <- get ;;
  when (bool_decide (labels !! name = None))
       (put (<[name := LabelNum (size labels)]> labels)) ;;
  readLabel name.

(** [getNamedLabel(name)] *)
Definition getNamedLabel (name : string) : M t LabelValue :=
  labels <- get ;;
  when (bool_decide (labels !! name = None))
       (put (<[name := LabelName (name +:+ "_" +:+ pretty (size labels))]> labels)) ;;
  readLabel name.

(** [getNamedLabelUnique(name)] *)
Definition getNamedLabelUnique (name : string) : M t string :=
  labels <- get ;;
  let key := name +:+ "_" +:+ pretty (size labels) in
  put (<[key := LabelName key]> labels) ;;
  ret key.

(** [getUniqLabel()] *)
Definition getUniqLabel : M t LabelValue :=
  labels <- get ;;
  let name := "uniq_label_" +:+ pretty (size labels) in
  getLabelNum name.

(** The numbers in use: each is below the number of labels, and no two
    names share one. *)
Definition numbered (labels : t) : Prop :=
  (forall name n, labels !! name = Some (LabelNum n) -> n < size labels) /\
  (forall name1 name2 n,
     labels !! name1 = Some (LabelNum n) -> labels !! name2 = Some (LabelNum n) ->
     name1 = name2).

End Labels.

(** ** Scalar register definitions of the kernel writer *)

Module Sgprs.
Local Open Scope method_scope.

(** The fields of the kernel writer used by [defineSgpr], [undefineSgpr]
    and [getTmpSgpr]; [assertOnSgprOverflow] is
    [self.db["AssertOnSgprOverflow"]]. *)
Record Writer : Type := mkWriter {
  sgprPool : RegisterPool.t;
  sgprs : gmap string nat;
  maxSgprs : nat;
  overflowedResources : nat;
  assertOnSgprOverflow : bool
}.

Definition withSgprPool (w : Writer) (p : RegisterPool.t) : Writer :=
  mkWriter p (sgprs w) (maxSgprs w) (overflowedResources w) (assertOnSgprOverflow w).

Definition withSgprs (w : Writer) (m : gmap string nat) : Writer :=
  mkWriter (sgprPool w) m (maxSgprs w) (overflowedResources w) (assertOnSgprOverflow w).

Definition withOverflowedResources (w : Writer) (n : nat) : Writer :=
  mkWriter (sgprPool w) (sgprs w) (maxSgprs w) n (assertOnSgprOverflow w).

(** A method of [self.sgprPool] called from a method of the writer. *)
Definition onSgprPool {A} (m : M RegisterPool.t A) : M Writer A :=
  fun w =>
    match m (sgprPool w) with
    | (r, p, o) => (r, withSgprPool w p, o)
    end.

(** [defineSgpr(name, numSgprs, align=1)]; the result is [None] when
    nothing is defined. *)
Definition defineSgpr (name : string) (numSgprs align : nat) : M Writer (option nat) :=
  if numSgprs =? 0 then ret None
  else
    sgprIdx <- onSgprPool (RegisterPool.checkOutAligned numSgprs align name (Some false)) ;;
    w <- get ;;
    put (withSgprs w (<[name := sgprIdx]> (sgprs w))) ;;
    ret (Some sgprIdx).

(** [undefineSgpr(name)]; the returned text is [".set name, UNDEF"]. *)
Definition undefineSgpr (name : string) : M Writer string :=
  w <- get ;;
  match sgprs w !! name with
  | None => raise (KeyError name)
  | Some idx =>
      onSgprPool (RegisterPool.checkIn idx) ;;
      ret (".set " +:+ name +:+ ", UNDEF" +:+ RegisterPool.newline)
  end.

(** [getTmpSgpr(num, align=None, tag=None)].  The [TmpSgpr] object it
    returns holds the pool and the index checked out; the index is what
    is returned here. *)
Definition getTmpSgpr (num : nat) (align : option nat) (tag : option string)
  : M Writer nat :=
  let align := match align with
               | None => if num =? 1 then 1 else 2
               | Some align => align
               end in
  let tag := match tag with
             | None => "getTmpSgpr(" +:+ pretty num +:+ ")"
             | Some tag => tag
             end in
  idx <- onSgprPool (RegisterPool.checkOutAligned num align tag (Some false)) ;;
  w <- get ;;
  (if maxSgprs w <? idx + num then
     put (withOverflowedResources w 2) ;;
     when (assertOnSgprOverflow w) (assert (idx + num <=? maxSgprs w))
   else ret tt) ;;
  ret idx.

(** [TmpSgpr.__del__]: the register is checked in when the object is
    destroyed. *)
Definition releaseTmpSgpr (regIdx : nat) : M Writer unit :=
  onSgprPool (RegisterPool.checkIn regIdx).

End Sgprs.

(** ** Scalar magic division with named constants *)

Module MagicDiv.
Import Asm.

(** [scalarMagicDivExplicit(dst, dividend, magicNumber, magicAbit,
    magicShift)]: the quotient is left in [sgpr(dst)], [sgpr(dst+1)] is a
    temporary.  The text starts with a [self.comment(...)] line, which is
    no instruction and is not part of the instruction list. *)
Definition scalarMagicDivExplicit (dst : nat) (dividend : Operand)
    (magicNumber magicAbit magicShift : string) : list Item :=
  [ Instr (inst "s_mul_hi_u32"
                [sgpr (Idx (dst + 1)) 1; dividend; sgpr (Sym magicNumber 0) 1]
                "scalar magic div (magicnum)");
    Instr (inst "s_mul_i32"
                [sgpr (Idx (dst + 0)) 1; dividend; sgpr (Sym magicAbit 0) 1]
                "scalar magic div (abit)");
    Instr (inst "s_add_u32"
                [sgpr (Idx (dst + 0)) 1; sgpr (Idx (dst + 0)) 1; sgpr (Idx (dst + 1)) 1]
                "scalar magic div (combine)");
    Instr (inst "s_lshr_b32"
                [sgpr (Idx (dst + 0)) 1; sgpr (Idx (dst + 0)) 1; sgpr (Sym magicShift 0) 1]
                ("scalar magic div (shift), quotient in s" +:+ pretty dst)) ].

(** [scalarMagicDiv(dst, dividend, magicTag)] *)
Definition scalarMagicDiv (dst : nat) (dividend : Operand) (magicTag : string)
  : list Item :=
  scalarMagicDivExplicit dst dividend
    ("MagicNumberSize" +:+ magicTag)
    ("MagicAbitSize" +:+ magicTag)
    ("MagicShiftSize" +:+ magicTag).

End MagicDiv.

(** * Properties *)

(** ** The method monad *)

Section MonadFacts.
Context {S A B : Type}.

Lemma bind_ok (m : M S A) (f : A -> M S B) (s s1 : S) (a : A) (o1 : list Event) :
  m s = (Ok a, s1, o1) ->
  bind m f s = (outcome (f a s1), final (f a s1), o1 ++ logged (f a s1)).
Proof.
  intros H. unfold bind, outcome, final, logged. rewrite H.
  by destruct (f a s1) as [[? ?] ?].
Qed.

Lemma bind_raise (m : M S A) (f : A -> M S B) (s s1 : S) (e : Exn) (o1 : list Event) :
  m s = (Raise e, s1, o1) -> bind m f s = (Raise e, s1, o1).
Proof. intros H. unfold bind. by rewrite H. Qed.

Lemma bind_outcome_inv (m : M S A) (f : A -> M S B) (s : S) (b : B) :
  outcome (bind m f s) = Ok b ->
  exists a s1 o1, m s = (Ok a, s1, o1) /\ outcome (f a s1) = Ok b.
Proof.
  unfold bind, outcome. destruct (m s) as [[[a|e] s1] o1]; cbn.
  - destruct (f a s1) as [[r s2] o2] eqn:E. cbn. intros ->.
    exists a, s1, o1. by rewrite E.
  - discriminate.
Qed.

Lemma bind_ok_nil (m : M S A) (f : A -> M S B) (s s1 : S) (a : A) :
  m s = (Ok a, s1, []) -> bind m f s = f a s1.
Proof. intros H. unfold bind. rewrite H. by destruct (f a s1) as [[? ?] ?]. Qed.

End MonadFacts.

(** ** RegisterPool *)

Section PoolFacts.
Import RegisterPool Examples.

Lemma checkSlot_loop (suf pre : list Register) (s : t) :
  pool s = pre ++ suf ->
  forM_ (seq (length pre) (length suf)) checkSlot s =
    match list_find (fun r => status r = InUse) suf with
    | None => (Ok tt, s, [])
    | Some (i, r) =>
        (Raise (RuntimeError (NeverCheckedIn (length pre + i) (tag r))), s,
         if printRP s then [Out (RPState (state (pool s)))] else [])
    end.
Proof.
  revert pre. induction suf as [|x suf IH]; intros pre Hp; [reflexivity|].
  cbn [length seq forM_ list_find]. unfold bind at 1, checkSlot at 1.
  unfold bind at 1, readSlot.
  assert (Hx : pool s !! length pre = Some x).
  { rewrite Hp. by rewrite list_lookup_middle. }
  rewrite Hx. cbn [list_find]. 
  destruct (decide (status x = InUse)) as [Hu|Hu].
  - rewrite Nat.add_0_r. unfold bind, get, when, print, emit, raise, ret. destruct (printRP s); reflexivity.
  - unfold ret.
    specialize (IH (pre ++ [x])). rewrite length_app in IH. cbn [length] in IH.
    rewrite Nat.add_1_r in IH. rewrite IH by (rewrite Hp, <- app_assoc; done).
    destruct (list_find _ suf) as [[i r]|]; cbn; [|done].
    repeat f_equal. lia.
Qed.


Lemma checkFinalState_eq (s : t) :
  checkFinalState s =
    match list_find (fun r => status r = InUse) (pool s) with
    | None => (Ok tt, s, [Out (TotalVgprCount (length (pool s)))])
    | Some (i, r) =>
        (Raise (RuntimeError (NeverCheckedIn i (tag r))), s,
         if printRP s then [Out (RPState (state (pool s)))] else [])
    end.
Proof.
  unfold checkFinalState, bind at 1, get. unfold bind at 1.
  pose proof (checkSlot_loop (pool s) [] s eq_refl) as H. cbn [length] in H.
  rewrite H. destruct (list_find _ (pool s)) as [[i r]|]; reflexivity.
Qed.

(** C1 (amended).  [checkFinalState] changes nothing in the pool.  If some
    slot is InUse it raises, and the error names one slot with its tag: the
    InUse slot of lowest index (the slots after it are not reported).  If no
    slot is InUse it completes without raising. *)
Theorem checkFinalState_reports_first_leak (s : t) :
  final (checkFinalState s) = s /\
  ((exists i x, pool s !! i = Some x /\ status x = InUse) ->
   exists si tg,
     outcome (checkFinalState s) = Raise (RuntimeError (NeverCheckedIn si tg)) /\
     pool s !! si = Some (mkRegister InUse tg) /\
     (forall j x, j < si -> pool s !! j = Some x -> status x <> InUse)) /\
  ((forall i x, pool s !! i = Some x -> status x <> InUse) ->
   outcome (checkFinalState s) = Ok tt).
Proof.
  rewrite checkFinalState_eq.
  destruct (list_find _ (pool s)) as [[i r]|] eqn:Hf.
  - apply list_find_Some in Hf as (Hi & Hr & Hlow).
    split; [reflexivity|]. split.
    + intros _. exists i, (tag r). split; [reflexivity|]. split.
      * rewrite Hi. destruct r as [st tg]; cbn in *. by subst.
      * intros j x Hj Hx. by apply (Hlow j x).
    + intros Hno. exfalso. by apply (Hno i r).
  - split; [reflexivity|]. split; [|reflexivity].
    intros (i & x & Hx & Hu). exfalso.
    eapply list_find_None in Hf. rewrite Forall_forall in Hf.
    apply (Hf x); [|done]. apply list_elem_of_lookup. eauto.
Qed.

(** C1 as stated fails when two slots are InUse: the error raised for the
    pool [twoLeaks] names slot 0 with its tag and says nothing of slot 1. *)
Lemma checkFinalState_second_leak_unreported :
  pool twoLeaks = [mkRegister InUse "a"; mkRegister InUse "b"] /\
  checkFinalState twoLeaks = (Raise (RuntimeError (NeverCheckedIn 0 "a")), twoLeaks, []) /\
  ~ (forall i x, pool twoLeaks !! i = Some x -> status x = InUse ->
       (i, tag x) ∈ reportedLeaks (outcome (checkFinalState twoLeaks))).
Proof.
  split; [reflexivity|]. split; [reflexivity|].
  intros H. specialize (H 1 (mkRegister InUse "b") eq_refl eq_refl).
  cbn in H. apply list_elem_of_singleton in H. discriminate.
Qed.

(** C10.  For a start index below the pool size that has no recorded
    checkout size, [checkIn] returns normally, leaves the whole pool object
    as it was (every slot's status and tag, and the checkout-size map), and
    logs one warning, which carries the tag of the slot at [start]. *)
Theorem checkIn_unknown_start_unchanged (s : t) (start : nat) :
  start < length (pool s) ->
  checkOutSize s !! start = None ->
  exists x, pool s !! start = Some x /\
    checkIn start s = (Ok tt, s, [Warn (CheckInNeverCheckedOut (tag x) start)]).
Proof.
  intros Hlt Hnone. destruct (lookup_lt_is_Some_2 _ _ Hlt) as [x Hx].
  exists x. split; [done|].
  unfold checkIn, bind, get. rewrite Hnone. unfold readSlot. rewrite Hx. reflexivity.
Qed.

Lemma removeSlot_cases (start sz i : nat) (s : t) :
  (i < length (pool s) /\
   exists s' o, removeSlot start sz i s = (Ok tt, s', o) /\
                length (pool s') = length (pool s)) \/
  (length (pool s) <= i /\ removeSlot start sz i s = (Raise IndexError, s, [])).
Proof.
  unfold removeSlot, bind, readSlot.
  destruct (pool s !! i) as [x|] eqn:Hx.
  - left. split; [by eapply lookup_lt_Some|].
    destruct (status x); unfold setStatus, printWarning, emit; rewrite ?Hx;
      eexists _, _; (split; [reflexivity|]); cbn; by rewrite ?length_insert.
  - right. split; [by apply lookup_ge_None|reflexivity].
Qed.

Lemma remove_loop_raises (start0 sz0 : nat) (sz i : nat) (s : t) :
  0 < sz -> length (pool s) < i + sz ->
  outcome (forM_ (seq i sz) (removeSlot start0 sz0) s) = Raise IndexError.
Proof.
  revert i s. induction sz as [|sz IH]; intros i s Hpos Hlen; [lia|].
  cbn [seq forM_]. unfold bind.
  destruct (removeSlot_cases start0 sz0 i s) as [(Hi & s' & o & -> & Hl)|(Hi & ->)];
    [|reflexivity].
  specialize (IH (S i) s'). 
  destruct (forM_ (seq (S i) sz) (removeSlot start0 sz0) s') as [[r s2] o2] eqn:E.
  unfold outcome in *. cbn in *. apply IH; lia.
Qed.

Lemma remove_eq (s : t) (start sz : nat) (tg : string) :
  remove start sz tg s =
    let r := forM_ (seq start sz) (removeSlot start sz) s in
    (outcome r, final r,
     (if printRP s then [Out (RPRemove start sz tg)] else []) ++
     (if length (pool s) <? start + sz
      then [Warn (RemovePastPoolSize start sz (length (pool s)))] else []) ++
     logged r).
Proof.
  unfold remove, bind, get, when, print, printWarning, emit, ret, outcome, final, logged.
  destruct (printRP s), (length (pool s) <? start + sz);
    destruct (forM_ (seq start sz) (removeSlot start sz) s) as [[[] ?] ?]; reflexivity.
Qed.

(** C8 (what the code does).  When the range [start, start+size) of a
    [remove] is not empty and extends past the pool size, the call logs the
    "but poolSize=" warning and then raises [IndexError] at the first slot
    past the end: it does not complete. *)
Theorem remove_past_end_raises (s : t) (start sz : nat) (tg : string) :
  0 < sz -> length (pool s) < start + sz ->
  outcome (remove start sz tg s) = Raise IndexError /\
  Warn (RemovePastPoolSize start sz (length (pool s))) ∈ logged (remove start sz tg s).
Proof.
  intros Hpos Hlen. rewrite remove_eq.
  split.
  - apply (remove_loop_raises start sz sz start s Hpos Hlen).
  - unfold logged at 1. cbn [snd].
    assert (Hw : (length (pool s) <? start + sz) = true) by (apply Nat.ltb_lt; lia).
    rewrite Hw. set_solver.
Qed.

Lemma allAvailable_spec (p : list Register) (i m a : nat) :
  i + a + m <= length p ->
  (allAvailable p i (seq a m) = Ok true /\
   forall j, a <= j < a + m -> exists r, p !! (i + j) = Some r /\ status r = Available) \/
  (allAvailable p i (seq a m) = Ok false /\
   exists j r, a <= j < a + m /\ p !! (i + j) = Some r /\ status r <> Available).
Proof.
  revert a. induction m as [|m IH]; intros a Hle.
  - left. split; [reflexivity|]. intros j Hj. lia.
  - cbn [seq allAvailable].
    destruct (lookup_lt_is_Some_2 p (i + a)) as [x Hx]; [lia|]. rewrite Hx.
    destruct (decide (status x = Available)) as [Hs|Hs].
    + destruct (IH (Datatypes.S a)) as [[-> Hall]|[-> (j & r & Hj & Hr & Hn)]]; [lia| |].
      * left. split; [reflexivity|]. intros j Hj.
        destruct (decide (j = a)) as [->|]; [eauto|]. apply Hall. lia.
      * right. split; [reflexivity|]. exists j, r. split; [lia|done].
    + right. split; [reflexivity|]. exists a, x. split; [lia|done].
Qed.

Lemma scan_spec (p : list Register) (sz al : nat) (cands : list nat) :
  al <> 0 ->
  match scan p sz al cands with
  | Ok (Some i) => i ∈ cands /\ fits p sz al i
  | Ok None => forall i, i ∈ cands -> ~ fits p sz al i
  | Raise _ => False
  end.
Proof.
  intros Hal. induction cands as [|i rest IH]; cbn [scan].
  - intros i Hi. by apply not_elem_of_nil in Hi.
  - apply Nat.eqb_neq in Hal as Hal'. rewrite Hal'.
    assert (Hrest :
      ~ fits p sz al i ->
      match scan p sz al rest with
      | Ok (Some i0) => i0 ∈ i :: rest /\ fits p sz al i0
      | Ok None => forall i0, i0 ∈ i :: rest -> ~ fits p sz al i0
      | Raise _ => False
      end).
    { intros Hno. destruct (scan p sz al rest) as [[i0|]|]; [| |done].
      - destruct IH. split; [set_solver|done].
      - intros i0 [->|Hi]%elem_of_cons; [done|by apply IH]. }
    destruct (i mod al =? 0) eqn:Hm; cbn [negb].
    2:{ apply Hrest. intros (Hf & _). apply Nat.eqb_neq in Hm. done. }
    destruct (length p <? i + sz) eqn:Hl.
    { apply Hrest. intros (_ & Hf & _). apply Nat.ltb_lt in Hl. lia. }
    apply Nat.ltb_ge in Hl. apply Nat.eqb_eq in Hm.
    destruct (allAvailable_spec p i sz 0) as [[-> Hall]|[-> (j & r & Hj & Hr & Hn)]]; [lia| |].
    + split; [set_solver|]. split; [done|]. split; [done|]. intros j Hj. apply Hall. lia.
    + apply Hrest. intros (_ & _ & Hf). destruct (Hf j) as (r' & Hr' & Hs'); [lia|].
      congruence.
Qed.

Lemma roundUp_spec (n al : nat) :
  1 <= al ->
  (al | roundUpToNearestMultiple n al) /\
  n <= roundUpToNearestMultiple n al < n + al.
Proof.
  intros Hal. unfold roundUpToNearestMultiple. split.
  - apply Nat.divide_factor_r.
  - pose proof (Nat.div_mod_eq (n + al - 1) al) as E.
    pose proof (Nat.mod_upper_bound (n + al - 1) al) as U.
    nia.
Qed.

Lemma withPool_withPool (s : t) (p q : list Register) :
  withPool (withPool s p) q = withPool s q.
Proof. reflexivity. Qed.

Lemma markInUse_step (tg : string) (i : nat) (s : t) :
  i < length (pool s) ->
  markInUse tg i s =
    (Ok tt, withPool s (<[i := mkRegister InUse tg]> (pool s)), []).
Proof.
  intros Hi. destruct (lookup_lt_is_Some_2 _ _ Hi) as [x Hx].
  unfold markInUse, bind, setStatus, setTag. rewrite Hx. cbn.
  rewrite list_lookup_insert_eq by done. cbn.
  by rewrite list_insert_insert_eq.
Qed.

Lemma markInUse_loop (tg : string) (m i : nat) (s : t) :
  i + m <= length (pool s) ->
  forM_ (seq i m) (markInUse tg) s =
    (Ok tt,
     withPool s (take i (pool s) ++ replicate m (mkRegister InUse tg)
                 ++ drop (i + m) (pool s)),
     []).
Proof.
  revert i s. induction m as [|m IH]; intros i s Hle.
  - cbn. rewrite Nat.add_0_r, take_drop. by destruct s.
  - cbn [seq forM_]. erewrite bind_ok by (apply markInUse_step; lia).
    rewrite IH by (cbn; rewrite length_insert; lia).
    cbn. f_equal. f_equal. unfold withPool. cbn. f_equal.
    destruct (lookup_lt_is_Some_2 (pool s) i) as [x Hx]; [lia|].
    rewrite (take_S_r (<[i:=_]> (pool s)) i (mkRegister InUse tg))
      by (apply list_lookup_insert_eq; lia).
    rewrite take_insert_ge by lia. rewrite drop_insert_lt by lia.
    rewrite <- app_assoc. cbn. repeat f_equal. lia.
Qed.


Lemma growSlot_loop (start : nat) (tg : string) (l : list nat) (s : t) :
  forM_ l (fun _ => growSlot start tg) s =
    (Ok tt,
     withPool s (pool s
       ++ replicate (min (length l) (start - length (pool s))) (mkRegister Available tg)
       ++ replicate (length l - (start - length (pool s))) (mkRegister InUse tg)),
     []).
Proof.
  revert s. induction l as [|x l IH]; intros s.
  - cbn. rewrite app_nil_r. by destruct s.
  - cbn [forM_ length]. unfold bind at 1, growSlot at 1, bind at 1, get.
    destruct (length (pool s) <? start) eqn:Hlt.
    + apply Nat.ltb_lt in Hlt. unfold append. rewrite IH. cbn.
      f_equal. f_equal. unfold withPool. cbn. f_equal.
      rewrite length_app. cbn [length].
      replace (start - length (pool s)) with (Datatypes.S (start - (length (pool s) + 1))) by lia.
      cbn. rewrite <- app_assoc. reflexivity.
    + apply Nat.ltb_ge in Hlt. unfold append. rewrite IH. cbn.
      f_equal. f_equal. unfold withPool. cbn. f_equal.
      rewrite length_app. cbn [length].
      replace (start - length (pool s)) with 0 by lia.
      replace (start - (length (pool s) + 1)) with 0 by lia.
      rewrite !Nat.min_0_r, !Nat.sub_0_r. cbn. rewrite <- app_assoc. reflexivity.
Qed.

Lemma tailScan_cons (tg : string) (i : nat) (rest : list nat) (start : nat)
    (s : t) (x : Register) :
  pool s !! i = Some x ->
  tailScan tg (i :: rest) start s =
    if decide (status x = Available)
    then tailScan tg rest i (withPool s (<[i := mkRegister (status x) tg]> (pool s)))
    else (Ok start, s, []).
Proof.
  intros Hx. cbn [tailScan]. unfold bind at 1, readSlot. rewrite Hx.
  destruct (decide (status x = Available)); [|reflexivity].
  unfold bind, setTag. rewrite Hx.
  by destruct (tailScan tg rest i _) as [[? ?] ?].
Qed.

Lemma tailScan_spec (tg : string) (k : nat) (s : t) :
  k < length (pool s) ->
  exists t0,
    1 <= t0 <= k + 1 /\
    tailScan tg (rev (seq 1 k)) (k + 1) s =
      (Ok t0,
       withPool s (take t0 (pool s)
                   ++ replicate (k + 1 - t0) (mkRegister Available tg)
                   ++ drop (k + 1) (pool s)),
       []) /\
    (forall i, t0 <= i < k + 1 -> availableAt (pool s) i) /\
    (t0 = 1 \/ ~ availableAt (pool s) (t0 - 1)).
Proof.
  revert s. induction k as [|k IH]; intros s Hk.
  - exists 1. split; [lia|]. split.
    + cbn. rewrite take_drop. by destruct s.
    + split; [intros; lia|by left].
  - rewrite seq_S, rev_app_distr. cbn [rev app].
    replace (1 + k) with (k + 1) by lia.
    destruct (lookup_lt_is_Some_2 (pool s) (k + 1)) as [x Hx]; [lia|].
    rewrite (tailScan_cons tg (k + 1) _ _ s x Hx).
    destruct (decide (status x = Available)) as [Hs|Hs].
    + set (s1 := withPool s (<[k + 1 := mkRegister (status x) tg]> (pool s))).
      destruct (IH s1) as (t0 & Ht0 & Heq & Hav & Hmax).
      { cbn. rewrite length_insert. lia. }
      rewrite Heq.
      exists t0. split; [lia|]. split.
      * cbn. f_equal. f_equal. unfold withPool; cbn. f_equal.
        rewrite take_insert_ge by lia. rewrite drop_insert_ge by lia.
        rewrite Nat.sub_diag.
        rewrite (drop_S (pool s) x (k + 1)) by done.
        cbn. rewrite Hs.
        replace (Datatypes.S (k + 1) - t0) with (Datatypes.S (k + 1 - t0)) by lia.
        by rewrite replicate_S_end, <- !app_assoc.
      * split.
        -- intros i Hi. destruct (decide (i = k + 1)) as [->|Hne].
           ++ by exists x.
           ++ destruct (Hav i) as (r & Hr & Hrs); [lia|]. exists r. split; [|done].
              cbn in Hr. by rewrite list_lookup_insert_ne in Hr by lia.
        -- destruct Hmax as [->|Hmax]; [by left|right].
           intros (r & Hr & Hrs). apply Hmax. exists r. split; [|done].
           cbn. rewrite list_lookup_insert_ne by lia. done.
    + exists (Datatypes.S k + 1). split; [lia|]. split.
      * rewrite Nat.sub_diag. cbn [replicate app]. rewrite take_drop. by destruct s.
      * split; [intros; lia|]. right. intros (r & Hr & Hrs).
        replace (Datatypes.S k + 1 - 1) with (k + 1) in Hr by lia. congruence.
Qed.


Lemma tailScan_whole (tg : string) (s : t) :
  exists t0,
    t0 <= length (pool s) /\
    tailScan tg (rev (seq 1 (length (pool s) - 1))) (length (pool s)) s =
      (Ok t0,
       withPool s (take t0 (pool s)
                   ++ replicate (length (pool s) - t0) (mkRegister Available tg)),
       []) /\
    (forall i, t0 <= i < length (pool s) -> availableAt (pool s) i) /\
    (t0 <= 1 \/ ~ availableAt (pool s) (t0 - 1)) /\
    (0 < length (pool s) -> 1 <= t0).
Proof.
  destruct (length (pool s)) as [|k] eqn:Hn.
  - exists 0. split; [lia|]. split.
    + cbn. apply length_zero_iff_nil in Hn. destruct s; cbn in *. by subst.
    + split; [intros; lia|]. split; [left; lia|lia].
  - destruct (tailScan_spec tg k s) as (t0 & Ht0 & Heq & Hav & Hmax); [lia|].
    exists t0. split; [lia|]. split.
    + replace (Datatypes.S k - 1) with k by lia.
      replace (Datatypes.S k) with (k + 1) by lia. rewrite Heq.
      rewrite drop_ge by lia. by rewrite app_nil_r.
    + split; [intros i Hi; apply Hav; lia|]. split; [|lia].
      destruct Hmax as [->|H]; [left; lia|by right].
Qed.

Lemma overflow_pool_le (p : list Register) (t0 start sz n : nat) (a u : Register) :
  n = length p -> t0 <= start -> start <= n -> n < start + sz ->
  let p1 := take t0 p ++ replicate (n - t0) a in
  (take start p1 ++ replicate (n - start) u ++ drop (start + (n - start)) p1)
    ++ replicate (min (start + sz - n) (start - n)) a
    ++ replicate (start + sz - n - (start - n)) u
  = take t0 p ++ replicate (start - t0) a ++ replicate sz u.
Proof.
  intros -> Ht Hs Ho p1. subst p1.
  rewrite take_app, length_take, take_take, take_replicate.
  rewrite drop_ge by (rewrite length_app, length_take, length_replicate; lia).
  replace (start - length p) with 0 by lia. rewrite Nat.min_0_r, Nat.sub_0_r. cbn [replicate].
  rewrite app_nil_r, app_nil_l, <- !app_assoc.
  replace (Nat.min start t0) with t0 by lia.
  replace (Nat.min t0 (length p)) with t0 by lia.
  replace (Nat.min (start - t0) (length p - t0)) with (start - t0) by lia.
  rewrite <- replicate_add. repeat f_equal. lia.
Qed.

Lemma overflow_pool_gt (p : list Register) (t0 start sz n : nat) (a u : Register) :
  n = length p -> t0 <= n -> n < start ->
  let p1 := take t0 p ++ replicate (n - t0) a in
  p1 ++ replicate (min (start + sz - n) (start - n)) a
     ++ replicate (start + sz - n - (start - n)) u
  = take t0 p ++ replicate (start - t0) a ++ replicate sz u.
Proof.
  intros -> Ht Hs p1. subst p1.
  rewrite <- !app_assoc.
  replace (Nat.min (start + sz - length p) (start - length p)) with (start - length p) by lia.
  rewrite (app_assoc (replicate _ a)), <- replicate_add.
  repeat f_equal; lia.
Qed.

Lemma checkOutAligned_overflow_eq_pos (s : t) (sz al : nat) (tg : string)
    (po : option bool) :
  0 < sz -> 1 <= al ->
  scan (pool s) sz al (seq 0 (length (pool s))) = Ok None ->
  match po with None => defaultPreventOverflow s | Some b => b end = false ->
  exists t0,
    t0 <= length (pool s) /\
    (0 < length (pool s) -> 1 <= t0) /\
    (forall i, t0 <= i < length (pool s) -> availableAt (pool s) i) /\
    (t0 <= 1 \/ ~ availableAt (pool s) (t0 - 1)) /\
    length (pool s) < roundUpToNearestMultiple t0 al + sz /\
    let start := roundUpToNearestMultiple t0 al in
    let grown := take t0 (pool s)
                 ++ replicate (start - t0) (mkRegister Available tg)
                 ++ replicate sz (mkRegister InUse tg) in
    checkOutAligned sz al tg po s =
      (Ok start,
       mkPool (printRP s) (type s) (defaultPreventOverflow s) grown
              (<[start := sz]> (checkOutSize s)),
       if printRP s
       then [Out (RPState (state grown)); Out (RPCheckOutOverflow tg sz al start)]
       else []).
Proof.
  intros Hsz Hal Hscan Hpo.
  destruct (tailScan_whole tg s) as (t0 & Ht0 & Htail & Hav & Hmax & Hpos).
  exists t0. split; [done|]. split; [done|]. split; [done|]. split; [done|].
  destruct (roundUp_spec t0 al Hal) as (Hdiv & Hlo & Hhi).
  set (start := roundUpToNearestMultiple t0 al) in *.
  assert (Hgrow : length (pool s) < start + sz).
  { apply Nat.nle_gt. intros Hle.
    pose proof (scan_spec (pool s) sz al (seq 0 (length (pool s))) ltac:(lia)) as Hsp.
    rewrite Hscan in Hsp. apply (Hsp start).
    - apply elem_of_seq. lia.
    - split; [|split; [done|]].
      + destruct Hdiv as [q ->]. apply Nat.Div0.mod_mul.
      + intros j Hj. apply Hav. lia. }
  split; [done|]. cbv zeta.
  unfold checkOutAligned.
  rewrite (bind_ok_nil get _ s s s eq_refl). rewrite Hpo.
  assert (Hz : (0 <? sz) = true) by (apply Nat.ltb_lt; lia). rewrite Hz.
  rewrite (bind_ok_nil (assert true) _ s s tt eq_refl).
  erewrite (bind_ok_nil (liftOutcome _)) by (unfold liftOutcome; rewrite Hscan; reflexivity).
  cbn [negb]. rewrite (bind_ok_nil (assert true) _ s s tt eq_refl).
  erewrite (bind_ok_nil (tailScan _ _ _)) by apply Htail.
  fold start.
  set (p1 := take t0 (pool s) ++ replicate (length (pool s) - t0) (mkRegister Available tg)).
  assert (Hp1 : length p1 = length (pool s)).
  { unfold p1. rewrite length_app, length_take, length_replicate. lia. }
  destruct (decide (start <= length (pool s))) as [Hle|Hgt].
  - erewrite (bind_ok_nil (forM_ _ _)).
    2:{ apply markInUse_loop. cbn. lia. }
    erewrite (bind_ok_nil (forM_ _ _)) by apply growSlot_loop.
    cbn [pool withPool].
    rewrite length_app, length_take, !length_app, length_replicate, length_drop, Hp1.
    replace (Nat.min start (length (pool s)) +
             (length (pool s) - start +
              (length (pool s) - (start + (length (pool s) - start)))))
      with (length (pool s)) by lia.
    rewrite length_seq.
    unfold p1. rewrite overflow_pool_le by (done || lia).
    unfold bind, recordCheckOut, get, when, print, emit, ret, withCheckOutSize, withPool.
    cbn. destruct (printRP s); reflexivity.
  - replace (length (pool s) - start) with 0 by lia. cbn [seq forM_].
    rewrite (bind_ok_nil (ret tt) _ _ _ tt eq_refl).
    erewrite (bind_ok_nil (forM_ _ _)) by apply growSlot_loop.
    cbn [pool withPool]. rewrite Hp1, length_seq.
    unfold p1. rewrite overflow_pool_gt by (done || lia).
    unfold bind, recordCheckOut, get, when, print, emit, ret, withCheckOutSize, withPool.
    cbn. destruct (printRP s); reflexivity.
Qed.

Lemma checkOutAligned_overflow_eq (s : t) (sz al : nat) (tg : string) (po : option bool) :
  0 < sz -> 1 <= al ->
  scan (pool s) sz al (seq 0 (length (pool s))) = Ok None ->
  match po with None => defaultPreventOverflow s | Some b => b end = false ->
  exists t0,
    t0 <= length (pool s) /\
    (forall i, t0 <= i < length (pool s) -> availableAt (pool s) i) /\
    (t0 <= 1 \/ ~ availableAt (pool s) (t0 - 1)) /\
    length (pool s) < roundUpToNearestMultiple t0 al + sz /\
    let start := roundUpToNearestMultiple t0 al in
    let grown := take t0 (pool s)
                 ++ replicate (start - t0) (mkRegister Available tg)
                 ++ replicate sz (mkRegister InUse tg) in
    checkOutAligned sz al tg po s =
      (Ok start,
       mkPool (printRP s) (type s) (defaultPreventOverflow s) grown
              (<[start := sz]> (checkOutSize s)),
       if printRP s
       then [Out (RPState (state grown)); Out (RPCheckOutOverflow tg sz al start)]
       else []).
Proof.
  intros Hsz Hal Hscan Hpo.
  destruct (checkOutAligned_overflow_eq_pos s sz al tg po Hsz Hal Hscan Hpo)
    as (t0 & Ht0 & _ & Hav & Hmax & Hgrow & Heq).
  by exists t0.
Qed.

Lemma checkOutAligned_prevented (s : t) (sz al : nat) (tg : string) (po : option bool) :
  0 < sz ->
  scan (pool s) sz al (seq 0 (length (pool s))) = Ok None ->
  match po with None => defaultPreventOverflow s | Some b => b end = true ->
  checkOutAligned sz al tg po s = (Raise AssertionError, s, []).
Proof.
  intros Hsz Hscan Hpo. unfold checkOutAligned.
  rewrite (bind_ok_nil get _ s s s eq_refl). rewrite Hpo.
  assert (Hz : (0 <? sz) = true) by (apply Nat.ltb_lt; lia). rewrite Hz.
  rewrite (bind_ok_nil (assert true) _ s s tt eq_refl).
  erewrite (bind_ok_nil (liftOutcome _)) by (unfold liftOutcome; rewrite Hscan; reflexivity).
  reflexivity.
Qed.

Lemma checkOutAligned_fit_eq (s : t) (sz al : nat) (tg : string) (po : option bool)
    (found : nat) :
  0 < sz ->
  scan (pool s) sz al (seq 0 (length (pool s))) = Ok (Some found) ->
  found + sz <= length (pool s) ->
  let taken := take found (pool s) ++ replicate sz (mkRegister InUse tg)
               ++ drop (found + sz) (pool s) in
  checkOutAligned sz al tg po s =
    (Ok found,
     mkPool (printRP s) (type s) (defaultPreventOverflow s) taken
            (<[found := sz]> (checkOutSize s)),
     if printRP s then [Out (RPCheckOut tg sz al found (available taken))] else []).
Proof.
  intros Hsz Hscan Hle taken. unfold checkOutAligned.
  rewrite (bind_ok_nil get _ s s s eq_refl).
  assert (Hz : (0 <? sz) = true) by (apply Nat.ltb_lt; lia). rewrite Hz.
  rewrite (bind_ok_nil (assert true) _ s s tt eq_refl).
  erewrite (bind_ok_nil (liftOutcome _)) by (unfold liftOutcome; rewrite Hscan; reflexivity).
  cbv beta iota.
  erewrite (bind_ok_nil (forM_ _ _)) by (by apply markInUse_loop).
  fold taken.
  unfold bind, recordCheckOut, get, when, print, emit, ret, withCheckOutSize, withPool.
  cbn. destruct (printRP s); reflexivity.
Qed.

Lemma scan_None_no_fit (p : list Register) (sz al : nat) :
  0 < sz -> 1 <= al ->
  scan p sz al (seq 0 (length p)) = Ok None ->
  forall i, ~ fits p sz al i.
Proof.
  intros Hsz Hal Hscan i Hfit.
  pose proof (scan_spec p sz al (seq 0 (length p)) ltac:(lia)) as Hsp.
  rewrite Hscan in Hsp. apply (Hsp i); [|done].
  destruct Hfit as (_ & Hle & _). apply elem_of_seq. lia.
Qed.

Lemma no_fit_scan_None (p : list Register) (sz al : nat) :
  1 <= al ->
  (forall i, ~ fits p sz al i) ->
  scan p sz al (seq 0 (length p)) = Ok None.
Proof.
  intros Hal Hno.
  pose proof (scan_spec p sz al (seq 0 (length p)) ltac:(lia)) as Hsp.
  destruct (scan p sz al (seq 0 (length p))) as [[i|]|]; [|done|done].
  destruct Hsp as [_ Hf]. by apply Hno in Hf.
Qed.

(** C3.  Whenever [checkOutAligned(size, alignment, tag, preventOverflow)]
    with [size > 0] and [alignment >= 1] returns normally, through the scan
    or through the overflow path, the returned start index is divisible by
    [alignment]. *)
Theorem checkOutAligned_start_aligned (s : t) (sz al : nat) (tg : string)
    (po : option bool) (start : nat) :
  0 < sz -> 1 <= al ->
  outcome (checkOutAligned sz al tg po s) = Ok start ->
  (al | start).
Proof.
  intros Hsz Hal Hret.
  pose proof (scan_spec (pool s) sz al (seq 0 (length (pool s))) ltac:(lia)) as Hsp.
  destruct (scan (pool s) sz al (seq 0 (length (pool s)))) as [[found|]|] eqn:Hscan;
    [| |done].
  - (* success without overflowing *)
    destruct Hsp as (_ & Hmod & Hle & _).
    rewrite (checkOutAligned_fit_eq s sz al tg po found Hsz Hscan Hle) in Hret.
    injection Hret as <-. apply Nat.Lcm0.mod_divide. done.
  - (* need overflow *)
    destruct (match po with None => defaultPreventOverflow s | Some b => b end) eqn:Hpo.
    + by rewrite (checkOutAligned_prevented s sz al tg po Hsz Hscan Hpo) in Hret.
    + destruct (checkOutAligned_overflow_eq s sz al tg po Hsz Hal Hscan Hpo)
        as (t0 & _ & _ & _ & _ & Heq).
      cbv zeta in Heq. rewrite Heq in Hret. injection Hret as <-.
      by apply roundUp_spec.
Qed.

End PoolFacts.

(** ** Instruction selection *)

Section SelectFacts.
Import MemoryInstruction Select.

Lemma Qlt_bool_false (x y : Q) : Qlt_bool x y = false <-> (y <= x)%Q.
Proof.
  unfold Qlt_bool, Qle. rewrite Z.ltb_ge. reflexivity.
Qed.

Lemma stridesDivide_spec (strides : list Z) (om : Z) :
  (strides <> [] -> om <> 0%Z) ->
  exists b, stridesDivide strides om = Ok b /\
    (b = true <-> forall stride, stride ∈ strides -> (stride mod om = 0)%Z).
Proof.
  intros Hom. destruct strides as [|x l].
  - exists true. split; [reflexivity|]. split; [|done]. intros _ ? H. by apply not_elem_of_nil in H.
  - cbn [stridesDivide]. assert (om <> 0%Z) as Hne by (by apply Hom).
    apply Z.eqb_neq in Hne. rewrite Hne. eexists. split; [reflexivity|].
    rewrite forallb_forall. split.
    + intros H stride Hs. apply Z.eqb_eq, H. by apply list_elem_of_In.
    + intros H stride Hs. apply Z.eqb_eq, H. by apply list_elem_of_In.
Qed.

Lemma isValid_spec (width : Q) (strides : list Z) (combine : bool) (i : MemoryInstruction.t) :
  wellFormed i ->
  exists b, isValid width strides combine i = Ok b /\
            (b = true <-> qualifies width strides combine i).
Proof.
  intros Hwf. unfold isValid, qualifies.
  pose proof (Qlt_bool_false width (blockWidth i)) as Hq.
  destruct combine.
  - destruct (0 <? numOffsets i) eqn:Hno.
    + apply Nat.ltb_lt in Hno.
      destruct (stridesDivide_spec strides (offsetMultiplier i)) as (b & -> & Hb);
        [intros _; by apply Hwf|].
      eexists; split; [reflexivity|].
      rewrite andb_true_iff, negb_true_iff, Hq, Hb. split; [|intros [? H]; split; [done|by apply H]].
      intros [? ?]; split; done.
    + apply Nat.ltb_ge in Hno. eexists; split; [reflexivity|].
      rewrite negb_true_iff, Hq. split; [|by intros [? _]]. intros H; split; [done|]. lia.
  - eexists; split; [reflexivity|].
    rewrite andb_true_iff, !negb_true_iff, orb_false_iff, !Nat.ltb_ge, Hq. reflexivity.
Qed.

Lemma findFrom_spec (width : Q) (strides : list Z) (combine : bool)
    (instructions : list MemoryInstruction.t) (k : nat) :
  Forall wellFormed instructions ->
  match findFrom width strides combine instructions k with
  | Ok (Some i) =>
      k <= i /\ exists instruction,
        instructions !! (i - k) = Some instruction /\
        qualifies width strides combine instruction /\
        forall j other, j < i - k -> instructions !! j = Some other ->
                        ~ qualifies width strides combine other
  | Ok None =>
      forall instruction, instruction ∈ instructions ->
                          ~ qualifies width strides combine instruction
  | Raise _ => False
  end.
Proof.
  intros Hwf. revert k. induction Hwf as [|x l Hx Hl IH]; intros k; cbn [findFrom].
  - intros ? H. by apply not_elem_of_nil in H.
  - destruct (isValid_spec width strides combine x Hx) as (b & -> & Hb).
    destruct b.
    + split; [lia|]. exists x. rewrite Nat.sub_diag. split; [done|]. split; [by apply Hb|].
      intros; lia.
    + assert (~ qualifies width strides combine x) as Hnq by (intros H; apply Hb in H; done).
      specialize (IH (S k)). destruct (findFrom _ _ _ l (S k)) as [[i|]|]; [| |done].
      * destruct IH as (Hle & y & Hy & Hq & Hfirst). split; [lia|]. exists y.
        replace (i - k) with (S (i - S k)) by lia. split; [done|]. split; [done|].
        intros [|j] other Hj Ho; cbn in Ho; [by injection Ho as <-|].
        apply (Hfirst j other); [lia|done].
      * intros y [->|Hy]%elem_of_cons; [done|by apply IH].
Qed.

Lemma catalog_wellFormed (bufferLoad : bool) (operation : string)
    (instructions : list MemoryInstruction.t) :
  Catalog.memoryInstructions bufferLoad !! operation = Some instructions ->
  Forall wellFormed instructions.
Proof.
  unfold Catalog.memoryInstructions. intros H.
  apply elem_of_list_to_map_2 in H.
  destruct bufferLoad;
    repeat (apply elem_of_cons in H as [H|H]);
    try (by apply not_elem_of_nil in H);
    injection H as _ ->;
    repeat constructor; unfold wellFormed; cbn; (lia || discriminate).
Qed.

Lemma selectMemoryInstruction_eq (operation : string) (width : Q) (write2 : string)
    (para2 perp2 : bool) (strides : list Z) (w : Writer)
    (instructions : list MemoryInstruction.t) :
  memoryInstructions w !! operation = Some instructions ->
  selectMemoryInstruction operation width write2 para2 perp2 strides w =
    match findFrom width strides (combines write2 para2 perp2) instructions 0 with
    | Raise e => (Raise e, w, [])
    | Ok (Some i) =>
        if i <? length instructions then (Ok i, w, [])
        else (Raise (RuntimeError (NoValidMemoryInstruction operation width (kernelName w))),
              w, [])
    | Ok None =>
        (Raise (RuntimeError (NoValidMemoryInstruction operation width (kernelName w))),
         w, [Warn (NoValidInstructionForWidth width)])
    end.
Proof.
  intros Hop. unfold selectMemoryInstruction, bind at 1, get. rewrite Hop.
  fold (combines write2 para2 perp2).
  assert (E : (if combines write2 para2 perp2
               then findMemoryInstructionForWidthStride (S:=Writer) width strides true instructions
               else findMemoryInstructionForWidthStride width strides false instructions)
              = findMemoryInstructionForWidthStride width strides
                  (combines write2 para2 perp2) instructions)
    by (by destruct (combines write2 para2 perp2)).
  rewrite E. unfold findMemoryInstructionForWidthStride, bind, ret, raise, printWarning, emit.
  destruct (findFrom _ _ _ instructions 0) as [[i|]|]; cbv beta iota.
  - destruct (i <? length instructions); reflexivity.
  - rewrite Nat.ltb_irrefl. reflexivity.
  - reflexivity.
Qed.

(** C2.  With the catalog of the kernel writer, for every operation that
    the catalog lists and every requested width: an index returned by
    [selectMemoryInstruction] is that of a catalog entry whose block width
    is at most the requested width (and which satisfies the combine and
    stride rules); and when no entry of that operation qualifies, the call
    raises the "Could not find valid memory instruction" error. *)
Theorem selectMemoryInstruction_sound (bufferLoad : bool) (name : string)
    (operation : string) (width : Q) (write2 : string) (para2 perp2 : bool)
    (strides : list Z) (instructions : list MemoryInstruction.t) :
  let w := mkWriter (Catalog.memoryInstructions bufferLoad) name in
  let r := selectMemoryInstruction operation width write2 para2 perp2 strides w in
  memoryInstructions w !! operation = Some instructions ->
  (forall idx, outcome r = Ok idx ->
     exists selected, instructions !! idx = Some selected /\
                      (blockWidth selected <= width)%Q /\
                      qualifies width strides (combines write2 para2 perp2) selected) /\
  ((forall instruction, instruction ∈ instructions ->
      ~ qualifies width strides (combines write2 para2 perp2) instruction) ->
   outcome r = Raise (RuntimeError (NoValidMemoryInstruction operation width name))).
Proof.
  intros w r Hop. subst r.
  rewrite (selectMemoryInstruction_eq _ _ _ _ _ _ w instructions Hop).
  pose proof (findFrom_spec width strides (combines write2 para2 perp2) instructions 0
                (catalog_wellFormed bufferLoad operation instructions Hop)) as Hspec.
  destruct (findFrom _ _ _ instructions 0) as [[i|]|]; [| |done].
  - destruct Hspec as (_ & x & Hx & Hq & _). rewrite Nat.sub_0_r in Hx.
    assert (i < length instructions) as Hlt by (by eapply lookup_lt_Some).
    apply Nat.ltb_lt in Hlt. rewrite Hlt. split.
    + intros idx [= <-]. exists x. split; [done|]. split; [apply Hq|done].
    + intros Hno. exfalso. apply (Hno x); [|done]. by eapply list_elem_of_lookup_2.
  - split; [intros idx; discriminate|]. intros _. reflexivity.
Qed.

End SelectFacts.

(** ** The small-number magic division in exact arithmetic *)

Section MagicArithmetic.
Import Asm.
Local Open Scope Z_scope.

Lemma magicNumberWgm_bound (n : Z) :
  1 <= n -> 0 <= magicNumberWgm n < 2 ^ 32.
Proof.
  intros Hn. unfold magicNumberWgm, smallNumMagicShift.
  change (Z.shiftl 1 31) with 2147483648. change (2 ^ 32) with 4294967296.
  pose proof (Z.div_pos 2147483648 n ltac:(lia) ltac:(lia)).
  pose proof (Z.div_le_upper_bound 2147483648 n 2147483648 ltac:(lia) ltac:(lia)).
  lia.
Qed.

(** With [2^31 = q*n + r] and [d = k*n + s], the product [d * (q+1)] is
    [k * 2^31 + e] with [n * e = d * (n-r) + s * 2^31]: the shifted product
    is [k] exactly when [e < 2^31]. *)
Lemma smallMagic_quotient (n d : Z) :
  1 <= n < 2 ^ 32 -> 0 <= d < 2 ^ 32 ->
  (d * magicNumberWgm n / 2 ^ smallNumMagicShift) mod 2 ^ 32 = d / n
  <-> d * (n - 2 ^ 31 mod n) < (n - d mod n) * 2 ^ 31.
Proof.
  intros Hn Hd. unfold magicNumberWgm, smallNumMagicShift.
  change (Z.shiftl 1 31) with 2147483648. change (2 ^ 32) with 4294967296 in *.
  change (2 ^ 31) with 2147483648.
  pose proof (Z.div_mod 2147483648 n ltac:(lia)) as Hp.
  pose proof (Z.mod_pos_bound 2147483648 n ltac:(lia)) as Hr.
  pose proof (Z.div_mod d n ltac:(lia)) as Hdd.
  pose proof (Z.mod_pos_bound d n ltac:(lia)) as Hs.
  pose proof (Z.div_pos 2147483648 n ltac:(lia) ltac:(lia)) as Hq.
  pose proof (Z.div_pos d n ltac:(lia) ltac:(lia)) as Hk.
  revert Hp Hr Hdd Hs Hq Hk.
  generalize (2147483648 / n) (2147483648 mod n) (d / n) (d mod n).
  intros q r k s Hp Hr Hdd Hs Hq Hk.
  set (e := k * (n - r) + s * (q + 1)).
  assert (He : d * (q + 1) = k * 2147483648 + e) by (unfold e; rewrite Hdd, Hp; ring).
  assert (Hne : n * e = d * (n - r) + s * 2147483648) by (unfold e; rewrite Hdd, Hp; ring).
  assert (Hkr : 0 <= k * r) by (apply Z.mul_nonneg_nonneg; lia).
  assert (Hknr : 0 <= k * (n - r)) by (apply Z.mul_nonneg_nonneg; lia).
  assert (Hsq : 0 <= s * (q + 1)) by (apply Z.mul_nonneg_nonneg; lia).
  assert (Hsq2 : s * q <= n * q) by (apply Z.mul_le_mono_nonneg_r; lia).
  assert (Hkn : 1 * k <= n * k) by (apply Z.mul_le_mono_nonneg_r; lia).
  assert (He0 : 0 <= e) by (unfold e; lia).
  assert (He5 : e < 5 * 2147483648) by (unfold e; lia).
  rewrite He, Z.div_add_l by lia.
  pose proof (Z.div_pos e 2147483648 He0 ltac:(lia)) as Hj0.
  pose proof (Z.div_lt_upper_bound e 2147483648 5 ltac:(lia) ltac:(lia)) as Hj5.
  assert (Hk2 : k < 4294967296) by lia.
  assert (Hj : e / 2147483648 = 0 <-> e < 2147483648).
  { split; intros H.
    - pose proof (Z.div_mod e 2147483648 ltac:(lia)).
      pose proof (Z.mod_pos_bound e 2147483648 ltac:(lia)). lia.
    - apply Z.div_small. lia. }
  assert (Hc : e < 2147483648 <-> d * (n - r) < (n - s) * 2147483648).
  { rewrite (Z.mul_lt_mono_pos_l n e 2147483648) by lia. lia. }
  rewrite <- Hc, <- Hj.
  revert Hj0 Hj5. generalize (e / 2147483648). intros j Hj0 Hj5.
  split.
  - intros Hm. destruct (Z_lt_le_dec (k + j) 4294967296) as [Hlt|Hge].
    + rewrite Z.mod_small in Hm by lia. lia.
    + replace (k + j) with ((k + j - 4294967296) + 1 * 4294967296) in Hm by ring.
      rewrite Z.mod_add in Hm by lia. rewrite Z.mod_small in Hm by lia. lia.
  - intros ->. rewrite Z.add_0_r. apply Z.mod_small. lia.
Qed.

Lemma smallMagic_small_dividend (n d : Z) :
  1 <= n < 2 ^ 32 -> 0 <= d -> d * n < 2 ^ 31 ->
  d * (n - 2 ^ 31 mod n) < (n - d mod n) * 2 ^ 31.
Proof.
  intros Hn Hd Hdn.
  pose proof (Z.mod_pos_bound (2 ^ 31) n ltac:(lia)) as Hr.
  pose proof (Z.mod_pos_bound d n ltac:(lia)) as Hs.
  assert (0 <= d * (2 ^ 31 mod n)) by (apply Z.mul_nonneg_nonneg; lia).
  lia.
Qed.

End MagicArithmetic.

(** ** Emitted scalar arithmetic *)

Section AsmFacts.
Import Asm.
Variable sgprs : string -> nat.
Variable vgprs : string -> nat.
Variable scratch : nat -> Z -> Z.
Variable scratchScc : Z -> bool.

Abbreviation read32 := (read32 sgprs vgprs).
Abbreviation write32 := (write32 sgprs vgprs).
Abbreviation step := (step sgprs vgprs).
Abbreviation exec := (exec sgprs vgprs scratch scratchScc).
Abbreviation scalarSource := (scalarSource sgprs).
Abbreviation gsuRegisters := (gsuRegisters sgprs).
Abbreviation tripCount := (tripCount sgprs vgprs scratch scratchScc).

Lemma read32_setS (m : Machine) (o : Operand) (lo n i : nat) (v : Z) :
  scalarSource o lo n -> lo <= i < lo + n ->
  read32 (setS m i v) o = read32 m o.
Proof.
  intros Hs Hi. destruct o as [r [|[|k]]|r k|z]; cbn in *; try done.
  rewrite decide_False by lia. done.
Qed.

Lemma read32_setV (m : Machine) (o : Operand) (lo n i : nat) (v : Z) :
  scalarSource o lo n -> read32 (setV m i v) o = read32 m o.
Proof. intros Hs. by destruct o as [r [|[|k]]|r k|z]. Qed.

Lemma read32_setScc (m : Machine) (o : Operand) (b : bool) :
  read32 (setScc m b) o = read32 m o.
Proof. by destruct o as [r [|[|k]]|r [|[|k]]|z]. Qed.

Lemma exec_cons (m : Machine) (i : Inst) (rest : list Item) :
  exec m (Instr i :: rest) = step m i ≫= fun m' => exec m' rest.
Proof. reflexivity. Qed.

Lemma step3 (m : Machine) (op : string) (d a b : Operand) (c : string) :
  step m (inst op [d; a; b] c) =
      if String.eqb op "s_add_u32" then
        x ← read32 m a; y ← read32 m b;
        m' ← write32 m d (x + y)%Z; Some (setScc m' (2 ^ 32 <=? x + y)%Z)
      else if String.eqb op "s_mul_i32" then
        x ← read32 m a; y ← read32 m b; write32 m d (x * y)%Z
      else if String.eqb op "s_mul_hi_u32" then
        x ← read32 m a; y ← read32 m b; write32 m d (x * y / 2 ^ 32)%Z
      else if String.eqb op "v_mul_lo_u32" then
        x ← read32 m a; y ← read32 m b; write32 m d (x * y)%Z
      else if String.eqb op "v_mul_hi_u32" then
        x ← read32 m a; y ← read32 m b; write32 m d (x * y / 2 ^ 32)%Z
      else if String.eqb op "s_and_b32" then
        x ← read32 m a; y ← read32 m b;
        m' ← write32 m d (Z.land x y); Some (setScc m' (negb (Z.land x y =? 0)%Z))
      else if String.eqb op "s_lshr_b32" then
        x ← read32 m a; y ← read32 m b;
        m' ← write32 m d (Z.shiftr x (y mod 32));
        Some (setScc m' (negb (Z.shiftr x (y mod 32) =? 0)%Z))
      else if String.eqb op "s_lshr_b64" then
        x ← read64 sgprs m a; y ← read32 m b;
        m' ← write64 sgprs m d (Z.shiftr x (y mod 64));
        Some (setScc m' (negb (Z.shiftr x (y mod 64) =? 0)%Z))
      else None.
Proof. reflexivity. Qed.

Lemma wrap32_small (z : Z) : (0 <= z < 2 ^ 32)%Z -> wrap32 z = z.
Proof. intros H. unfold wrap32. by apply Z.mod_small. Qed.

Lemma mulhi_bound (x y : Z) :
  (0 <= x < 2 ^ 32)%Z -> (0 <= y < 2 ^ 32)%Z -> (0 <= x * y / 2 ^ 32 < 2 ^ 32)%Z.
Proof.
  intros Hx Hy. split; [apply Z.div_pos; nia|].
  apply Z.div_lt_upper_bound; nia.
Qed.

Lemma sMagicDivAlg2_value (m : Machine) (dest : nat)
    (dividend magic shiftAbit : Operand) (d mg a s : Z) :
  read32 m dividend = Some d ->
  read32 m magic = Some mg ->
  read32 m shiftAbit = Some (a * 2 ^ 31 + s)%Z ->
  scalarSource dividend dest 3 ->
  scalarSource magic dest 3 ->
  scalarSource shiftAbit dest 3 ->
  (0 <= d < 2 ^ 32)%Z -> (0 <= mg < 2 ^ 32)%Z ->
  (a = 0 \/ a = 1)%Z -> (0 <= s < 32)%Z ->
  exists m',
    exec m (sMagicDivAlg2 dest dividend magic shiftAbit) = Some m' /\
    sregs m' dest = (((d * mg / 2 ^ 32 + d * a) mod 2 ^ 32) / 2 ^ s)%Z.
Proof.
  intros Hd Hm Hw Sd Sm Sw Bd Bm Ba Bs.
  assert (Ha : Z.shiftr (a * 2 ^ 31 + s) 31 = a).
  { rewrite Z.shiftr_div_pow2 by lia. rewrite Z.div_add_l by lia.
    rewrite Z.div_small by lia. lia. }
  assert (Hs : Z.land (a * 2 ^ 31 + s) 0x7fffffff = s).
  { change 0x7fffffff%Z with (Z.ones 31). rewrite Z.land_ones by lia.
    rewrite Z.add_comm, Z.mod_add by lia. apply Z.mod_small. lia. }
  pose proof (mulhi_bound d mg Bd Bm) as Bh.
  unfold sMagicDivAlg2.
  rewrite exec_cons, step3. cbn [String.eqb Ascii.eqb Bool.eqb].
  rewrite Hd, Hm. cbn [mbind option_bind write32 resolve].
  rewrite exec_cons, step3. cbn [String.eqb Ascii.eqb Bool.eqb].
  rewrite (read32_setS _ shiftAbit dest 3) by (done || lia). rewrite Hw.
  cbn [mbind option_bind write32 resolve Asm.read32].
  change (wrap32 31 mod 32)%Z with 31%Z. rewrite Ha.
  rewrite exec_cons, step3. cbn [String.eqb Ascii.eqb Bool.eqb].
  rewrite !read32_setScc, !(read32_setS _ dividend dest 3) by (done || lia). rewrite Hd.
  cbn [mbind option_bind write32 resolve Asm.read32 sregs setS setScc].
  repeat case_decide; try lia.
  rewrite exec_cons, step3. cbn [String.eqb Ascii.eqb Bool.eqb].
  cbn [mbind option_bind write32 resolve Asm.read32 sregs setS setScc].
  repeat case_decide; try lia.
  rewrite exec_cons, step3. cbn [String.eqb Ascii.eqb Bool.eqb].
  repeat (rewrite !read32_setScc; rewrite !(read32_setS _ shiftAbit dest 3) by (done || lia)).
  rewrite Hw.
  cbn [mbind option_bind write32 resolve Asm.read32].
  change (wrap32 2147483647) with 2147483647%Z. rewrite Hs.
  rewrite exec_cons, step3. cbn [String.eqb Ascii.eqb Bool.eqb].
  cbn [mbind option_bind write32 resolve Asm.read32 sregs setS setScc].
  repeat case_decide; try lia.
  eexists. split; [reflexivity|]. cbn [exec sregs setS setScc].
  repeat case_decide; try lia.
  rewrite (wrap32_small a) by lia. rewrite (wrap32_small s) by lia.
  rewrite (wrap32_small (d * mg / 2 ^ 32)) by lia.
  rewrite (wrap32_small (d * a)) by (destruct Ba; subst; lia).
  rewrite (Z.mod_small s 32) by lia.
  rewrite Z.shiftr_div_pow2 by lia.
  unfold wrap32. rewrite (Z.add_comm (d * a)).
  apply Z.mod_small.
  pose proof (Z.mod_pos_bound (d * mg / 2 ^ 32 + d * a) (2 ^ 32) ltac:(lia)) as Hb.
  split; [apply Z.div_pos; lia|].
  apply Z.div_lt_upper_bound; [lia|]. 
  assert (1 <= 2 ^ s)%Z by (apply (Z.pow_le_mono_r 2 0 s); lia). nia.
Qed.


Lemma step2 (m : Machine) (op : string) (a b : Operand) (c : string) :
  step m (inst op [a; b] c) =
      if String.eqb op "s_mov_b32" then
        v ← read32 m b; write32 m a v
      else if String.eqb op "s_cmov_b32" then
        v ← read32 m b; if scc m then write32 m a v else Some m
      else if String.eqb op "s_cmp_lt_u32" then
        x ← read32 m a; y ← read32 m b; Some (setScc m (x <? y)%Z)
      else if String.eqb op "v_mov_b32" then
        v ← read32 m b; write32 m a v
      else if String.eqb op "v_readfirstlane_b32" then
        v ← read32 m b; write32 m a v
      else None.
Proof. reflexivity. Qed.

Lemma s_mul_u64_u32_code (hasSMulHi : bool) (dst0 dst1 src0 src1 : Operand)
    (cmt : string) (rp : RegisterPool.t) (code : list Item) :
  outcome (s_mul_u64_u32 hasSMulHi dst0 dst1 src0 src1 cmt rp) = Ok code ->
  (hasSMulHi = true /\
   code = [ Instr (inst "s_mul_hi_u32" [dst1; src0; src1] cmt);
            Instr (inst "s_mul_i32" [dst0; src0; src1] cmt) ]) \/
  (hasSMulHi = false /\ exists vtmp0,
   code = [ Instr (inst "v_mov_b32" [vgpr (Idx vtmp0) 1; src1] cmt);
            Instr (inst "v_mul_hi_u32"
                        [vgpr (Idx (vtmp0 + 1)) 1; vgpr (Idx vtmp0) 1; src0] cmt);
            Instr (inst "v_readfirstlane_b32" [dst1; vgpr (Idx (vtmp0 + 1)) 1] cmt);
            Instr (inst "v_mul_lo_u32"
                        [vgpr (Idx (vtmp0 + 1)) 1; vgpr (Idx vtmp0) 1; src0] cmt);
            Instr (inst "v_readfirstlane_b32" [dst0; vgpr (Idx (vtmp0 + 1)) 1] cmt) ]).
Proof.
  unfold s_mul_u64_u32. intros H.
  apply bind_outcome_inv in H as (_ & s1 & o1 & _ & H).
  apply bind_outcome_inv in H as (_ & s2 & o2 & _ & H).
  destruct hasSMulHi.
  - left. split; [done|]. by injection H as <-.
  - right. split; [done|].
    apply bind_outcome_inv in H as (vtmp0 & s3 & o3 & _ & H).
    apply bind_outcome_inv in H as (_ & s4 & o4 & _ & H).
    exists vtmp0. by injection H as <-.
Qed.

Lemma s_mul_u64_u32_hi (dst0 dst1 src0 src1 : Operand) (cmt : string)
    (rp : RegisterPool.t) :
  dst1 <> src0 -> dst1 <> src1 ->
  s_mul_u64_u32 true dst0 dst1 src0 src1 cmt rp =
    (Ok [ Instr (inst "s_mul_hi_u32" [dst1; src0; src1] cmt);
          Instr (inst "s_mul_i32" [dst0; src0; src1] cmt) ], rp, []).
Proof.
  intros H0 H1. unfold s_mul_u64_u32.
  rewrite !bool_decide_eq_false_2 by done. reflexivity.
Qed.


Lemma read64_pair (m : Machine) (dest : nat) :
  read64 sgprs m (sgpr (Idx dest) 2)
  = Some (sregs m dest + 2 ^ 32 * sregs m (dest + 1))%Z.
Proof. reflexivity. Qed.

Lemma mul64_split (x y : Z) :
  (0 <= x < 2 ^ 32)%Z -> (0 <= y < 2 ^ 32)%Z ->
  (wrap32 (x * y) + 2 ^ 32 * wrap32 (x * y / 2 ^ 32) = x * y)%Z.
Proof.
  intros Hx Hy. rewrite (wrap32_small (x * y / 2 ^ 32)) by (by apply mulhi_bound).
  unfold wrap32. pose proof (Z.div_mod (x * y) (2 ^ 32) ltac:(lia)). lia.
Qed.

Lemma sMagicDiv_value (hasSMulHi : bool) (rp : RegisterPool.t) (m : Machine)
    (dest : nat) (dividend magic shiftOp : Operand) (d mg s : Z) (code : list Item) :
  read32 m dividend = Some d ->
  read32 m magic = Some mg ->
  read32 m shiftOp = Some s ->
  scalarSource dividend dest 2 ->
  scalarSource magic dest 2 ->
  scalarSource shiftOp dest 2 ->
  (0 <= d < 2 ^ 32)%Z -> (0 <= mg < 2 ^ 32)%Z -> (0 <= s < 64)%Z ->
  outcome (sMagicDiv hasSMulHi dest dividend magic shiftOp rp) = Ok code ->
  exists m',
    exec m code = Some m' /\
    sregs m' dest = ((d * mg / 2 ^ s) mod 2 ^ 32)%Z.
Proof.
  intros Hd Hm Hs Sd Sm Ss Bd Bm Bs Hcode.
  unfold sMagicDiv in Hcode.
  apply bind_outcome_inv in Hcode as (kStr & s1 & o1 & Hmul & Hret).
  injection Hret as <-.
  assert (Hk : outcome (s_mul_u64_u32 hasSMulHi (sgpr (Idx dest) 1)
                          (sgpr (Idx (dest + 1)) 1) dividend magic "s_magic mul" rp)
               = Ok kStr) by (by rewrite Hmul).
  apply s_mul_u64_u32_code in Hk as [[_ ->]|[_ [v ->]]]; cbn [app].
  - rewrite exec_cons, step3. cbn [String.eqb Ascii.eqb Bool.eqb].
    rewrite Hd, Hm. cbn [mbind option_bind write32 resolve].
    rewrite exec_cons, step3. cbn [String.eqb Ascii.eqb Bool.eqb].
    rewrite (read32_setS _ dividend dest 2), (read32_setS _ magic dest 2) by (done || lia).
    rewrite Hd, Hm. cbn [mbind option_bind write32 resolve].
    rewrite exec_cons, step3. cbn [String.eqb Ascii.eqb Bool.eqb].
    rewrite read64_pair, !(read32_setS _ shiftOp dest 2) by (done || lia). rewrite Hs.
    cbn [mbind option_bind write64 resolve sregs setS].
    repeat case_decide; try lia.
    eexists. split; [reflexivity|]. cbn [sregs setS setScc].
    repeat case_decide; try lia.
    rewrite mul64_split by done. rewrite (Z.mod_small s 64) by lia.
    rewrite Z.shiftr_div_pow2 by lia. reflexivity.
  - rewrite exec_cons, step2. cbn [String.eqb Ascii.eqb Bool.eqb].
    rewrite Hm. cbn [mbind option_bind write32 resolve].
    rewrite exec_cons, step3. cbn [String.eqb Ascii.eqb Bool.eqb].
    rewrite (read32_setV _ dividend dest 2) by done. rewrite Hd.
    cbn [mbind option_bind write32 resolve Asm.read32 vregs setV].
    repeat case_decide; try lia.
    rewrite exec_cons, step2. cbn [String.eqb Ascii.eqb Bool.eqb].
    cbn [mbind option_bind write32 resolve Asm.read32 vregs setV].
    repeat case_decide; try lia.
    rewrite exec_cons, step3. cbn [String.eqb Ascii.eqb Bool.eqb].
    rewrite (read32_setS _ dividend dest 2) by (done || lia).
    rewrite !(read32_setV _ dividend dest 2) by done. rewrite Hd.
    cbn [mbind option_bind write32 resolve Asm.read32 vregs setV setS].
    repeat case_decide; try lia.
    rewrite exec_cons, step2. cbn [String.eqb Ascii.eqb Bool.eqb].
    cbn [mbind option_bind write32 resolve Asm.read32 vregs setV setS].
    repeat case_decide; try lia.
    rewrite exec_cons, step3. cbn [String.eqb Ascii.eqb Bool.eqb].
    rewrite read64_pair.
    rewrite !(read32_setS _ shiftOp dest 2) by (done || lia).
    rewrite !(read32_setV _ shiftOp dest 2) by done.
    rewrite (read32_setS _ shiftOp dest 2) by (done || lia).
    rewrite !(read32_setV _ shiftOp dest 2) by done.
    rewrite Hs.
    cbn [mbind option_bind write64 resolve sregs setS setV].
    repeat case_decide; try lia.
    eexists. split; [reflexivity|]. cbn [sregs setS setScc].
    repeat case_decide; try lia.
    rewrite (wrap32_small mg) by lia.
    rewrite !(wrap32_small (wrap32 _)) by (apply Z.mod_pos_bound; lia).
    rewrite (Z.mul_comm mg d).
    rewrite mul64_split by done. rewrite (Z.mod_small s 64) by lia.
    rewrite Z.shiftr_div_pow2 by lia. reflexivity.
Qed.


(** C6 (amended).  For a valid triple and a 32-bit dividend [d], the code
    emitted by [sMagicDivAlg2] leaves [d / n] in [sgpr(dest)] whenever the
    32-bit sum of the high product and [d] times the abit does not carry
    out of 32 bits.  The code emitted by [sMagicDiv], run with the
    constants the workgroup-mapping code computes for it (shift 31,
    multiplier [2^31 // n + 1]) and a 32-bit dividend [d], leaves [d / n]
    in [sgpr(dest)] exactly when
    [d * (n - 2^31 mod n) < (n - d mod n) * 2^31], so for every [d] with
    [d * n < 2^31]; and with [s_mul_hi_u32] available [sMagicDiv] always
    emits its code. *)
Theorem magic_division_exact_in_range :
  (forall (n : Z) (t : MagicTriple) (d : Z) (m : Machine) (dest : nat)
          (dividend magic shiftAbit : Operand),
     validMagic n t ->
     (0 <= d < 2 ^ 32)%Z ->
     (d * magicNumber t / 2 ^ 32 + d * magicAbit t < 2 ^ 32)%Z ->
     read32 m dividend = Some d ->
     read32 m magic = Some (magicNumber t) ->
     read32 m shiftAbit = Some (magicShiftAbitWord t) ->
     scalarSource dividend dest 3 ->
     scalarSource magic dest 3 ->
     scalarSource shiftAbit dest 3 ->
     exists m',
       exec m (sMagicDivAlg2 dest dividend magic shiftAbit) = Some m' /\
       sregs m' dest = (d / n)%Z) /\
  (forall (n d : Z) (hasSMulHi : bool) (rp : RegisterPool.t)
          (m : Machine) (dest : nat) (dividend magicOp shiftOp : Operand),
     (1 <= n < 2 ^ 32)%Z ->
     (0 <= d < 2 ^ 32)%Z ->
     read32 m dividend = Some d ->
     read32 m magicOp = Some (magicNumberWgm n) ->
     read32 m shiftOp = Some smallNumMagicShift ->
     scalarSource dividend dest 2 ->
     scalarSource magicOp dest 2 ->
     scalarSource shiftOp dest 2 ->
     (hasSMulHi = true ->
      exists code, sMagicDiv hasSMulHi dest dividend magicOp shiftOp rp = (Ok code, rp, [])) /\
     (forall code,
        outcome (sMagicDiv hasSMulHi dest dividend magicOp shiftOp rp) = Ok code ->
        exists m',
          exec m code = Some m' /\
          (sregs m' dest = (d / n)%Z
           <-> (d * (n - 2 ^ 31 mod n) < (n - d mod n) * 2 ^ 31)%Z) /\
          ((d * n < 2 ^ 31)%Z -> sregs m' dest = (d / n)%Z))).
Proof.
  split.
  - intros n t d m dest dividend magic shiftAbit (Bn & Bm & Bs & Ba & Hv) Bd Hc Hd Hm Hw Sd Sm Sw.
    destruct (sMagicDivAlg2_value m dest dividend magic shiftAbit d (magicNumber t)
                (magicAbit t) (magicShift t)) as (m' & He & Hr); try done.
    exists m'. split; [done|]. rewrite Hr, <- (Hv d Bd).
    rewrite Z.mod_small; [done|].
    pose proof (mulhi_bound d (magicNumber t) Bd Bm) as Hh.
    clear Hv Hr. revert Hc Hh. generalize (d * magicNumber t / 2 ^ 32)%Z. intros h Hc Hh.
    destruct Ba as [E | E]; rewrite E in *; lia.
  - intros n d hasSMulHi rp m dest dividend magicOp shiftOp Bn Bd Hd Hm Hs Sd Sm Ss.
    split.
    + intros ->. unfold sMagicDiv. eexists.
      erewrite bind_ok_nil; [reflexivity|].
      apply s_mul_u64_u32_hi.
      * destruct dividend as [r [|[|k]]|r k|z]; cbn in Sd; try done.
        intros [= E]. rewrite <- E in Sd. cbn in Sd. lia.
      * destruct magicOp as [r [|[|k]]|r k|z]; cbn in Sm; try done.
        intros [= E]. rewrite <- E in Sm. cbn in Sm. lia.
    + intros code Hcode.
      destruct (sMagicDiv_value hasSMulHi rp m dest dividend magicOp shiftOp d
                  (magicNumberWgm n) smallNumMagicShift code)
        as (m' & He & Hr); try done;
        try (apply magicNumberWgm_bound; lia); try (unfold smallNumMagicShift; lia).
      exists m'. split; [done|]. rewrite Hr.
      pose proof (smallMagic_quotient n d Bn Bd) as Hiff.
      split; [exact Hiff|].
      intros Hsmall. apply Hiff. apply smallMagic_small_dividend; [done|lia|done].
Qed.

Lemma tripCount_rule (globalSplitU : Z) (destName : RegIdx) (tmpSgpr : nat)
    (m : Machine) (numIter gsuSumIdx : Z) :
  NoDup (gsuRegisters destName tmpSgpr) ->
  (0 <= numIter < 2 ^ 32)%Z ->
  (1 <= globalSplitU < 2 ^ 32)%Z ->
  (0 <= gsuSumIdx < 2 ^ 32)%Z ->
  tripCount globalSplitU destName tmpSgpr m numIter gsuSumIdx
  = Some (splitKRule numIter globalSplitU gsuSumIdx).
Proof.
  intros Hnd Hn Hg Hp. unfold Asm.gsuRegisters in Hnd.
  set (lc := resolve sgprs destName) in *.
  set (g := sgprs "GSUSumIdx" + 0) in *.
  set (g1 := sgprs "GSUSumIdx" + 1) in *.
  assert (Hd : lc <> g /\ lc <> g1 /\ lc <> tmpSgpr /\ lc <> tmpSgpr + 1 /\ lc <> tmpSgpr + 2
               /\ g <> g1 /\ g <> tmpSgpr /\ g <> tmpSgpr + 1 /\ g <> tmpSgpr + 2
               /\ g1 <> tmpSgpr /\ g1 <> tmpSgpr + 1 /\ g1 <> tmpSgpr + 2).
  { repeat match goal with
           | H : NoDup (_ :: _) |- _ => apply NoDup_cons in H as [? H]
           end.
    repeat match goal with
           | H : _ ∉ _ :: _ |- _ => apply not_elem_of_cons in H as [? H]
           end.
    repeat split; (done || lia). }
  destruct Hd as (? & ? & ? & ? & ? & ? & ? & ? & ? & ? & ? & ?).
  unfold Asm.tripCount, calculateLoopNumIterGsu, scalarStaticDivideAndRemainder.
  cbn [app exec stepItem]. unfold step. cbn [opcode operands String.eqb Ascii.eqb Bool.eqb].
  cbn [read32 write32 resolve mbind option_bind].
  fold lc g g1.
  unfold stepDivRem. rewrite decide_True by (split; [done|lia]).
  cbn [mbind option_bind exec stepItem]. unfold step.
  cbn [opcode operands String.eqb Ascii.eqb Bool.eqb read32 write32 resolve mbind option_bind].
  fold lc g g1.
  cbn [sregs setS setScc scc].
  repeat case_decide; try done; try lia.
  unfold splitKRule.
  pose proof (Z.mod_pos_bound numIter globalSplitU ltac:(lia)) as Hr.
  pose proof (Z.div_pos numIter globalSplitU ltac:(lia) ltac:(lia)) as Hq.
  pose proof (Z.div_mod numIter globalSplitU ltac:(lia)) as Hdm.
  assert (numIter / globalSplitU <= numIter)%Z as Hqle.
  { apply Z.div_le_upper_bound; nia. }
  rewrite !(wrap32_small numIter) by lia.
  rewrite (wrap32_small (numIter / globalSplitU)) by lia.
  rewrite (wrap32_small (numIter mod globalSplitU)) by lia.
  rewrite (wrap32_small 1) by lia.
  destruct (gsuSumIdx <? numIter mod globalSplitU)%Z eqn:Hlt;
    cbn [mbind option_bind sregs setS setScc];
    repeat case_decide; try done; try lia.
  - apply Z.ltb_lt in Hlt.
    assert (0 <= 1 + numIter / globalSplitU < 2 ^ 32)%Z by nia.
    rewrite !wrap32_small by (rewrite ?wrap32_small; lia).
    f_equal; lia.
  - f_equal; lia.
Qed.


Lemma sumZ_app (l k : list Z) : sumZ (l ++ k) = (sumZ l + sumZ k)%Z.
Proof. unfold sumZ. induction l as [|x l IH]; cbn; [done|]. rewrite IH. lia. Qed.

Lemma sumZ_rule (q r : Z) (k : nat) :
  (0 <= r)%Z ->
  sumZ (map (fun p => q + (if Z.of_nat p <? r then 1 else 0))%Z (seq 0 k))
  = (Z.of_nat k * q + Z.min (Z.of_nat k) r)%Z.
Proof.
  intros Hr. induction k as [|k IH]; [cbn; lia|].
  rewrite seq_S, map_app, sumZ_app, IH. cbn [map sumZ foldr Nat.add].
  destruct (Z.of_nat k <? r)%Z eqn:E; [apply Z.ltb_lt in E|apply Z.ltb_ge in E]; lia.
Qed.

(** C5.  For a loop counter holding [totalIterations] and
    [GlobalSplitU >= 1] partitions, the code emitted by
    [calculateLoopNumIterGsu] leaves in the loop counter of partition [p]
    the count given by the rebalancing rule; over all partitions these
    counts sum to [totalIterations], differ pairwise by at most 1, and the
    larger count goes exactly to the partitions whose index is below
    [totalIterations mod GlobalSplitU]. *)
Theorem splitK_trip_counts (globalSplitU : Z) (destName : RegIdx) (tmpSgpr : nat)
    (m : Machine) (totalIterations : Z) :
  NoDup (gsuRegisters destName tmpSgpr) ->
  (0 <= totalIterations < 2 ^ 32)%Z ->
  (1 <= globalSplitU < 2 ^ 32)%Z ->
  exists counts : list Z,
    Forall2 (fun p c =>
               tripCount globalSplitU destName tmpSgpr m totalIterations (Z.of_nat p)
               = Some c)
            (seq 0 (Z.to_nat globalSplitU)) counts /\
    (forall p c, counts !! p = Some c ->
       c = splitKRule totalIterations globalSplitU (Z.of_nat p)) /\
    sumZ counts = totalIterations /\
    (forall p1 p2 c1 c2, counts !! p1 = Some c1 -> counts !! p2 = Some c2 ->
       (Z.abs (c1 - c2) <= 1)%Z) /\
    (forall p c, counts !! p = Some c ->
       ((Z.of_nat p < totalIterations mod globalSplitU)%Z ->
        c = (totalIterations / globalSplitU + 1)%Z) /\
       ((totalIterations mod globalSplitU <= Z.of_nat p)%Z ->
        c = (totalIterations / globalSplitU)%Z)).
Proof.
  intros Hnd Hn Hg.
  set (rule := fun p : nat => splitKRule totalIterations globalSplitU (Z.of_nat p)).
  exists (map rule (seq 0 (Z.to_nat globalSplitU))).
  pose proof (Z.mod_pos_bound totalIterations globalSplitU ltac:(lia)) as Hr.
  assert (Hlook : forall p c, map rule (seq 0 (Z.to_nat globalSplitU)) !! p = Some c ->
                    p < Z.to_nat globalSplitU /\ c = rule p).
  { intros p c H. rewrite list_lookup_fmap in H.
    destruct (seq 0 (Z.to_nat globalSplitU) !! p) as [p'|] eqn:E; [|done].
    apply lookup_seq in E as [-> ?]. cbn in H. injection H as <-. done. }
  split; [|split; [|split; [|split]]].
  - apply Forall2_fmap_r, Forall_Forall2_diag, Forall_forall.
    intros p Hp%elem_of_seq. apply tripCount_rule; try done. lia.
  - intros p c H. by apply Hlook in H as [_ ->].
  - unfold rule, splitKRule. rewrite sumZ_rule by lia.
    pose proof (Z.div_mod totalIterations globalSplitU ltac:(lia)). lia.
  - intros p1 p2 c1 c2 H1 H2. apply Hlook in H1 as [_ ->]. apply Hlook in H2 as [_ ->].
    unfold rule, splitKRule.
    destruct (Z.of_nat p1 <? _)%Z, (Z.of_nat p2 <? _)%Z; lia.
  - intros p c H. apply Hlook in H as [_ ->]. unfold rule, splitKRule. split; intros Hc.
    + apply Z.ltb_lt in Hc. by rewrite Hc.
    + apply Z.ltb_ge in Hc. rewrite Hc. lia.
Qed.

End AsmFacts.

(** ** The store epilogue *)

Section StoreFacts.
Import Asm Store.

Lemma addressingFlags_exclusive (kernel : Kernel) (edge atomic : bool) :
  let '(single, shared, _) := addressingFlags kernel edge atomic in
  single && shared = false /\
  (edge || atomic = true -> single = false /\ shared = false).
Proof.
  unfold addressingFlags.
  destruct (BufferStore kernel), edge, atomic,
    (1 <? length (PackedC0IndicesX kernel)),
    (1 <? length (PackedC1IndicesX kernel)),
    (UseInitialStridesCD kernel); cbn; split; (done || intros; done).
Qed.

(** C7.  Every [StoreState] that is constructed has at most one of
    [optSingleColVgpr] and [optSharedColVgpr] set; for an edge batch or with
    atomics both are clear, no shared address register is allocated
    ([numAddrVgpr = 0], [sharedColVgprs = None]), and the constructor
    succeeds without touching the register pool. *)
Theorem StoreState_addressing_exclusive (serializedStore : bool) (kernel : Kernel)
    (gwvw : nat) (edge beta atomic : bool) (elements : list (nat * nat * nat * nat))
    (rp : RegisterPool.t) :
  (forall ss,
     outcome (StoreState_init serializedStore kernel gwvw edge beta atomic elements rp)
       = Ok ss ->
     ~ (optSingleColVgpr ss = true /\ optSharedColVgpr ss = true) /\
     (edge = true \/ atomic = true ->
      optSingleColVgpr ss = false /\ optSharedColVgpr ss = false /\
      numAddrVgpr ss = 0 /\ sharedColVgprs ss = None)) /\
  (edge = true \/ atomic = true ->
   implb serializedStore (EnableMatrixInstruction kernel) = true ->
   exists ss,
     StoreState_init serializedStore kernel gwvw edge beta atomic elements rp
       = (Ok ss, rp, [])).
Proof.
  pose proof (addressingFlags_exclusive kernel edge atomic) as Hx.
  unfold StoreState_init.
  destruct (addressingFlags kernel edge atomic) as [[single shared] srdInc].
  destruct Hx as [Hex Hedge].
  assert (Hor : edge = true \/ atomic = true -> edge || atomic = true).
  { intros [-> | ->]; [done|apply orb_true_r]. }
  split.
  - intros ss H.
    apply bind_outcome_inv in H as (_ & s1 & o1 & _ & H).
    apply bind_outcome_inv in H as (_ & s2 & o2 & _ & H).
    destruct shared.
    + apply bind_outcome_inv in H as (v & s3 & o3 & _ & H). injection H as <-. cbn.
      split.
      * intros [-> _]. done.
      * intros He. by destruct Hedge as [_ ?]; [apply Hor|].
    + destruct single.
      * apply bind_outcome_inv in H as (v & s3 & o3 & _ & H). injection H as <-. cbn.
        split; [by intros [_ ?]|].
        intros He. by destruct Hedge as [? _]; [apply Hor|].
      * injection H as <-. cbn. split; [by intros [? _]|]. done.
  - intros He Hcfg.
    destruct Hedge as [-> ->]; [by apply Hor|].
    rewrite Hcfg. eexists. reflexivity.
Qed.

Lemma concatM_pure {S A} (xs : list A) (body : A -> M S (list Item))
    (f : A -> list Item) (s : S) :
  (forall x, x ∈ xs -> body x s = (Ok (f x), s, [])) ->
  concatM xs body s = (Ok (concat (map f xs)), s, []).
Proof.
  induction xs as [|x xs IH]; intros H; [reflexivity|].
  cbn [concatM map concat].
  rewrite (bind_ok_nil _ _ s s (f x)) by (apply H; set_solver).
  rewrite (bind_ok_nil _ _ s s (concat (map f xs))) by (apply IH; intros; apply H; set_solver).
  reflexivity.
Qed.

Lemma packStoreVi_bf16 {S} (kernel : Kernel)
    (gwvw sumIdx tmpS01 laneSGPRC vgprBf16Temp vi : nat) (s : S) :
  DestDataType kernel = BFloat16 ->
  exists code,
    packStoreVi kernel gwvw sumIdx tmpS01 laneSGPRC vgprBf16Temp vi s = (Ok code, s, []) /\
    narrowingShape vi code.
Proof.
  intros Hd. unfold packStoreVi, isHalf, isBFloat16. rewrite Hd.
  rewrite bool_decide_eq_false_2 by done. rewrite bool_decide_eq_true_2 by done.
  destruct (vi mod 2 =? 0) eqn:E0.
  - eexists. split; [reflexivity|]. unfold narrowingShape. rewrite E0.
    do 5 eexists. split; [reflexivity|]. cbn [opcode operands].
    repeat split; eauto.
  - assert ((vi mod 2 =? 1) = true) as E1.
    { apply Nat.eqb_neq in E0. apply Nat.eqb_eq.
      pose proof (Nat.mod_upper_bound vi 2). lia. }
    rewrite E1. eexists. split; [reflexivity|]. unfold narrowingShape. rewrite E0.
    do 5 eexists. split; [reflexivity|]. cbn [opcode operands].
    repeat split; eauto.
Qed.

(** C9.  For a bfloat16 destination with high-precision accumulation, the
    pack-stores block is the concatenation of one narrowing sequence per
    vector component (none under MultipleBuffer accumulation); each sequence
    has exactly one self-compare [v_cmp_u_f32], one [v_add3_u32] and one
    [v_cndmask_b32], in that order, followed by the final [v_lshrrev_b32]
    by 16 or the [v_and_or_b32] pack. *)
Theorem bf16_narrowing_sequences {S} (kernel : Kernel)
    (gwvw sumIdx tmpS01 laneSGPRC vgprBf16Temp : nat) (s : S) :
  DestDataType kernel = BFloat16 ->
  HighPrecisionAccumulate kernel = true ->
  exists sequences : list (list Item),
    packStores kernel gwvw sumIdx tmpS01 laneSGPRC vgprBf16Temp s
      = (Ok (concat sequences), s, []) /\
    length sequences
      = (if String.eqb (GlobalAccumulation kernel) "MultipleBuffer" then 0 else gwvw) /\
    forall vi code, sequences !! vi = Some code -> narrowingShape vi code.
Proof.
  intros Hd Hh. unfold packStores. rewrite Hh. cbn [andb].
  destruct (String.eqb (GlobalAccumulation kernel) "MultipleBuffer"); cbn [negb].
  - exists []. split; [reflexivity|]. split; [reflexivity|]. intros vi code H. done.
  - set (f := fun vi =>
        match outcome (packStoreVi (S:=S) kernel gwvw sumIdx tmpS01 laneSGPRC vgprBf16Temp vi s) with
        | Ok code => code
        | Raise _ => []
        end).
    exists (map f (seq 0 gwvw)). split; [|split].
    + apply concatM_pure. intros vi _.
      destruct (packStoreVi_bf16 kernel gwvw sumIdx tmpS01 laneSGPRC vgprBf16Temp vi s Hd)
        as (code & Heq & _).
      unfold f. by rewrite Heq.
    + by rewrite length_map, length_seq.
    + intros vi code H. rewrite list_lookup_fmap in H.
      destruct (seq 0 gwvw !! vi) as [vi'|] eqn:E; [|done].
      apply lookup_seq in E as [-> _]. cbn in H. injection H as <-.
      destruct (packStoreVi_bf16 kernel gwvw sumIdx tmpS01 laneSGPRC vgprBf16Temp vi s Hd)
        as (code & Heq & Hshape).
      unfold f. by rewrite Heq.
Qed.


End StoreFacts.

(** ** RegisterPool: add and remove *)

Section PoolOperations.
Import RegisterPool Examples.

Lemma withPool_pool (s : t) : withPool s (pool s) = s.
Proof. by destruct s. Qed.

(** A loop over the slots [i, i+m) whose body rewrites slot [i] by [g]. *)
Lemma slot_loop (g : Register -> Register) (body : nat -> M t unit) :
  (forall i s, i < length (pool s) ->
     exists o, body i s = (Ok tt, withPool s (alter g i (pool s)), o)) ->
  forall m i s, i + m <= length (pool s) ->
    exists p' o,
      forM_ (seq i m) body s = (Ok tt, withPool s p', o) /\
      length p' = length (pool s) /\
      forall j, p' !! j
                = if bool_decide (i <= j < i + m) then g <$> pool s !! j else pool s !! j.
Proof.
  intros Hbody m. induction m as [|m IH]; intros i s Hle.
  - exists (pool s), []. rewrite withPool_pool. split; [done|]. split; [done|].
    intros j. case_bool_decide; [lia|done].
  - destruct (Hbody i s ltac:(lia)) as [o1 H1].
    destruct (IH (S i) (withPool s (alter g i (pool s)))) as (p' & o2 & H2 & Hlen & Hp).
    { cbn. rewrite length_alter. lia. }
    exists p', (o1 ++ o2). cbn [seq forM_].
    rewrite (bind_ok _ _ _ _ _ _ H1), H2. cbn [outcome final logged fst snd].
    rewrite withPool_withPool. split; [done|].
    cbn in Hlen. rewrite length_alter in Hlen. split; [done|].
    intros j. rewrite Hp. cbn [pool withPool].
    rewrite list_lookup_alter. repeat case_decide; repeat case_bool_decide; try lia; by simplify_eq.
Qed.


Lemma alter_insert (g : Register -> Register) (i : nat) (p : list Register) (r : Register) :
  p !! i = Some r -> alter g i p = <[i := g r]> p.
Proof.
  intros Hr. apply list_eq. intros j. rewrite list_lookup_alter.
  case_decide as Hij.
  - subst j. rewrite Hr. cbn. symmetry. apply list_lookup_insert_eq.
    by eapply lookup_lt_Some.
  - by rewrite list_lookup_insert_ne.
Qed.

Lemma append_loop (st : Status) (tg : string) (l : list nat) (s : t) :
  forM_ l (fun _ => append st tg) s =
    (Ok tt, withPool s (pool s ++ replicate (length l) (mkRegister st tg)), []).
Proof.
  revert s. induction l as [|x l IH]; intros s.
  - cbn. by rewrite app_nil_r, withPool_pool.
  - cbn [forM_ length]. erewrite bind_ok_nil; [|reflexivity].
    rewrite IH, withPool_withPool. cbn [pool withPool].
    by rewrite <- app_assoc.
Qed.

Lemma add_run (s : t) (start sz : nat) (tg : string) :
  let grown := pool s ++ replicate (start + sz - length (pool s))
                                   (mkRegister Unavailable tg) in
  exists p' o,
    add start sz tg s = (Ok tt, withPool s p', o) /\
    length p' = length grown /\
    forall j, p' !! j =
      if bool_decide (start <= j < start + sz)
      then (fun r => match status r with
                     | Unavailable => mkRegister Available tg
                     | _ => r
                     end) <$> grown !! j
      else grown !! j.
Proof.
  intros grown.
  set (g := fun r => match status r with
                     | Unavailable => mkRegister Available tg
                     | _ => r
                     end).
  set (body := fun i =>
     bind (readSlot i) (fun r =>
       match status r with
       | Unavailable => bind (setStatus i Available) (fun _ => setTag i tg)
       | Available => printWarning (AddAlreadyAvailable start sz i (tag r))
       | InUse => printWarning (AddAlreadyInUse start sz i (tag r))
       end)).
  assert (Hbody : forall i s, i < length (pool s) ->
            exists o, body i s = (Ok tt, withPool s (alter g i (pool s)), o)).
  { intros i s0 Hi. destruct (lookup_lt_is_Some_2 _ _ Hi) as [r Hr].
    rewrite (alter_insert g i _ r Hr).
    unfold body, bind at 1, readSlot. rewrite Hr.
    unfold g. destruct r as [st tg0]. destruct st; cbn [status tag].
    - eexists. unfold bind, setStatus, setTag. rewrite Hr. cbn [pool withPool tag status].
      rewrite list_lookup_insert_eq by done. cbn [status].
      rewrite withPool_withPool, list_insert_insert_eq. reflexivity.
    - eexists. unfold printWarning, emit. cbn.
      rewrite list_insert_id by done. by rewrite withPool_pool.
    - eexists. unfold printWarning, emit. cbn.
      rewrite list_insert_id by done. by rewrite withPool_pool. }
  set (s1 := withPool s grown).
  destruct (slot_loop g body Hbody sz start s1) as (p' & o & Hloop & Hlen & Hp).
  { subst s1 grown. cbn. rewrite length_app, length_replicate. lia. }
  cut (exists o', add start sz tg s = (Ok tt, withPool s p', o')).
  { intros [o' Ho']. by exists p', o'. }
  unfold add. unfold bind at 1, get.
  assert (Hgrow : when (length (pool s) <? start + sz)
            (forM_ (seq 0 (start + sz - length (pool s)))
               (fun _ => append Unavailable tg)) s = (Ok tt, s1, [])).
  { subst s1 grown. destruct (length (pool s) <? start + sz) eqn:E; cbn [when].
    - by rewrite append_loop, length_seq.
    - apply Nat.ltb_ge in E. replace (start + sz - length (pool s)) with 0 by lia.
      cbn. by rewrite app_nil_r, withPool_pool. }
  assert (Htail : forall q, (s' <- get ;; when (printRP s') (print (RPState (state (pool s')))))%method
             (withPool s q)
           = (Ok tt, withPool s q, if printRP s then [Out (RPState (state q))] else [])).
  { intros q. unfold bind, get. cbn [printRP withPool pool].
    destruct (printRP s); reflexivity. }
  fold body.
  destruct (printRP s) eqn:Hprp; cbn [when]; eexists.
  - erewrite (bind_ok (print _)); [|reflexivity]. cbn [outcome final logged fst snd].
    rewrite (bind_ok _ _ _ _ _ _ Hgrow). cbn [outcome final logged fst snd].
    rewrite (bind_ok _ _ _ _ _ _ Hloop). cbn [outcome final logged fst snd].
    subst s1. rewrite withPool_withPool, Htail. cbn [outcome final logged fst snd]. reflexivity.
  - erewrite (bind_ok (ret _)); [|reflexivity]. cbn [outcome final logged fst snd].
    rewrite (bind_ok _ _ _ _ _ _ Hgrow). cbn [outcome final logged fst snd].
    rewrite (bind_ok _ _ _ _ _ _ Hloop). cbn [outcome final logged fst snd].
    subst s1. rewrite withPool_withPool, Htail. cbn [outcome final logged fst snd]. reflexivity.
Qed.


(** X1.  [add(start, size, tag)] always completes.  The pool then has
    [max(len, start+size)] slots; a slot of the range that was Unavailable
    (or did not exist) is Available under the new tag; every other slot,
    in the range or not, is as it was (slots created below [start] are
    Unavailable); the checkout sizes are not touched. *)
Theorem add_marks_range (s : t) (start sz : nat) (tg : string) :
  let r := add start sz tg s in
  outcome r = Ok tt /\
  length (pool (final r)) = max (length (pool s)) (start + sz) /\
  checkOutSize (final r) = checkOutSize s /\
  forall i, i < length (pool (final r)) ->
    pool (final r) !! i =
      Some (let old := default (mkRegister Unavailable tg) (pool s !! i) in
            if bool_decide (start <= i < start + sz)
               && bool_decide (status old = Unavailable)
            then mkRegister Available tg else old).
Proof.
  destruct (add_run s start sz tg) as (p' & o & Hrun & Hlen & Hp).
  cbv zeta. rewrite Hrun. cbn [outcome final fst snd pool checkOutSize withPool].
  rewrite length_app, length_replicate in Hlen.
  split; [done|]. split; [lia|]. split; [done|].
  intros i Hi. rewrite Hp.
  destruct (decide (i < length (pool s))) as [Hlt|Hge].
  - rewrite lookup_app_l by done.
    destruct (lookup_lt_is_Some_2 _ _ Hlt) as [r Hr]. rewrite Hr. cbn.
    case_bool_decide; cbn; [|done].
    destruct r as [[] tg0]; cbn; done.
  - rewrite lookup_app_r by lia. rewrite lookup_replicate_2 by lia.
    rewrite (lookup_ge_None_2 (pool s) i) by lia. cbn.
    case_bool_decide; done.
Qed.

Lemma remove_run (s : t) (start sz : nat) (tg : string) :
  start + sz <= length (pool s) ->
  exists p' o,
    remove start sz tg s = (Ok tt, withPool s p', o) /\
    length p' = length (pool s) /\
    forall j, p' !! j =
      if bool_decide (start <= j < start + sz)
      then (fun r => match status r with
                     | Available => mkRegister Unavailable (tag r)
                     | _ => r
                     end) <$> pool s !! j
      else pool s !! j.
Proof.
  intros Hle.
  set (g := fun r => match status r with
                     | Available => mkRegister Unavailable (tag r)
                     | _ => r
                     end).
  destruct (slot_loop g (removeSlot start sz)) with (m := sz) (i := start) (s := s)
    as (p' & o & Hloop & Hlen & Hp); [|done|].
  { intros i s0 Hi. destruct (lookup_lt_is_Some_2 _ _ Hi) as [r Hr].
    rewrite (alter_insert g i _ r Hr).
    unfold removeSlot, bind at 1, readSlot. rewrite Hr.
    unfold g. destruct r as [st tg0]. destruct st; cbn [status tag].
    - eexists. unfold printWarning, emit. cbn.
      rewrite list_insert_id by done. by rewrite withPool_pool.
    - eexists. unfold setStatus. rewrite Hr. reflexivity.
    - eexists. unfold printWarning, emit. cbn.
      rewrite list_insert_id by done. by rewrite withPool_pool. }
  exists p'. eexists. split; [|by split].
  rewrite remove_eq. cbv zeta. rewrite Hloop. reflexivity.
Qed.

(** X2.  [remove(start, size, tag)] of a range inside the pool completes:
    its Available slots become Unavailable and keep their tag, while a slot
    that is InUse (checked out) or already Unavailable is left as it is;
    nothing outside the range, and no checkout size, changes. *)
Theorem remove_in_range (s : t) (start sz : nat) (tg : string) :
  start + sz <= length (pool s) ->
  let r := remove start sz tg s in
  outcome r = Ok tt /\
  length (pool (final r)) = length (pool s) /\
  checkOutSize (final r) = checkOutSize s /\
  forall i x, pool s !! i = Some x ->
    pool (final r) !! i =
      Some (if bool_decide (start <= i < start + sz)
               && bool_decide (status x = Available)
            then mkRegister Unavailable (tag x) else x).
Proof.
  intros Hle. destruct (remove_run s start sz tg Hle) as (p' & o & Hrun & Hlen & Hp).
  cbv zeta. rewrite Hrun. cbn [outcome final fst snd pool checkOutSize withPool].
  split; [done|]. split; [done|]. split; [done|].
  intros i x Hx. rewrite Hp, Hx. cbn.
  case_bool_decide; cbn; [|done]. destruct x as [[] tg0]; cbn; done.
Qed.

(** X3.  Adding a range and removing it again restores every status,
    provided no slot of the range was Available before: the slots that
    existed have the status they had, and the slots the [add] created are
    Unavailable. *)
Theorem add_then_remove (s : t) (start sz : nat) (tg tg' : string) :
  (forall i, start <= i < start + sz -> ~ availableAt (pool s) i) ->
  let r := bind (add start sz tg) (fun _ => remove start sz tg') s in
  outcome r = Ok tt /\
  length (pool (final r)) = max (length (pool s)) (start + sz) /\
  forall i, i < length (pool (final r)) ->
    status <$> pool (final r) !! i
    = Some (default Unavailable (status <$> pool s !! i)).
Proof.
  intros Hna. cbv zeta.
  destruct (add_run s start sz tg) as (p1 & o1 & Hadd & Hlen1 & Hp1).
  rewrite length_app, length_replicate in Hlen1.
  rewrite (bind_ok _ _ _ _ _ _ Hadd). cbn [outcome final logged fst snd].
  destruct (remove_run (withPool s p1) start sz tg') as (p2 & o2 & Hrem & Hlen2 & Hp2).
  { cbn [pool withPool]. lia. }
  rewrite Hrem. cbn [outcome final pool withPool fst snd] in *.
  split; [done|]. split; [lia|].
  intros i Hi. rewrite Hp2, Hp1.
  destruct (decide (i < length (pool s))) as [Hlt|Hge].
  - rewrite lookup_app_l by done.
    destruct (lookup_lt_is_Some_2 _ _ Hlt) as [[st tg0] Hx]. rewrite Hx.
    case_bool_decide as Hin; cbn; [|done].
    destruct st; cbn; [done| |done].
    exfalso. apply (Hna i Hin). by exists (mkRegister Available tg0).
  - rewrite lookup_app_r by lia. rewrite lookup_replicate_2 by lia.
    rewrite (lookup_ge_None_2 (pool s) i) by lia.
    case_bool_decide; done.
Qed.

End PoolOperations.

(** ** RegisterPool: checkIn and the first-fit scan *)

Section PoolCheckOut.
Import RegisterPool Examples.

Lemma checkIn_run (s : t) (start sz : nat) :
  checkOutSize s !! start = Some sz ->
  start + sz <= length (pool s) ->
  printRP s = false \/ 0 < sz ->
  exists p' o,
    checkIn start s
      = (Ok tt, mkPool (printRP s) (type s) (defaultPreventOverflow s) p'
                       (delete start (checkOutSize s)), o) /\
    length p' = length (pool s) /\
    forall j, p' !! j =
      if bool_decide (start <= j < start + sz)
      then (fun r => mkRegister Available (tag r)) <$> pool s !! j
      else pool s !! j.
Proof.
  intros Hrec Hle Hpr.
  set (g := fun r => mkRegister Available (tag r)).
  destruct (slot_loop g (fun i => setStatus i Available)) with (m := sz) (i := start) (s := s)
    as (p' & o & Hloop & Hlen & Hp); [|done|].
  { intros i s0 Hi. destruct (lookup_lt_is_Some_2 _ _ Hi) as [r Hr].
    rewrite (alter_insert g i _ r Hr). exists []. unfold setStatus. by rewrite Hr. }
  exists p'.
  cut (exists o', checkIn start s
      = (Ok tt, mkPool (printRP s) (type s) (defaultPreventOverflow s) p'
                       (delete start (checkOutSize s)), o')).
  { intros [o' Ho']. by exists o'. }
  unfold checkIn. unfold bind at 1, get. rewrite Hrec.
  rewrite (bind_ok _ _ _ _ _ _ Hloop). cbn [outcome final logged fst snd].
  unfold popCheckOut, withCheckOutSize, withPool.
  cbn [printRP type defaultPreventOverflow pool checkOutSize].
  destruct (printRP s) eqn:Hprp.
  - destruct sz as [|k]; [destruct Hpr; [done|lia]|].
    assert (is_Some (p' !! (start + k))) as [r Hr].
    { apply lookup_lt_is_Some_2. lia. }
    eexists. erewrite bind_ok_nil; [|reflexivity].
    erewrite bind_ok_nil; [|reflexivity].
    cbn [printRP type defaultPreventOverflow pool checkOutSize when].
    erewrite bind_ok_nil; [|unfold readSlot; cbn [pool]; rewrite Hr; reflexivity].
    unfold print, emit. cbn [outcome final logged fst snd]. reflexivity.
  - eexists. erewrite bind_ok_nil; [|reflexivity].
    erewrite bind_ok_nil; [|reflexivity].
    cbn [printRP type defaultPreventOverflow pool checkOutSize when]. unfold ret.
    cbn [outcome final logged fst snd]. reflexivity.
Qed.

(** X4.  [checkIn(start)] of a recorded checkout whose range lies inside
    the pool completes: the slots of the range become Available and keep
    their tag, every other slot is unchanged, and the record for [start]
    is removed from the checkout sizes (the other records stay). *)
Theorem checkIn_releases_range (s : t) (start sz : nat) :
  checkOutSize s !! start = Some sz ->
  start + sz <= length (pool s) ->
  printRP s = false \/ 0 < sz ->
  let r := checkIn start s in
  outcome r = Ok tt /\
  checkOutSize (final r) = delete start (checkOutSize s) /\
  length (pool (final r)) = length (pool s) /\
  forall i x, pool s !! i = Some x ->
    pool (final r) !! i =
      Some (if bool_decide (start <= i < start + sz)
            then mkRegister Available (tag x) else x).
Proof.
  intros Hrec Hle Hpr.
  destruct (checkIn_run s start sz Hrec Hle Hpr) as (p' & o & Hrun & Hlen & Hp).
  cbv zeta. rewrite Hrun. cbn [outcome final fst snd pool checkOutSize].
  split; [done|]. split; [done|]. split; [done|].
  intros i x Hx. rewrite Hp, Hx. by case_bool_decide.
Qed.

(** The scan is a first-fit search: no candidate before the one it
    returns fits. *)
Lemma scan_first (p : list Register) (sz al : nat) (cands : list nat)
    (found : nat) :
  al <> 0 ->
  scan p sz al cands = Ok (Some found) ->
  exists before after,
    cands = before ++ found :: after /\
    forall j, j ∈ before -> ~ fits p sz al j.
Proof.
  intros Hal. induction cands as [|c cands IH]; [done|].
  intros Hscan.
  pose proof (scan_spec p sz al [c] Hal) as Hc.
  cbn [scan] in Hscan, Hc.
  destruct (al =? 0) eqn:E0; [done|].
  destruct (negb (c mod al =? 0)) eqn:Emod.
  { destruct (IH Hscan) as (before & after & -> & Hb).
    exists (c :: before), after. split; [done|].
    intros j [->|Hj]%elem_of_cons; [|by apply Hb]. apply Hc. left. }
  destruct (length p <? c + sz) eqn:Elen.
  { destruct (IH Hscan) as (before & after & -> & Hb).
    exists (c :: before), after. split; [done|].
    intros j [->|Hj]%elem_of_cons; [|by apply Hb]. apply Hc. left. }
  destruct (allAvailable p c (seq 0 sz)) as [[|]|] eqn:Eall; [| |done].
  - injection Hscan as ->. exists [], cands. split; [done|]. intros j Hj. inversion Hj.
  - destruct (IH Hscan) as (before & after & -> & Hb).
    exists (c :: before), after. split; [done|].
    intros j [->|Hj]%elem_of_cons; [|by apply Hb]. apply Hc. left.
Qed.

Lemma fit_scan_Some (p : list Register) (sz al : nat) (i : nat) :
  1 <= al -> 0 < sz -> fits p sz al i ->
  exists found,
    scan p sz al (seq 0 (length p)) = Ok (Some found) /\
    fits p sz al found /\ forall j, j < found -> ~ fits p sz al j.
Proof.
  intros Hal Hsz Hfit.
  pose proof (scan_spec p sz al (seq 0 (length p)) ltac:(lia)) as Hsp.
  destruct (scan p sz al (seq 0 (length p))) as [[found|]|] eqn:Hscan; [| |done].
  - exists found. split; [done|]. destruct Hsp as [_ Hf]. split; [done|].
    destruct (scan_first p sz al _ found ltac:(lia) Hscan) as (before & after & Heq & Hb).
    intros j Hj. apply Hb.
    assert (Hl : seq 0 (length p) !! j = Some j).
    { apply lookup_seq. destruct Hf as (_ & Hle & _). lia. }
    assert (Hfnd : (before ++ found :: after) !! found = Some found).
    { rewrite <- Heq. apply lookup_seq. destruct Hf as (_ & Hle & _). lia. }
    assert (Hlb : length before = found).
    { assert (Hb2 : (before ++ found :: after) !! length before = Some found).
      { by rewrite list_lookup_middle. }
      rewrite <- Heq in Hb2. apply lookup_seq in Hb2. lia. }
    rewrite Heq in Hl. rewrite lookup_app_l in Hl by lia.
    by eapply list_elem_of_lookup_2.
  - exfalso. apply (Hsp i); [|done].
    apply elem_of_seq. destruct Hfit as (_ & Hle & _). lia.
Qed.

End PoolCheckOut.

(** ** RegisterPool: checkOut followed by checkIn *)

Section PoolRoundTrip.
Import RegisterPool Examples.

(** X5.  When a run fits, [checkOutAligned] is a first-fit allocation: it
    returns the lowest index at which an aligned run of [size] Available
    slots lies inside the pool, marks exactly that run InUse under the
    new tag, records its size, and neither grows the pool nor touches
    another slot. *)
Theorem checkOutAligned_first_fit (s : t) (sz al : nat) (tg : string)
    (po : option bool) (i : nat) :
  0 < sz -> 1 <= al -> fits (pool s) sz al i ->
  exists found,
    outcome (checkOutAligned sz al tg po s) = Ok found /\
    fits (pool s) sz al found /\
    (forall j, j < found -> ~ fits (pool s) sz al j) /\
    pool (final (checkOutAligned sz al tg po s))
      = take found (pool s) ++ replicate sz (mkRegister InUse tg)
        ++ drop (found + sz) (pool s) /\
    checkOutSize (final (checkOutAligned sz al tg po s))
      = <[found := sz]> (checkOutSize s).
Proof.
  intros Hsz Hal Hfit.
  destruct (fit_scan_Some (pool s) sz al i Hal Hsz Hfit) as (found & Hscan & Hf & Hmin).
  exists found.
  rewrite (checkOutAligned_fit_eq s sz al tg po found Hsz Hscan)
    by (destruct Hf as (_ & Hle & _); lia).
  cbn [outcome final fst snd pool checkOutSize]. done.
Qed.

(** The state a successful [checkOutAligned] leaves, on either path. *)
Lemma checkOutAligned_ok_shape (s : t) (sz al : nat) (tg : string) (po : option bool)
    (start : nat) :
  0 < sz -> 1 <= al ->
  outcome (checkOutAligned sz al tg po s) = Ok start ->
  exists p' o,
    checkOutAligned sz al tg po s
      = (Ok start, mkPool (printRP s) (type s) (defaultPreventOverflow s) p'
                          (<[start := sz]> (checkOutSize s)), o) /\
    length p' = max (length (pool s)) (start + sz) /\
    (forall j, start <= j < start + sz -> p' !! j = Some (mkRegister InUse tg)) /\
    (forall j x, pool s !! j = Some x -> ~ start <= j < start + sz ->
       status <$> p' !! j = Some (status x)) /\
    (forall j x, pool s !! j = Some x -> start <= j < start + sz ->
       status x = Available) /\
    (forall j, length (pool s) <= j < start -> p' !! j = Some (mkRegister Available tg)).
Proof.
  intros Hsz Hal Hret.
  pose proof (scan_spec (pool s) sz al (seq 0 (length (pool s))) ltac:(lia)) as Hsp.
  destruct (scan (pool s) sz al (seq 0 (length (pool s)))) as [[found|]|] eqn:Hscan;
    [| |done].
  - destruct Hsp as (_ & Hmod & Hle & Hav).
    rewrite (checkOutAligned_fit_eq s sz al tg po found Hsz Hscan Hle) in Hret |- *.
    injection Hret as <-. eexists _, _. split; [reflexivity|].
    assert (Hlt : length (take found (pool s)) = found) by (rewrite length_take; lia).
    rewrite !length_app, Hlt, length_replicate, length_drop.
    split; [lia|]. split; [|split; [|split]].
    + intros j Hj. rewrite lookup_app_r by lia. rewrite Hlt.
      rewrite lookup_app_l by (rewrite length_replicate; lia).
      apply lookup_replicate_2. lia.
    + intros j x Hx Hout. destruct (decide (j < found)) as [Hl|Hg].
      * rewrite lookup_app_l by lia. rewrite lookup_take_lt by done. by rewrite Hx.
      * rewrite lookup_app_r by lia. rewrite Hlt.
        rewrite lookup_app_r by (rewrite length_replicate; lia).
        rewrite length_replicate, lookup_drop.
        replace (found + sz + (j - found - sz)) with j by lia. by rewrite Hx.
    + intros j x Hx Hin. destruct (Hav (j - found) ltac:(lia)) as (r & Hr & Hst).
      replace (found + (j - found)) with j in Hr by lia. by simplify_eq.
    + intros j Hj. lia.
  - destruct (match po with None => defaultPreventOverflow s | Some b => b end) eqn:Hpo.
    { by rewrite (checkOutAligned_prevented s sz al tg po Hsz Hscan Hpo) in Hret. }
    destruct (checkOutAligned_overflow_eq s sz al tg po Hsz Hal Hscan Hpo)
      as (t0 & Ht0 & Hav & _ & Hgrow & Heq).
    cbv zeta in Heq. rewrite Heq in Hret |- *. injection Hret as <-.
    destruct (roundUp_spec t0 al Hal) as (_ & Hlo & _).
    set (start := roundUpToNearestMultiple t0 al) in *.
    eexists _, _. split; [reflexivity|].
    assert (Hlt : length (take t0 (pool s)) = t0) by (rewrite length_take; lia).
    rewrite !length_app, Hlt, !length_replicate.
    split; [lia|]. split; [|split; [|split]].
    + intros j Hj. rewrite lookup_app_r by lia. rewrite Hlt.
      rewrite lookup_app_r by (rewrite length_replicate; lia).
      rewrite length_replicate. apply lookup_replicate_2. lia.
    + intros j x Hx Hout. assert (j < length (pool s)) by (by eapply lookup_lt_Some).
      destruct (decide (j < t0)) as [Hl|Hg].
      * rewrite lookup_app_l by lia. rewrite lookup_take_lt by done. by rewrite Hx.
      * destruct (Hav j ltac:(lia)) as (r & Hr & Hst). simplify_eq.
        rewrite lookup_app_r by lia. rewrite Hlt.
        rewrite lookup_app_l by (rewrite length_replicate; lia).
        rewrite lookup_replicate_2 by lia. cbn. by rewrite Hst.
    + intros j x Hx Hin. assert (j < length (pool s)) by (by eapply lookup_lt_Some).
      destruct (Hav j ltac:(lia)) as (r & Hr & Hst). by simplify_eq.
    + intros j Hj. rewrite lookup_app_r by lia. rewrite Hlt.
      rewrite lookup_app_l by (rewrite length_replicate; lia).
      apply lookup_replicate_2. lia.
Qed.

(** A successful checkout followed by the check-in of what it returned. *)
Lemma checkOut_checkIn_states (s : t) (sz al : nat) (tg : string) (po : option bool)
    (start : nat) :
  0 < sz -> 1 <= al ->
  outcome (checkOutAligned sz al tg po s) = Ok start ->
  exists s1 o1 s2 o2,
    checkOutAligned sz al tg po s = (Ok start, s1, o1) /\
    checkIn start s1 = (Ok tt, s2, o2) /\
    length (pool s) <= length (pool s2) /\
    (forall j x, pool s !! j = Some x -> status <$> pool s2 !! j = Some (status x)) /\
    (forall j, length (pool s) <= j < length (pool s2) ->
       status <$> pool s2 !! j = Some Available) /\
    checkOutSize s2 = delete start (checkOutSize s).
Proof.
  intros Hsz Hal Hret.
  destruct (checkOutAligned_ok_shape s sz al tg po start Hsz Hal Hret)
    as (p' & o & Hco & Hlen & Hin & Hout & Hwas & Hpad).
  set (s1 := mkPool (printRP s) (type s) (defaultPreventOverflow s) p'
                    (<[start := sz]> (checkOutSize s))) in *.
  destruct (checkIn_run s1 start sz) as (q & o2 & Hci & Hlq & Hq).
  { subst s1. cbn. apply lookup_insert_eq. }
  { subst s1. cbn. lia. }
  { by right. }
  eexists s1, o, _, o2. split; [done|]. split; [exact Hci|].
  subst s1. cbn [pool checkOutSize] in *.
  split; [lia|]. split; [|split].
  - intros j x Hx. rewrite Hq.
    case_bool_decide as Hj.
    + rewrite (Hin j Hj). cbn. by rewrite (Hwas j x Hx Hj).
    + by apply Hout.
  - intros j Hj. rewrite Hq. case_bool_decide as Hj2.
    + by rewrite (Hin j Hj2).
    + rewrite Hpad; [done|lia].
  - by rewrite delete_insert_eq.
Qed.

(** X6.  Checking a range out and checking it in again gives the
    registers back.  If [checkOutAligned] returns [start], then
    [checkIn(start)] completes; afterwards every slot that existed has the
    status it had before the checkout, every slot the checkout appended is
    Available, and the checkout sizes are those from before without an
    entry for [start].  The pool keeps the length it grew to. *)
Theorem checkOut_then_checkIn (s : t) (sz al : nat) (tg : string) (po : option bool)
    (start : nat) :
  0 < sz -> 1 <= al ->
  outcome (checkOutAligned sz al tg po s) = Ok start ->
  let r := bind (checkOutAligned sz al tg po) checkIn s in
  outcome r = Ok tt /\
  length (pool s) <= length (pool (final r)) /\
  (forall j x, pool s !! j = Some x ->
     status <$> pool (final r) !! j = Some (status x)) /\
  (forall j, length (pool s) <= j < length (pool (final r)) ->
     status <$> pool (final r) !! j = Some Available) /\
  checkOutSize (final r) = delete start (checkOutSize s).
Proof.
  intros Hsz Hal Hret.
  destruct (checkOut_checkIn_states s sz al tg po start Hsz Hal Hret)
    as (s1 & o1 & s2 & o2 & Hco & Hci & Hrest).
  cbv zeta. rewrite (bind_ok _ _ _ _ _ _ Hco), Hci. cbn [outcome final logged fst snd].
  by split.
Qed.

Lemma available_app (p q : list Register) :
  available (p ++ q) = available p + available q.
Proof. unfold available. by rewrite filter_app, length_app. Qed.

Lemma available_replicate (n : nat) (st : Status) (tg : string) :
  available (replicate n (mkRegister st tg)) = if decide (st = Available) then n else 0.
Proof.
  unfold available. induction n as [|n IH]; cbn [replicate].
  - by case_decide.
  - rewrite filter_cons. cbn [status]. case_decide; cbn [length]; by rewrite IH.
Qed.

Lemma available_all (p : list Register) :
  (forall j, j < length p -> availableAt p j) -> available p = length p.
Proof.
  unfold available. induction p as [|x p IH]; intros H; [done|].
  rewrite filter_cons. destruct (H 0) as (r & Hr & Hst); [cbn; lia|].
  cbn in Hr. injection Hr as <-. rewrite decide_True by done. cbn [length].
  rewrite IH; [done|]. intros j Hj. destruct (H (S j)) as (r & Hr & Hst'); [cbn; lia|].
  by exists r.
Qed.

(** X7.  A checkout served from the pool (without growing it) lowers
    [available()] by exactly the number of registers handed out, and
    [size()] stays the same. *)
Theorem checkOutAligned_available (s : t) (sz al : nat) (tg : string)
    (po : option bool) (i : nat) :
  0 < sz -> 1 <= al -> fits (pool s) sz al i ->
  let s' := final (checkOutAligned sz al tg po s) in
  available (pool s') + sz = available (pool s) /\ size s' = size s.
Proof.
  intros Hsz Hal Hfit.
  destruct (fit_scan_Some (pool s) sz al i Hal Hsz Hfit) as (found & Hscan & Hf & _).
  destruct Hf as (_ & Hle & Hav).
  cbv zeta. rewrite (checkOutAligned_fit_eq s sz al tg po found Hsz Hscan Hle).
  cbn [final fst snd pool]. unfold size. cbn [pool].
  assert (Hdec : available (pool s)
                 = available (take found (pool s))
                   + (sz + available (drop (found + sz) (pool s)))).
  { rewrite <- (take_drop found (pool s)) at 1.
    rewrite <- (take_drop sz (drop found (pool s))) at 1.
    rewrite drop_drop, !available_app.
    rewrite (available_all (take sz (drop found (pool s)))).
    - rewrite length_take, length_drop. lia.
    - intros j Hj. rewrite length_take, length_drop in Hj.
      destruct (Hav j ltac:(lia)) as (r & Hr & Hst). exists r. split; [|done].
      rewrite lookup_take_lt by lia. by rewrite lookup_drop. }
  rewrite Hdec, !available_app, !length_app, available_replicate, length_replicate.
  rewrite decide_False by done. rewrite length_take, length_drop. lia.
Qed.

End PoolRoundTrip.

(** ** RegisterPool: the counting queries and the overflow path *)

Section PoolCounts.
Import RegisterPool Examples.

Lemma availableBlockAtEnd_snoc (p : list Register) (x : Register) :
  availableBlockAtEnd (p ++ [x])
  = if decide (status x = Available) then S (availableBlockAtEnd p) else 0.
Proof. unfold availableBlockAtEnd. by rewrite rev_unit. Qed.

Lemma available_snoc (p : list Register) (x : Register) :
  available (p ++ [x])
  = available p + if decide (status x = Available) then 1 else 0.
Proof.
  rewrite available_app. f_equal. unfold available. rewrite filter_cons.
  by case_decide.
Qed.

Lemma availableBlockAtEnd_run (p : list Register) :
  let n := availableBlockAtEnd p in
  n <= length p /\
  (forall i, length p - n <= i < length p -> availableAt p i) /\
  (n < length p -> ~ availableAt p (length p - n - 1)).
Proof.
  cbv zeta. induction p as [|x p IH] using rev_ind.
  - cbn. split; [lia|]. split; intros; lia.
  - rewrite availableBlockAtEnd_snoc, length_app. cbn [length].
    destruct IH as (Hle & Hall & Hstop).
    case_decide as Hx.
    + split; [lia|]. split.
      * intros i Hi. destruct (decide (i = length p)) as [->|Hne].
        -- exists x. split; [|done]. by rewrite list_lookup_middle.
        -- destruct (Hall i ltac:(lia)) as (r & Hr & Hst). exists r. split; [|done].
           rewrite lookup_app_l; [done|]. by eapply lookup_lt_Some.
      * intros Hlt (r & Hr & Hst). apply Hstop; [lia|].
        exists r. split; [|done].
        rewrite lookup_app_l in Hr by lia.
        by replace (length p - availableBlockAtEnd p - 1)
          with (length p + 1 - S (availableBlockAtEnd p) - 1) by lia.
    + split; [lia|]. split; [intros; lia|].
      intros _ (r & Hr & Hst). apply Hx.
      replace (length p + 1 - 0 - 1) with (length p) in Hr by lia.
      rewrite list_lookup_middle in Hr by done. by simplify_eq.
Qed.

Lemma availableBlockAtEnd_le_available (p : list Register) :
  availableBlockAtEnd p <= available p.
Proof.
  induction p as [|x p IH] using rev_ind; [done|].
  rewrite availableBlockAtEnd_snoc, available_snoc. case_decide; lia.
Qed.

(** X8.  [availableBlockAtEnd()] is the length of the Available run that
    ends the pool: the last that many slots are Available, the slot before
    them (if there is one) is not, and the count never exceeds
    [available()]. *)
Theorem availableBlockAtEnd_tail (p : list Register) :
  let n := availableBlockAtEnd p in
  n <= length p /\
  n <= available p /\
  (forall i, length p - n <= i < length p -> availableAt p i) /\
  (n < length p -> ~ availableAt p (length p - n - 1)).
Proof.
  cbv zeta. destruct (availableBlockAtEnd_run p) as (H1 & H2 & H3).
  split; [done|]. split; [apply availableBlockAtEnd_le_available|]. by split.
Qed.

Lemma availableBlock_fold (bs : nat) (p : list Register) (b c : nat) :
  0 < bs ->
  let '(b', c') :=
    foldl (fun '(blocksAvail, consecAvailable) s =>
             if decide (status s = Available)
             then (blocksAvail, consecAvailable + 1)
             else (blocksAvail + consecAvailable / bs, 0))
          (b, c) p in
  b' * bs + c' <= b * bs + c + available p /\
  (bs = 1 -> b' + c' = b + c + available p).
Proof.
  intros Hbs. revert b c. induction p as [|x p IH]; intros b c.
  - cbn. split; lia.
  - cbn [foldl]. unfold available. rewrite filter_cons.
    case_decide as Hx.
    + specialize (IH b (c + 1)). destruct (foldl _ _ p) as [b' c'].
      cbn [length]. fold (available p). split; [lia|]. intros ->. lia.
    + specialize (IH (b + c / bs) 0). destruct (foldl _ _ p) as [b' c'].
      fold (available p). destruct IH as [IH1 IH2].
      pose proof (Nat.Div0.mul_div_le c bs). split; [nia|].
      intros ->. rewrite Nat.div_1_r in IH2. lia.
Qed.

(** X9.  [availableBlock(blockSize)] counts whole blocks only: its result
    is a multiple of the block size (a block size of 0 is read as 1), it
    never exceeds [available()], and for block sizes 0 and 1 it equals
    [available()]. *)
Theorem availableBlock_whole_blocks (p : list Register) (blockSize : nat) :
  ((if blockSize =? 0 then 1 else blockSize) | availableBlock p blockSize) /\
  availableBlock p blockSize <= available p /\
  (blockSize <= 1 -> availableBlock p blockSize = available p).
Proof.
  unfold availableBlock.
  set (bs := if blockSize =? 0 then 1 else blockSize).
  assert (Hbs : 0 < bs) by (subst bs; destruct (Nat.eqb_spec blockSize 0); lia).
  pose proof (availableBlock_fold bs p 0 0 Hbs) as H.
  destruct (foldl _ _ p) as [b c]. destruct H as [H1 H2].
  split; [by exists (b + c / bs)|].
  pose proof (Nat.Div0.mul_div_le c bs). split; [nia|].
  intros Hle. assert (bs = 1) as Hone.
  { subst bs. destruct (Nat.eqb_spec blockSize 0); lia. }
  specialize (H2 Hone). rewrite Hone, Nat.div_1_r. lia.
Qed.

Lemma tailScan_start (tg : string) (s : t) :
  exists t0 s1,
    tailScan tg (rev (seq 1 (length (pool s) - 1))) (length (pool s)) s = (Ok t0, s1, []) /\
    length (pool s1) = length (pool s) /\
    t0 <= length (pool s) /\
    (0 < length (pool s) -> 1 <= t0) /\
    (forall i, t0 <= i < length (pool s) -> availableAt (pool s) i) /\
    (t0 <= 1 \/ ~ availableAt (pool s) (t0 - 1)).
Proof.
  destruct (length (pool s)) as [|k] eqn:Hn.
  - exists 0, s. cbn. repeat split; try lia; try (intros; lia).
  - destruct (tailScan_spec tg k s) as (t0 & Ht0 & Heq & Hav & Hmax); [lia|].
    eexists t0, _. split.
    { replace (Datatypes.S k - 1) with k by lia.
      replace (Datatypes.S k) with (k + 1) by lia. exact Heq. }
    cbn [pool withPool].
    rewrite !length_app, length_take, length_replicate, length_drop.
    split; [lia|]. split; [lia|]. split; [lia|].
    split; [intros i Hi; apply Hav; lia|].
    destruct Hmax as [->|H]; [left; lia|by right].
Qed.

Lemma checkOutAligned_overflow_outcome (s : t) (sz al : nat) (tg : string)
    (po : option bool) (t0 : nat) (s1 : t) :
  0 < sz ->
  scan (pool s) sz al (seq 0 (length (pool s))) = Ok None ->
  match po with None => defaultPreventOverflow s | Some b => b end = false ->
  tailScan tg (rev (seq 1 (length (pool s) - 1))) (length (pool s)) s = (Ok t0, s1, []) ->
  length (pool s1) = length (pool s) ->
  outcome (checkOutAligned sz al tg po s) = Ok (roundUpToNearestMultiple t0 al).
Proof.
  intros Hsz Hscan Hpo Htail Hlen.
  unfold checkOutAligned.
  rewrite (bind_ok_nil get _ s s s eq_refl). rewrite Hpo.
  assert (Hz : (0 <? sz) = true) by (apply Nat.ltb_lt; lia). rewrite Hz.
  rewrite (bind_ok_nil (assert true) _ s s tt eq_refl).
  erewrite (bind_ok_nil (liftOutcome _)) by (unfold liftOutcome; rewrite Hscan; reflexivity).
  cbn [negb]. rewrite (bind_ok_nil (assert true) _ s s tt eq_refl).
  erewrite (bind_ok_nil (tailScan _ _ _)) by apply Htail.
  set (start := roundUpToNearestMultiple t0 al).
  assert (Hmark : exists s2, forM_ (seq start (length (pool s) - start)) (markInUse tg) s1
                             = (Ok tt, s2, [])).
  { destruct (decide (start <= length (pool s))) as [Hle|Hgt].
    - eexists. apply markInUse_loop. lia.
    - replace (length (pool s) - start) with 0 by lia. by exists s1. }
  destruct Hmark as [s2 Hmark].
  rewrite (bind_ok_nil _ _ _ _ _ Hmark).
  erewrite (bind_ok_nil (forM_ _ _)) by apply growSlot_loop.
  unfold bind, recordCheckOut, get, when, print, emit, ret, withCheckOutSize, withPool.
  cbn. destruct (printRP s2); reflexivity.
Qed.

(** X10.  On the overflow path the returned start is where the Available
    run at the end of the pool begins, as [availableBlockAtEnd()] measures
    it, rounded up to the alignment - except that the scan for that run
    never looks at slot 0: when the whole (non-empty) pool is Available,
    the run is taken to begin at slot 1. *)
Theorem checkOutAligned_overflow_start (s : t) (sz al : nat) (tg : string)
    (po : option bool) :
  0 < sz -> 1 <= al ->
  (forall i, ~ fits (pool s) sz al i) ->
  match po with None => defaultPreventOverflow s | Some b => b end = false ->
  let n := length (pool s) in
  let tail := availableBlockAtEnd (pool s) in
  outcome (checkOutAligned sz al tg po s)
  = Ok (roundUpToNearestMultiple
          (if decide (0 < n /\ tail = n) then 1 else n - tail) al).
Proof.
  intros Hsz Hal Hno Hpo. cbv zeta.
  pose proof (no_fit_scan_None (pool s) sz al Hal Hno) as Hscan.
  destruct (tailScan_start tg s) as (t0 & s1 & Htail & Hlen & Hle & Hpos & Hav & Hstop).
  rewrite (checkOutAligned_overflow_outcome s sz al tg po t0 s1 Hsz Hscan Hpo Htail Hlen).
  f_equal. f_equal.
  destruct (availableBlockAtEnd_run (pool s)) as (Hn & Hall & Hend).
  cbv zeta in *.
  set (n := availableBlockAtEnd (pool s)) in *.
  assert (Hge : length (pool s) - n <= t0).
  { apply Nat.nlt_ge. intros Hlt. apply Hend; [lia|]. apply Hav. lia. }
  assert (Hle2 : t0 <= length (pool s) - n \/ t0 <= 1).
  { destruct (decide (t0 <= length (pool s) - n)) as [|Hgt]; [by left|].
    destruct Hstop as [|Hstop]; [by right|].
    exfalso. apply Hstop. apply Hall. lia. }
  case_decide as Hwhole.
  - destruct Hwhole as [Hp Hw]. specialize (Hpos Hp). lia.
  - destruct (decide (0 < length (pool s))) as [Hp|Hz]; [|lia].
    specialize (Hpos Hp).
    destruct (decide (n = length (pool s))) as [Hw|Hnw]; [by destruct Hwhole|].
    lia.
Qed.

Lemma tail_start_exact (p : list Register) (t0 : nat) :
  t0 <= length p ->
  (0 < length p -> 1 <= t0) ->
  (forall i, t0 <= i < length p -> availableAt p i) ->
  (t0 <= 1 \/ ~ availableAt p (t0 - 1)) ->
  t0 = if decide (0 < length p /\ availableBlockAtEnd p = length p)
       then 1 else length p - availableBlockAtEnd p.
Proof.
  intros Hle Hpos Hav Hstop.
  destruct (availableBlockAtEnd_run p) as (Hn & Hall & Hend). cbv zeta in *.
  set (n := availableBlockAtEnd p) in *.
  assert (Hge : length p - n <= t0).
  { apply Nat.nlt_ge. intros Hlt. apply Hend; [lia|]. apply Hav. lia. }
  assert (Hle2 : t0 <= length p - n \/ t0 <= 1).
  { destruct (decide (t0 <= length p - n)) as [|Hgt]; [by left|].
    destruct Hstop as [|Hstop]; [by right|].
    exfalso. apply Hstop. apply Hall. lia. }
  case_decide as Hwhole.
  - destruct Hwhole as [Hp Hw]. specialize (Hpos Hp). lia.
  - destruct (decide (0 < length p)) as [Hp|Hz]; [|lia].
    specialize (Hpos Hp).
    destruct (decide (n = length p)) as [Hw|Hnw]; [by destruct Hwhole|].
    lia.
Qed.

(** C4 (what the code does).
    In a pool with no aligned, in-bounds, fully Available run of [size]
    slots: with overflow prevented the call raises (the assertion fails)
    and the pool object is unchanged; with overflow allowed it returns
    [start], which is [t0] rounded up to the alignment, the pool has grown
    by appending and now ends at [start + size], the slots of
    [start, start+size) are InUse under the new tag, the slots of
    [t0, start) are Available padding, the slots below [t0] are untouched,
    and [checkOutSize[start] = size].  [t0] is where the code takes the
    Available run at the end of the pool to begin: at
    [len - availableBlockAtEnd()], where that run does begin, unless the
    run is the whole non-empty pool.  The backward scan
    [range(len-1, 0, -1)] never visits slot 0, so then [t0] is 1 although
    the run begins at 0: slot 0 is left out of the range handed out and one
    more slot than needed is appended. *)
Theorem checkOutAligned_no_fit (s : t) (sz al : nat) (tg : string) (po : option bool) :
  0 < sz -> 1 <= al ->
  (forall i, ~ fits (pool s) sz al i) ->
  let prevent := match po with None => defaultPreventOverflow s | Some b => b end in
  let n := length (pool s) in
  let tail := availableBlockAtEnd (pool s) in
  let t0 := if decide (0 < n /\ tail = n) then 1 else n - tail in
  let start := roundUpToNearestMultiple t0 al in
  (prevent = true ->
   checkOutAligned sz al tg po s = (Raise AssertionError, s, [])) /\
  (prevent = false ->
   outcome (checkOutAligned sz al tg po s) = Ok start /\
   (al | start) /\ t0 <= start < t0 + al /\
   (* the pool grows, by appending, up to the end of the new range *)
   n < length (pool (final (checkOutAligned sz al tg po s))) /\
   length (pool (final (checkOutAligned sz al tg po s))) = start + sz /\
   pool (final (checkOutAligned sz al tg po s)) =
     take t0 (pool s) ++ replicate (start - t0) (mkRegister Available tg)
     ++ replicate sz (mkRegister InUse tg) /\
   (forall i, start <= i < start + sz ->
      pool (final (checkOutAligned sz al tg po s)) !! i = Some (mkRegister InUse tg)) /\
   (forall i, i < start -> i < n ->
      status <$> pool (final (checkOutAligned sz al tg po s)) !! i
      = status <$> pool s !! i) /\
   checkOutSize (final (checkOutAligned sz al tg po s))
     = <[start := sz]> (checkOutSize s)).
Proof.
  intros Hsz Hal Hno prevent n tail t0 start.
  pose proof (no_fit_scan_None (pool s) sz al Hal Hno) as Hscan.
  split; intros Hpo.
  - by apply checkOutAligned_prevented.
  - destruct (checkOutAligned_overflow_eq_pos s sz al tg po Hsz Hal Hscan Hpo)
      as (t1 & Ht1 & Hpos & Hav & Hmax & Hgrow & Heq).
    assert (Ht : t1 = t0) by (by apply tail_start_exact).
    clearbody t0. subst t1. fold start in Hgrow.
    cbv zeta in Heq. fold start in Heq. rewrite Heq.
    unfold outcome, final. cbn [fst snd pool checkOutSize].
    destruct (roundUp_spec t0 al Hal) as (Hdiv & Hlo & Hhi). fold start in Hdiv, Hlo, Hhi.
    clearbody start.
    assert (Hlen : length (take t0 (pool s)
                           ++ replicate (start - t0) (mkRegister Available tg)
                           ++ replicate sz (mkRegister InUse tg)) = start + sz).
    { rewrite !length_app, length_take, !length_replicate. lia. }
    repeat split; try done; try lia.
    + intros i Hi. rewrite app_assoc, lookup_app_r;
        rewrite length_app, length_take, length_replicate; [|lia].
      apply lookup_replicate_2. lia.
    + intros i Hi Hin. destruct (decide (i < t0)) as [Hlt|Hge].
      * rewrite lookup_app_l by (rewrite length_take; lia).
        by rewrite lookup_take_lt.
      * destruct (Hav i) as (r & -> & Hr); [lia|].
        rewrite lookup_app_r by (rewrite length_take; lia).
        rewrite length_take, lookup_app_l by (rewrite length_replicate; lia).
        rewrite lookup_replicate_2 by lia. cbn. by rewrite Hr.
Qed.

End PoolCounts.

(** ** Occupancy *)

Section OccupancyFacts.
Import Occupancy.
Local Open Scope Z_scope.

Lemma vgprOccupancy_table (n : nat) :
  (n < 257)%nat ->
  vgprOccupancy (Z.of_nat n) = default 0 (_vgprOccupancy !! n) /\
  1 <= vgprOccupancy (Z.of_nat n) <= 10 /\
  vgprOccupancy (Z.of_nat (S n)) <= vgprOccupancy (Z.of_nat n).
Proof.
  intros Hn.
  assert (Hall : forallb (fun n =>
            (vgprOccupancy (Z.of_nat n) =? default 0 (_vgprOccupancy !! n))
            && (1 <=? vgprOccupancy (Z.of_nat n))
            && (vgprOccupancy (Z.of_nat n) <=? 10)
            && (vgprOccupancy (Z.of_nat (S n)) <=? vgprOccupancy (Z.of_nat n)))
          (seq 0 257) = true) by (vm_compute; reflexivity).
  rewrite forallb_forall in Hall. specialize (Hall n).
  rewrite !andb_true_iff in Hall.
  destruct Hall as [[[H1 H2] H3] H4]; [apply in_seq; lia|].
  apply Z.eqb_eq in H1. apply Z.leb_le in H2, H3, H4. lia.
Qed.

Lemma vgprOccupancy_outside (i : Z) :
  i < 0 \/ 256 < i -> vgprOccupancy i = 0.
Proof.
  intros H. unfold vgprOccupancy.
  destruct (Z.ltb_spec i 0); [done|]. destruct (Z.ltb_spec 256 i); [done|]. lia.
Qed.

Lemma vgprOccupancy_nonneg (i : Z) : 0 <= vgprOccupancy i <= 10.
Proof.
  destruct (decide (0 <= i <= 256)) as [Hin|Hout].
  - destruct (vgprOccupancy_table (Z.to_nat i)) as (_ & H & _); [lia|].
    rewrite Z2Nat.id in H by lia. lia.
  - rewrite vgprOccupancy_outside by lia. lia.
Qed.

Lemma vgprOccupancy_antitone (i j : Z) :
  0 <= i <= j -> vgprOccupancy j <= vgprOccupancy i.
Proof.
  intros [Hi Hij].
  destruct (decide (j <= 256)) as [Hj|Hj].
  2:{ rewrite (vgprOccupancy_outside j) by lia. apply vgprOccupancy_nonneg. }
  replace j with (i + Z.of_nat (Z.to_nat (j - i))) in * by lia.
  generalize dependent (Z.to_nat (j - i)). intros k.
  induction k as [|k IH]; intros Hij Hj.
  - rewrite Z.add_0_r. lia.
  - etransitivity; [|apply IH; lia].
    destruct (vgprOccupancy_table (Z.to_nat (i + Z.of_nat k))) as (_ & _ & H); [lia|].
    rewrite Nat2Z.inj_succ, Z2Nat.id in H by lia.
    replace (i + Z.of_nat (S k)) with (Z.succ (i + Z.of_nat k)) by lia. done.
Qed.

Lemma vgprOccupancy_positive (i : Z) :
  0 <= i <= 256 -> 1 <= vgprOccupancy i <= 10.
Proof.
  intros Hi. destruct (vgprOccupancy_table (Z.to_nat i)) as (_ & H & _); [lia|].
  by rewrite Z2Nat.id in H by lia.
Qed.

(** X11.  The occupancy curve: [vgprOccupancy] is between 1 and 10 for a
    register count from 0 to 256, is 0 for every other count, and never
    rises when the (non-negative) register count rises. *)
Theorem vgprOccupancy_curve (i j : Z) :
  (0 <= i <= 256 -> 1 <= vgprOccupancy i <= 10) /\
  (i < 0 \/ 256 < i -> vgprOccupancy i = 0) /\
  (0 <= i <= j -> vgprOccupancy j <= vgprOccupancy i).
Proof.
  split; [apply vgprOccupancy_positive|].
  split; [apply vgprOccupancy_outside|apply vgprOccupancy_antitone].
Qed.

Lemma land_granularity (x : Z) :
  0 <= x < 2 ^ 17 -> Z.land x 0x1ff00 = 256 * (x / 256).
Proof.
  intros Hx. apply Z.bits_inj'. intros n Hn.
  rewrite Z.land_spec.
  change 0x1ff00 with (Z.shiftl (Z.ones 9) 8).
  change 256 with (2 ^ 8). rewrite Z.mul_comm, <- Z.shiftl_mul_pow2 by lia.
  rewrite <- Z.shiftr_div_pow2 by lia.
  destruct (decide (n < 8)) as [Hlt|Hge].
  - rewrite !Z.shiftl_spec_low by lia. apply andb_false_r.
  - rewrite !Z.shiftl_spec by lia. rewrite Z.shiftr_spec by lia.
    replace (n - 8 + 8) with n by lia.
    rewrite Z.testbit_ones by lia.
    destruct (decide (n < 17)) as [Hlt|Hge2].
    + replace (0 <=? n - 8) with true by (symmetry; apply Z.leb_le; lia).
      replace (n - 8 <? 9) with true by (symmetry; apply Z.ltb_lt; lia).
      apply andb_true_r.
    + replace (n - 8 <? 9) with false by (symmetry; apply Z.ltb_ge; lia).
      rewrite andb_false_r, andb_false_r.
      symmetry. destruct (decide (x = 0)) as [->|Hne]; [apply Z.bits_0|].
      apply Z.bits_above_log2; [lia|].
      assert (Z.log2 x < 17); [|lia]. apply Z.log2_lt_pow2; lia.
Qed.

Lemma getLdsLimitedOccupancy_rounded (ldsSize : Z) :
  1 <= ldsSize <= 65536 ->
  let q := (ldsSize + 255) / 256 in
  getLdsLimitedOccupancy ldsSize = Ok (65536 / (256 * q)) /\
  1 <= q <= 256 /\ ldsSize <= 256 * q.
Proof.
  intros Hl. cbv zeta. unfold getLdsLimitedOccupancy. cbv zeta.
  rewrite land_granularity by lia.
  set (x := Z.min (ldsSize + 255) 65536).
  assert (Hx : x / 256 = (ldsSize + 255) / 256).
  { subst x. destruct (Z.min_spec (ldsSize + 255) 65536) as [[_ ->]|[Hge ->]]; [done|].
    change (65536 / 256) with 256.
    apply Z.div_unique with (r := ldsSize + 255 - 65536); lia. }
  rewrite Hx. set (q := (ldsSize + 255) / 256).
  assert (Hq : 1 <= q <= 256).
  { subst q. split.
    - apply Z.div_le_lower_bound; lia.
    - assert ((ldsSize + 255) / 256 < 257); [|lia].
      apply Z.div_lt_upper_bound; lia. }
  assert (Hql : ldsSize <= 256 * q).
  { subst q. pose proof (Z.mod_pos_bound (ldsSize + 255) 256 ltac:(lia)).
    pose proof (Z.div_mod (ldsSize + 255) 256 ltac:(lia)). lia. }
  destruct (Z.eqb_spec (256 * q) 0) as [E|_]; [lia|]. done.
Qed.

Lemma getLdsLimitedOccupancy_clamped (ldsSize : Z) :
  65536 < ldsSize -> getLdsLimitedOccupancy ldsSize = Ok 1.
Proof.
  intros Hl. unfold getLdsLimitedOccupancy. cbv zeta.
  rewrite Z.min_r by lia. reflexivity.
Qed.

(** X12.  [getLdsLimitedOccupancy] rounds the LDS size up to 256 bytes and
    divides 64 KiB by it.  A size from -255 to 0 rounds to 0 and the
    division raises [ZeroDivisionError].  For a size from 1 to 65536 the
    result is between 1 and 256, that many allocations fit in 64 KiB, and
    one more allocation of the rounded size would not fit.  A size above
    65536 is clamped and gives 1. *)
Theorem getLdsLimitedOccupancy_fits (ldsSize : Z) :
  (-255 <= ldsSize <= 0 -> getLdsLimitedOccupancy ldsSize = Raise ZeroDivisionError) /\
  (1 <= ldsSize <= 65536 ->
   exists o, getLdsLimitedOccupancy ldsSize = Ok o /\
             1 <= o <= 256 /\
             o * ldsSize <= 65536 /\
             65536 < (o + 1) * (256 * ((ldsSize + 255) / 256))) /\
  (65536 < ldsSize -> getLdsLimitedOccupancy ldsSize = Ok 1).
Proof.
  split; [|split]; intros Hl.
  - unfold getLdsLimitedOccupancy. cbv zeta.
    rewrite land_granularity by lia.
    rewrite Z.min_l by lia.
    replace ((ldsSize + 255) / 256) with 0 by (symmetry; apply Z.div_small; lia).
    reflexivity.
  - destruct (getLdsLimitedOccupancy_rounded ldsSize Hl) as (Heq & Hq & Hql).
    cbv zeta in *. set (q := (ldsSize + 255) / 256) in *.
    eexists. split; [exact Heq|].
    pose proof (Z.mul_div_le 65536 (256 * q) ltac:(lia)) as Hd1.
    pose proof (Z.mul_succ_div_gt 65536 (256 * q) ltac:(lia)) as Hd2.
    assert (Hpos : 1 <= 65536 / (256 * q)).
    { apply Z.div_le_lower_bound; lia. }
    split; [split; [done|]|split].
    + apply Z.div_le_upper_bound; lia.
    + nia.
    + lia.
  - by apply getLdsLimitedOccupancy_clamped.
Qed.







End OccupancyFacts.

(** ** Register-pool initialisation code *)

Section PoolInitFacts.
Import RegisterPool Asm PoolInit.

Lemma initSlots_in_range (ty : string) (p : list Register) (v : Z) (indices : list nat) :
  ty = "s" \/ ty = "v" ->
  (forall i, i ∈ indices -> i < length p) ->
  initSlots ty p v indices =
    Ok ((fun i => Instr (inst (if String.eqb ty "s" then "s_mov_b32" else "v_mov_b32")
                              [(if String.eqb ty "s" then sgpr else vgpr) (Idx i) 1; imm v]
                              "init tmp in pool"))
          <$> filter (fun i => status <$> p !! i = Some Available) indices).
Proof.
  intros Hty. induction indices as [|i rest IH]; intros Hin; [done|].
  cbn [initSlots]. destruct (lookup_lt_is_Some_2 p i) as [r Hr].
  { apply Hin. left. }
  rewrite Hr, filter_cons, Hr. cbn [fmap option_fmap option_map].
  rewrite IH by (intros j Hj; apply Hin; by right).
  destruct Hty as [-> | ->]; cbn [String.eqb Ascii.eqb Bool.eqb];
    destruct (decide (status r = Available)) as [Hs|Hs].
  - rewrite decide_True by (by rewrite Hs). done.
  - rewrite decide_False by (intros [= E]; done). done.
  - rewrite decide_True by (by rewrite Hs). done.
  - rewrite decide_False by (intros [= E]; done). done.
Qed.

Lemma initSlots_past_end (ty : string) (p : list Register) (v : Z) (indices : list nat)
    (i : nat) :
  ty = "s" \/ ty = "v" ->
  (forall j, j ∈ indices -> j < length p) ->
  length p <= i ->
  initSlots ty p v (indices ++ [i]) = Raise IndexError.
Proof.
  intros Hty Hin Hi. induction indices as [|j rest IH].
  - cbn. by rewrite lookup_ge_None_2.
  - cbn [app initSlots]. destruct (lookup_lt_is_Some_2 p j) as [r Hr].
    { apply Hin. left. }
    rewrite Hr, IH by (intros k Hk; apply Hin; by right).
    destruct Hty as [-> | ->]; cbn; by case_decide.
Qed.

(** X15.  For a pool of type 's' or 'v', [initTmps(initValue, start, stop)]
    with the default [stop], or with a [stop] that is not the pool size,
    emits one move of [initValue] for each Available slot from [start] up
    to [stop] inclusive (clipped to the pool), in rising order and into the
    register of that number, and none for any other slot; the pool is not
    changed. *)
Theorem initTmps_available_slots (s : t) (initValue : Z) (start : nat)
    (stop : option nat) :
  type s = "s" \/ type s = "v" ->
  stop <> Some (length (pool s)) ->
  let last := match stop with
              | None => length (pool s)
              | Some stop => min (length (pool s)) (stop + 1)
              end in
  initTmps initValue start stop s =
    (Ok ((fun i => Instr (inst (if String.eqb (type s) "s" then "s_mov_b32" else "v_mov_b32")
                               [(if String.eqb (type s) "s" then sgpr else vgpr) (Idx i) 1;
                                imm initValue]
                               "init tmp in pool"))
           <$> filter (fun i => status <$> pool s !! i = Some Available)
                      (seq start (last - start))),
     s, []).
Proof.
  intros Hty Hstop. cbv zeta. unfold initTmps.
  rewrite (bind_ok_nil get _ s s s eq_refl). unfold liftOutcome.
  set (bound := match stop with
                | None => length (pool s)
                | Some stop => if length (pool s) <? stop then length (pool s) else stop + 1
                end).
  assert (Hb : bound = match stop with
                       | None => length (pool s)
                       | Some stop => min (length (pool s)) (stop + 1)
                       end).
  { subst bound. destruct stop as [st|]; [|done].
    destruct (Nat.ltb_spec (length (pool s)) st); [lia|].
    assert (st <> length (pool s)) by (intros ->; done). lia. }
  rewrite Hb. rewrite initSlots_in_range; [done|done|].
  intros i [Hlo Hi]%elem_of_seq. destruct stop; lia.
Qed.

(** X16.  [initTmps] with [stop] equal to the pool size reads one slot
    past the end: the clipping test lets [stop = len] through, the range
    becomes [start .. len] inclusive, and the call raises [IndexError]
    (for a pool of type 's' or 'v', and [start] not above the size). *)
Theorem initTmps_stop_at_size (s : t) (initValue : Z) (start : nat) :
  type s = "s" \/ type s = "v" ->
  start <= length (pool s) ->
  initTmps initValue start (Some (length (pool s))) s = (Raise IndexError, s, []).
Proof.
  intros Hty Hstart. unfold initTmps.
  rewrite (bind_ok_nil get _ s s s eq_refl). unfold liftOutcome.
  rewrite Nat.ltb_irrefl.
  replace (length (pool s) + 1 - start) with (S (length (pool s) - start)) by lia.
  rewrite seq_S. replace (start + (length (pool s) - start)) with (length (pool s)) by lia.
  rewrite initSlots_past_end; [done|done| |lia].
  intros j [_ Hj]%elem_of_seq. lia.
Qed.

End PoolInitFacts.

(** ** Labels *)

Section LabelFacts.
Import Labels.

Lemma getLabelNum_eq (name : string) (labels : t) :
  getLabelNum name labels =
    match labels !! name with
    | Some v => (Ok v, labels, [])
    | None => (Ok (LabelNum (size labels)), <[name := LabelNum (size labels)]> labels, [])
    end.
Proof.
  unfold getLabelNum, readLabel, bind, get, when, put, ret.
  destruct (labels !! name) as [v|] eqn:E.
  - rewrite bool_decide_eq_false_2 by done. cbn. by rewrite E.
  - rewrite bool_decide_eq_true_2 by done. cbn. by rewrite lookup_insert_eq.
Qed.

Lemma getNamedLabel_eq (name : string) (labels : t) :
  getNamedLabel name labels =
    match labels !! name with
    | Some v => (Ok v, labels, [])
    | None =>
        let v := LabelName (name +:+ "_" +:+ pretty (size labels)) in
        (Ok v, <[name := v]> labels, [])
    end.
Proof.
  unfold getNamedLabel, readLabel, bind, get, when, put, ret.
  destruct (labels !! name) as [v|] eqn:E.
  - rewrite bool_decide_eq_false_2 by done. cbn. by rewrite E.
  - rewrite bool_decide_eq_true_2 by done. cbn. by rewrite lookup_insert_eq.
Qed.

Lemma getNamedLabelUnique_eq (name : string) (labels : t) :
  getNamedLabelUnique name labels =
    let key := name +:+ "_" +:+ pretty (size labels) in
    (Ok key, <[key := LabelName key]> labels, []).
Proof. reflexivity. Qed.

Lemma getUniqLabel_eq (labels : t) :
  getUniqLabel labels = getLabelNum ("uniq_label_" +:+ pretty (size labels)) labels.
Proof. unfold getUniqLabel. by rewrite (bind_ok_nil get _ labels labels labels eq_refl). Qed.

Lemma size_insert_le (labels : t) (k : string) (v : LabelValue) :
  size labels <= size (<[k := v]> labels).
Proof.
  destruct (labels !! k) as [x|] eqn:E.
  - rewrite map_size_insert_Some; [done|]. eauto.
  - rewrite map_size_insert_None by done. lia.
Qed.

Lemma numbered_insert_num (labels : t) (name : string) :
  numbered labels -> labels !! name = None ->
  numbered (<[name := LabelNum (size labels)]> labels).
Proof.
  intros [Hlt Hinj] Hnew. split.
  - intros k n. rewrite map_size_insert_None by done.
    destruct (decide (k = name)) as [->|Hne].
    + rewrite lookup_insert_eq. intros [= <-]. lia.
    + rewrite lookup_insert_ne by done. intros H%Hlt. lia.
  - intros k1 k2 n.
    destruct (decide (k1 = name)) as [->|H1]; destruct (decide (k2 = name)) as [->|H2];
      rewrite ?lookup_insert_eq, ?lookup_insert_ne by done; try done.
    + intros [= <-] H%Hlt. lia.
    + intros H%Hlt [= <-]. lia.
    + apply Hinj.
Qed.

Lemma numbered_insert_name (labels : t) (key name : string) :
  numbered labels -> numbered (<[key := LabelName name]> labels).
Proof.
  intros [Hlt Hinj]. split.
  - intros k n. destruct (decide (k = key)) as [->|Hne].
    + by rewrite lookup_insert_eq.
    + rewrite lookup_insert_ne by done. intros H%Hlt.
      pose proof (size_insert_le labels key (LabelName name)). lia.
  - intros k1 k2 n.
    destruct (decide (k1 = key)) as [->|H1]; destruct (decide (k2 = key)) as [->|H2];
      rewrite ?lookup_insert_eq, ?lookup_insert_ne by done; try done.
    apply Hinj.
Qed.

(** X17.  The label numbers stay distinct.  [numbered] - every number in
    the dict is below the number of labels and belongs to one name only -
    holds for the empty dict and is kept by [getLabelNum],
    [getNamedLabel], [getNamedLabelUnique] and [getUniqLabel]. *)
Theorem labels_numbered_invariant (labels : t) (name : string) :
  numbered ∅ /\
  (numbered labels ->
   numbered (final (getLabelNum name labels)) /\
   numbered (final (getNamedLabel name labels)) /\
   numbered (final (getNamedLabelUnique name labels)) /\
   numbered (final (getUniqLabel labels))).
Proof.
  split.
  - split; intros *; by rewrite lookup_empty.
  - intros Hn.
    assert (Hnum : forall k, numbered (final (getLabelNum k labels))).
    { intros k. rewrite getLabelNum_eq. destruct (labels !! k) eqn:E; cbn; [done|].
      by apply numbered_insert_num. }
    split; [apply Hnum|]. split; [|split].
    + rewrite getNamedLabel_eq. destruct (labels !! name) eqn:E; cbn; [done|].
      by apply numbered_insert_name.
    + rewrite getNamedLabelUnique_eq. cbn. by apply numbered_insert_name.
    + rewrite getUniqLabel_eq. apply Hnum.
Qed.

(** X18.  [getLabelNum] gives a name its number once: a first call for a
    new name returns the current number of labels and stores it; every
    later call for that name returns the same number and changes nothing;
    and in a [numbered] dict the number given to a new name is not the
    number of any other name. *)
Theorem getLabelNum_assigns_once (labels : t) (name : string) :
  labels !! name = None ->
  let r := getLabelNum name labels in
  r = (Ok (LabelNum (size labels)), <[name := LabelNum (size labels)]> labels, []) /\
  getLabelNum name (final r) = (Ok (LabelNum (size labels)), final r, []) /\
  (numbered labels ->
   forall other, other <> name ->
     final r !! other <> Some (LabelNum (size labels)) /\
     outcome (getLabelNum other (final r)) <> Ok (LabelNum (size labels))).
Proof.
  intros Hnew. cbv zeta. rewrite getLabelNum_eq, Hnew. cbn [final fst snd].
  split; [done|]. split.
  - by rewrite getLabelNum_eq, lookup_insert_eq.
  - intros [Hlt _] other Hne.
    assert (Hold : labels !! other <> Some (LabelNum (size labels))).
    { intros H%Hlt. lia. }
    split.
    + by rewrite lookup_insert_ne.
    + rewrite getLabelNum_eq, lookup_insert_ne by done.
      destruct (labels !! other) as [v|] eqn:E; cbn.
      * intros [= ->]. done.
      * rewrite map_size_insert_None by done. intros [= H]. lia.
Qed.

(** X19.  [getLabelNum], [getNamedLabel] and [getUniqLabel] never change
    or drop a label that exists: the dict after the call contains the dict
    before it, and for the first two the value returned is the one now
    stored under the name. *)
Theorem labels_only_grow (labels : t) (name : string) :
  (labels ⊆ final (getLabelNum name labels) /\
   exists v, outcome (getLabelNum name labels) = Ok v /\
             final (getLabelNum name labels) !! name = Some v) /\
  (labels ⊆ final (getNamedLabel name labels) /\
   exists v, outcome (getNamedLabel name labels) = Ok v /\
             final (getNamedLabel name labels) !! name = Some v) /\
  labels ⊆ final (getUniqLabel labels).
Proof.
  assert (Hnum : forall k,
            labels ⊆ final (getLabelNum k labels) /\
            exists v, outcome (getLabelNum k labels) = Ok v /\
                      final (getLabelNum k labels) !! k = Some v).
  { intros k. rewrite getLabelNum_eq. destruct (labels !! k) as [v|] eqn:E; cbn.
    - split; [done|]. by exists v.
    - split; [by apply insert_subseteq|]. eexists. split; [done|]. apply lookup_insert_eq. }
  split; [apply Hnum|]. split.
  - rewrite getNamedLabel_eq. destruct (labels !! name) as [v|] eqn:E; cbn.
    + split; [done|]. by exists v.
    + split; [by apply insert_subseteq|]. eexists. split; [done|]. apply lookup_insert_eq.
  - rewrite getUniqLabel_eq. apply Hnum.
Qed.

End LabelFacts.

(** ** Scalar register definitions *)

Section SgprFacts.
Import RegisterPool Sgprs.

Lemma checkOutAligned_returns (s : RegisterPool.t) (sz al : nat) (tg : string) :
  0 < sz -> 1 <= al ->
  exists start,
    outcome (checkOutAligned sz al tg (Some false) s) = Ok start /\ (al | start).
Proof.
  intros Hsz Hal.
  pose proof (scan_spec (pool s) sz al (seq 0 (length (pool s))) ltac:(lia)) as Hsp.
  destruct (scan (pool s) sz al (seq 0 (length (pool s)))) as [[found|]|] eqn:Hscan;
    [| |done].
  - destruct Hsp as (_ & Hmod & Hle & _). exists found.
    rewrite (checkOutAligned_fit_eq s sz al tg _ found Hsz Hscan Hle).
    split; [done|]. by apply Nat.Lcm0.mod_divide.
  - destruct (checkOutAligned_overflow_eq s sz al tg (Some false) Hsz Hal Hscan eq_refl)
      as (t0 & _ & _ & _ & _ & Heq).
    cbv zeta in Heq. rewrite Heq. eexists. split; [done|]. by apply roundUp_spec.
Qed.

Lemma onSgprPool_run {A} (m : M RegisterPool.t A) (w : Writer) (r : Outcome A)
    (p : RegisterPool.t) (o : list Event) :
  m (sgprPool w) = (r, p, o) -> onSgprPool m w = (r, withSgprPool w p, o).
Proof. intros H. unfold onSgprPool. by rewrite H. Qed.

(** X20.  [defineSgpr(name, numSgprs, align)] with [numSgprs = 0] does
    nothing and returns [None].  With [numSgprs > 0] it never fails for
    lack of room: it returns an index divisible by [align], stores it
    under [name] in [self.sgprs], and the registers [idx .. idx+numSgprs-1]
    are InUse in the pool under the tag [name], with the size recorded
    for a later check-in; the other fields of the writer are unchanged. *)
Theorem defineSgpr_defines (w : Writer) (name : string) (numSgprs align : nat) :
  (numSgprs = 0 -> defineSgpr name numSgprs align w = (Ok None, w, [])) /\
  (0 < numSgprs -> 1 <= align ->
   exists idx,
     outcome (defineSgpr name numSgprs align w) = Ok (Some idx) /\
     (align | idx) /\
     let w' := final (defineSgpr name numSgprs align w) in
     sgprs w' = <[name := idx]> (sgprs w) /\
     (forall j, idx <= j < idx + numSgprs ->
        pool (sgprPool w') !! j = Some (mkRegister InUse name)) /\
     checkOutSize (sgprPool w') = <[idx := numSgprs]> (checkOutSize (sgprPool w)) /\
     maxSgprs w' = maxSgprs w /\
     overflowedResources w' = overflowedResources w).
Proof.
  split.
  - intros ->. reflexivity.
  - intros Hn Hal.
    destruct (checkOutAligned_returns (sgprPool w) numSgprs align name Hn Hal)
      as (idx & Hret & Hdiv).
    destruct (checkOutAligned_ok_shape (sgprPool w) numSgprs align name (Some false) idx
                Hn Hal Hret) as (p' & o & Hco & Hlen & Hin & _).
    exists idx. unfold defineSgpr.
    destruct (Nat.eqb_spec numSgprs 0) as [|_]; [lia|].
    rewrite (bind_ok _ _ _ _ _ _ (onSgprPool_run _ w _ _ _ Hco)).
    cbn [outcome final logged fst snd]. unfold bind, get, put, ret. cbn.
    done.
Qed.

(** X21.  [undefineSgpr] of a name that was never defined raises
    [KeyError] and changes nothing.  After [defineSgpr(name, n, align)]
    with [n > 0], [undefineSgpr(name)] completes and gives the registers
    back: every register that existed has the status it had before the
    definition and every register the definition appended is Available;
    [self.sgprs] still maps [name] to the index it had. *)
Theorem defineSgpr_then_undefineSgpr (w : Writer) (name : string) (numSgprs align : nat) :
  (sgprs w !! name = None -> undefineSgpr name w = (Raise (KeyError name), w, [])) /\
  (0 < numSgprs -> 1 <= align ->
   let r := bind (defineSgpr name numSgprs align) (fun _ => undefineSgpr name) w in
   exists idx text,
     outcome r = Ok text /\
     sgprs (final r) !! name = Some idx /\
     checkOutSize (sgprPool (final r)) = delete idx (checkOutSize (sgprPool w)) /\
     (forall j x, pool (sgprPool w) !! j = Some x ->
        status <$> pool (sgprPool (final r)) !! j = Some (status x)) /\
     (forall j, length (pool (sgprPool w)) <= j < length (pool (sgprPool (final r))) ->
        status <$> pool (sgprPool (final r)) !! j = Some Available)).
Proof.
  split.
  - intros Hnone. unfold undefineSgpr, bind, get. by rewrite Hnone.
  - intros Hn Hal. cbv zeta.
    destruct (checkOutAligned_returns (sgprPool w) numSgprs align name Hn Hal)
      as (idx & Hret & Hdiv).
    destruct (checkOut_checkIn_states (sgprPool w) numSgprs align name (Some false) idx
                Hn Hal Hret) as (p1 & l1 & p2 & l2 & Hco & Hci & Hlen & Hold & Hnew & Hsize).
    assert (Hdef : defineSgpr name numSgprs align w
                   = (Ok (Some idx),
                      withSgprs (withSgprPool w p1) (<[name := idx]> (sgprs w)), l1)).
    { unfold defineSgpr. destruct (Nat.eqb_spec numSgprs 0) as [|_]; [lia|].
      rewrite (bind_ok _ _ _ _ _ _ (onSgprPool_run _ w _ _ _ Hco)).
      cbn [outcome final logged fst snd]. unfold bind, get, put, ret. cbn.
      by rewrite app_nil_r. }
    set (w1 := withSgprs (withSgprPool w p1) (<[name := idx]> (sgprs w))) in *.
    assert (Hund : undefineSgpr name w1
                   = (Ok (".set " +:+ name +:+ ", UNDEF" +:+ newline),
                      withSgprPool w1 p2, l2 ++ [])).
    { unfold undefineSgpr. rewrite (bind_ok_nil get _ w1 w1 w1 eq_refl).
      replace (sgprs w1 !! name) with (Some idx)
        by (subst w1; cbn; by rewrite lookup_insert_eq).
      rewrite (bind_ok _ _ _ _ _ _ (onSgprPool_run _ w1 _ _ _ Hci)). reflexivity. }
    exists idx. eexists.
    rewrite (bind_ok _ _ _ _ _ _ Hdef). cbn [outcome final logged fst snd].
    rewrite Hund. cbn [outcome final logged fst snd].
    split; [reflexivity|]. subst w1. cbn [sgprs sgprPool withSgprPool withSgprs].
    split; [apply lookup_insert_eq|]. done.
Qed.


(** X22.  [getTmpSgpr(num)] without an explicit alignment checks out
    [num] registers at an index that is even when [num] is not 1 (any
    index when [num] is 1); it grows the pool rather than fail.  When the
    range ends above [maxSgprs] it sets [overflowedResources] to 2, and
    raises [AssertionError] only if [AssertOnSgprOverflow] is set;
    otherwise [overflowedResources] is left alone.  [getTmpSgpr(0)] fails
    the pool's [assert(size > 0)] and changes nothing. *)
Theorem getTmpSgpr_default_alignment (w : Writer) (num : nat) (tag : option string) :
  (num = 0 -> getTmpSgpr num None tag w = (Raise AssertionError, w, [])) /\
  (0 < num ->
   let r := getTmpSgpr num None tag w in
   exists idx,
     ((if num =? 1 then 1 else 2) | idx) /\
     (forall j, idx <= j < idx + num ->
        status <$> pool (sgprPool (final r)) !! j = Some InUse) /\
     checkOutSize (sgprPool (final r)) = <[idx := num]> (checkOutSize (sgprPool w)) /\
     (idx + num <= maxSgprs w ->
      outcome r = Ok idx /\ overflowedResources (final r) = overflowedResources w) /\
     (maxSgprs w < idx + num ->
      overflowedResources (final r) = 2 /\
      outcome r = if assertOnSgprOverflow w then Raise AssertionError else Ok idx)).
Proof.
  split.
  - intros ->. unfold getTmpSgpr. cbn [Nat.eqb].
    erewrite (bind_raise (onSgprPool _)); [reflexivity|].
    erewrite onSgprPool_run; [|reflexivity]. by destruct w.
  - intros Hn. cbv zeta.
    set (al := if num =? 1 then 1 else 2).
    set (tg := match tag with
               | Some tag => tag
               | None => "getTmpSgpr(" +:+ pretty num +:+ ")"
               end).
    assert (Hal : 1 <= al) by (subst al; destruct (num =? 1); lia).
    destruct (checkOutAligned_returns (sgprPool w) num al tg Hn Hal) as (idx & Hret & Hdiv).
    destruct (checkOutAligned_ok_shape (sgprPool w) num al tg (Some false) idx Hn Hal Hret)
      as (p' & o & Hco & Hlen & Hin & _).
    exists idx. split; [done|].
    unfold getTmpSgpr. fold al tg.
    rewrite (bind_ok _ _ _ _ _ _ (onSgprPool_run _ w _ _ _ Hco)).
    cbn [outcome final logged fst snd].
    rewrite (bind_ok_nil get _ _ _ _ eq_refl).
    cbn [maxSgprs withSgprPool assertOnSgprOverflow].
    destruct (Nat.ltb_spec (maxSgprs w) (idx + num)) as [Hover|Hfits].
    + replace (idx + num <=? maxSgprs w) with false by (symmetry; apply Nat.leb_gt; lia).
      destruct (assertOnSgprOverflow w); unfold bind, put, when, assert, ret, raise; cbn.
      * split; [intros j Hj; by rewrite (Hin j Hj)|]. split; [done|]. split; [lia|done].
      * split; [intros j Hj; by rewrite (Hin j Hj)|]. split; [done|]. split; [lia|done].
    + unfold bind, ret; cbn. split; [intros j Hj; by rewrite (Hin j Hj)|]. split; [done|].
      split; [done|lia].
Qed.

End SgprFacts.

(** ** Instruction selection: the order of the search *)

Section SelectOrder.
Import MemoryInstruction Select.

(** X23.  [findMemoryInstructionForWidthStride] is a first-match search
    and never changes the writer: if some instruction of the list
    qualifies it returns the lowest qualifying index and logs nothing; if
    none does it returns [len(instructions)] and logs one warning. *)
Theorem findMemoryInstruction_first_match {S} (width : Q) (strides : list Z)
    (combine : bool) (instructions : list MemoryInstruction.t) (s : S) :
  Forall wellFormed instructions ->
  let r := findMemoryInstructionForWidthStride width strides combine instructions s in
  ((exists instruction, instruction ∈ instructions /\
                        qualifies width strides combine instruction) ->
   exists idx instruction,
     r = (Ok idx, s, []) /\
     instructions !! idx = Some instruction /\
     qualifies width strides combine instruction /\
     forall j other, j < idx -> instructions !! j = Some other ->
                     ~ qualifies width strides combine other) /\
  ((forall instruction, instruction ∈ instructions ->
                        ~ qualifies width strides combine instruction) ->
   r = (Ok (length instructions), s, [Warn (NoValidInstructionForWidth width)])).
Proof.
  intros Hwf. cbv zeta. unfold findMemoryInstructionForWidthStride.
  pose proof (findFrom_spec width strides combine instructions 0 Hwf) as Hspec.
  destruct (findFrom width strides combine instructions 0) as [[i|]|]; [| |done].
  - destruct Hspec as (_ & x & Hx & Hq & Hfirst). rewrite Nat.sub_0_r in Hx, Hfirst.
    split.
    + intros _. by exists i, x.
    + intros Hno. exfalso. apply (Hno x); [|done]. by eapply list_elem_of_lookup_2.
  - split.
    + intros (x & Hx & Hq). exfalso. by apply (Hspec x).
    + intros _. reflexivity.
Qed.

Lemma catalog_sorted (bufferLoad : bool) (operation : string)
    (instructions : list MemoryInstruction.t) :
  Catalog.memoryInstructions bufferLoad !! operation = Some instructions ->
  forall i j a b, i <= j -> instructions !! i = Some a -> instructions !! j = Some b ->
    (blockWidth b <= blockWidth a)%Q.
Proof.
  unfold Catalog.memoryInstructions. intros H.
  apply elem_of_list_to_map_2 in H.
  assert (Hs : StronglySorted (fun a b => (blockWidth b <= blockWidth a)%Q) instructions).
  { destruct bufferLoad;
      repeat (apply elem_of_cons in H as [H|H]);
      try (by apply not_elem_of_nil in H);
      injection H as _ ->;
      repeat (constructor; [|repeat constructor; by vm_compute]); constructor. }
  clear H.
  induction Hs as [|x l Hs IH Hx]; intros i j a b Hij Ha Hb; [done|].
  destruct i as [|i]; destruct j as [|j]; cbn in Ha, Hb; try lia.
  - simplify_eq. apply Qle_refl.
  - injection Ha as <-. rewrite Forall_forall in Hx. apply Hx.
    by eapply list_elem_of_lookup_2.
  - apply (IH i j); [lia|done|done].
Qed.

(** X24.  With the catalog of the kernel writer, the instruction
    [selectMemoryInstruction] picks is the widest one that qualifies: the
    lists are ordered from wide to narrow and the first qualifying entry
    is taken, so no qualifying entry of that operation has a larger block
    width than the selected one. *)
Theorem selectMemoryInstruction_widest (bufferLoad : bool) (name : string)
    (operation : string) (width : Q) (write2 : string) (para2 perp2 : bool)
    (strides : list Z) (instructions : list MemoryInstruction.t) (idx : nat) :
  let w := mkWriter (Catalog.memoryInstructions bufferLoad) name in
  memoryInstructions w !! operation = Some instructions ->
  outcome (selectMemoryInstruction operation width write2 para2 perp2 strides w) = Ok idx ->
  exists selected,
    instructions !! idx = Some selected /\
    forall other, other ∈ instructions ->
      qualifies width strides (combines write2 para2 perp2) other ->
      (blockWidth other <= blockWidth selected)%Q.
Proof.
  intros w Hop Hret.
  rewrite (selectMemoryInstruction_eq _ _ _ _ _ _ w instructions Hop) in Hret.
  pose proof (findFrom_spec width strides (combines write2 para2 perp2) instructions 0
                (catalog_wellFormed bufferLoad operation instructions Hop)) as Hspec.
  destruct (findFrom _ _ _ instructions 0) as [[i|]|]; [| |done].
  - destruct Hspec as (_ & x & Hx & Hq & Hfirst). rewrite Nat.sub_0_r in Hx, Hfirst.
    destruct (i <? length instructions); [|done]. injection Hret as <-.
    exists x. split; [done|].
    intros other [j Hj]%list_elem_of_lookup_1 Hqo.
    destruct (decide (j < i)) as [Hlt|Hge]; [by destruct (Hfirst j other Hlt Hj)|].
    apply (catalog_sorted bufferLoad operation instructions Hop i j); [lia|done|done].
  - done.
Qed.

End SelectOrder.

(** ** Scalar magic division with named constants *)

Section MagicDivFacts.
Import Asm MagicDiv.
Variable sgprs : string -> nat.
Variable vgprs : string -> nat.
Variable scratch : nat -> Z -> Z.
Variable scratchScc : Z -> bool.

Lemma scalarMagicDivExplicit_value (m : Machine) (dst : nat) (dividend : Operand)
    (magicNumber magicAbit magicShift : string) (d mg a s : Z) :
  read32 sgprs vgprs m dividend = Some d ->
  sregs m (sgprs magicNumber) = mg ->
  sregs m (sgprs magicAbit) = a ->
  sregs m (sgprs magicShift) = s ->
  match dividend with
  | sgpr r 1 => resolve sgprs r <> dst + 1
  | imm _ => True
  | _ => False
  end ->
  sgprs magicAbit <> dst + 1 ->
  sgprs magicShift <> dst -> sgprs magicShift <> dst + 1 ->
  exists m',
    exec sgprs vgprs scratch scratchScc m
      (scalarMagicDivExplicit dst dividend magicNumber magicAbit magicShift) = Some m' /\
    sregs m' dst
    = Z.shiftr (wrap32 (wrap32 (d * a) + wrap32 (d * mg / 2 ^ 32))) (s mod 32).
Proof.
  intros Hd Hmg Ha Hs Hsrc HA HS0 HS1.
  assert (Hd1 : forall v, read32 sgprs vgprs (setS m (dst + 1) v) dividend = Some d).
  { intros v. rewrite <- Hd.
    destruct dividend as [r [|[|k]]|r k|z]; cbn in *; try done.
    by rewrite decide_False. }
  unfold scalarMagicDivExplicit. rewrite !Nat.add_0_r.
  rewrite exec_cons, step3. cbn [String.eqb Ascii.eqb Bool.eqb].
  rewrite Hd. cbn [read32 resolve mbind option_bind write32]. rewrite Nat.add_0_r, Hmg.
  cbn [mbind option_bind].
  rewrite exec_cons, step3. cbn [String.eqb Ascii.eqb Bool.eqb].
  rewrite Hd1. cbn [read32 resolve mbind option_bind write32 sregs setS].
  rewrite Nat.add_0_r, (decide_False (P := sgprs magicAbit = dst + 1)) by done. rewrite Ha.
  cbn [mbind option_bind].
  rewrite exec_cons, step3. cbn [String.eqb Ascii.eqb Bool.eqb].
  cbn [read32 resolve mbind option_bind write32 sregs setS setScc].
  rewrite decide_True by done. rewrite (decide_False (P := dst + 1 = dst)) by lia.
  rewrite decide_True by done.
  rewrite exec_cons, step3. cbn [String.eqb Ascii.eqb Bool.eqb].
  cbn [read32 resolve mbind option_bind write32 sregs setS setScc].
  rewrite decide_True by done. rewrite Nat.add_0_r.
  rewrite !(decide_False (P := sgprs magicShift = dst)) by done.
  rewrite (decide_False (P := sgprs magicShift = dst + 1)) by done. rewrite Hs.
  eexists. split; [reflexivity|]. cbn [sregs setS setScc].
  rewrite decide_True by done.
  apply wrap32_small.
  pose proof (Z.mod_pos_bound (wrap32 (d * a) + wrap32 (d * mg / 2 ^ 32)) (2 ^ 32)
                ltac:(lia)) as Hb.
  pose proof (Z.mod_pos_bound s 32 ltac:(lia)) as Hs32.
  fold (wrap32 (wrap32 (d * a) + wrap32 (d * mg / 2 ^ 32))) in Hb.
  revert Hb. generalize (wrap32 (wrap32 (d * a) + wrap32 (d * mg / 2 ^ 32))). intros x Hb.
  rewrite Z.shiftr_div_pow2 by lia.
  assert (1 <= 2 ^ (s mod 32))%Z by (apply (Z.pow_le_mono_r 2 0); lia).
  split; [apply Z.div_pos; lia|].
  apply Z.div_lt_upper_bound; [lia|]. nia.
Qed.

(** X25.  The scalar magic division with named constants: when the
    constants held in [magicNumber], [magicAbit], [magicShift] form a
    valid triple for [n] and the 32-bit add does not carry, the code
    emitted by [scalarMagicDivExplicit] leaves [d / n] in [sgpr(dst)].
    The dividend may be a constant or any scalar register but
    [sgpr(dst+1)] - it may be [sgpr(dst)] itself, as the source comment
    says; the abit register must not be [dst+1], and the shift register
    neither [dst] nor [dst+1]. *)
Theorem scalarMagicDivExplicit_quotient (n : Z) (t : MagicTriple) (d : Z) (m : Machine)
    (dst : nat) (dividend : Operand) (mNumber mAbit mShift : string) :
  validMagic n t ->
  (0 <= d < 2 ^ 32)%Z ->
  (d * magicNumber t / 2 ^ 32 + d * magicAbit t < 2 ^ 32)%Z ->
  read32 sgprs vgprs m dividend = Some d ->
  sregs m (sgprs mNumber) = magicNumber t ->
  sregs m (sgprs mAbit) = magicAbit t ->
  sregs m (sgprs mShift) = magicShift t ->
  match dividend with
  | sgpr r 1 => resolve sgprs r <> dst + 1
  | imm _ => True
  | _ => False
  end ->
  sgprs mAbit <> dst + 1 ->
  sgprs mShift <> dst -> sgprs mShift <> dst + 1 ->
  exists m',
    exec sgprs vgprs scratch scratchScc m
      (scalarMagicDivExplicit dst dividend mNumber mAbit mShift) = Some m' /\
    sregs m' dst = (d / n)%Z.
Proof.
  intros (Bn & Bm & Bs & Ba & Hv) Bd Hc Hd HN HA HS Hsrc HA1 HS0 HS1.
  destruct (scalarMagicDivExplicit_value m dst dividend mNumber mAbit mShift d
              (magicNumber t) (magicAbit t) (magicShift t)) as (m' & He & Hr); try done.
  exists m'. split; [done|]. rewrite Hr, <- (Hv d Bd).
  pose proof (mulhi_bound d (magicNumber t) Bd Bm) as Hh.
  rewrite (wrap32_small (d * magicNumber t / 2 ^ 32)) by done.
  rewrite (wrap32_small (d * magicAbit t)) by (destruct Ba as [E|E]; rewrite E; lia).
  rewrite (Z.mod_small (magicShift t) 32) by lia.
  rewrite Z.shiftr_div_pow2 by lia.
  rewrite (Z.add_comm (d * magicAbit t)).
  rewrite wrap32_small; [done|].
  clear Hv Hr. revert Hc Hh. generalize (d * magicNumber t / 2 ^ 32)%Z. intros h Hc Hh.
  destruct Ba as [E | E]; rewrite E in *; lia.
Qed.

End MagicDivFacts.

(** ** Temporaries of the emitted 64-bit multiply *)

Section MulTemporaries.
Import RegisterPool Asm.

(** X26.  [s_mul_u64_u32] refuses a high destination that is also a
    source: the assertion fails and nothing is emitted or changed.
    Without [s_mul_hi_u32] it borrows two vector registers and returns
    them: whenever it returns code, every register of the vector pool
    that existed has the status it had, any register appended for the
    temporaries is Available, and no checkout record is left behind. *)
Theorem s_mul_u64_u32_returns_temporaries (hasSMulHi : bool)
    (dst0 dst1 src0 src1 : Operand) (cmt : string) (rp : RegisterPool.t) :
  (dst1 = src0 \/ dst1 = src1 ->
   s_mul_u64_u32 hasSMulHi dst0 dst1 src0 src1 cmt rp = (Raise AssertionError, rp, [])) /\
  (hasSMulHi = false ->
   forall code,
     outcome (s_mul_u64_u32 hasSMulHi dst0 dst1 src0 src1 cmt rp) = Ok code ->
     let rp' := final (s_mul_u64_u32 hasSMulHi dst0 dst1 src0 src1 cmt rp) in
     (forall j x, pool rp !! j = Some x -> status <$> pool rp' !! j = Some (status x)) /\
     (forall j, length (pool rp) <= j < length (pool rp') ->
        status <$> pool rp' !! j = Some Available) /\
     dom (checkOutSize rp') ⊆ dom (checkOutSize rp)).
Proof.
  split.
  - intros Hsame. unfold s_mul_u64_u32.
    destruct (decide (dst1 = src0)) as [E0|N0].
    + by rewrite (bool_decide_eq_true_2 _ E0).
    + rewrite (bool_decide_eq_false_2 _ N0). cbn [negb assert].
      rewrite (bind_ok_nil (ret tt) _ rp rp tt eq_refl).
      destruct Hsame as [|E1]; [done|]. by rewrite (bool_decide_eq_true_2 _ E1).
  - intros -> code Hcode. cbv zeta. revert Hcode. unfold s_mul_u64_u32.
    destruct (decide (dst1 = src0)) as [E0|N0];
      [by rewrite (bool_decide_eq_true_2 _ E0)|].
    rewrite (bool_decide_eq_false_2 _ N0). cbn [negb assert].
    rewrite (bind_ok_nil (ret tt) _ rp rp tt eq_refl).
    destruct (decide (dst1 = src1)) as [E1|N1];
      [by rewrite (bool_decide_eq_true_2 _ E1)|].
    rewrite (bool_decide_eq_false_2 _ N1). cbn [negb assert].
    rewrite (bind_ok_nil (ret tt) _ rp rp tt eq_refl).
    unfold checkOut. intros Hcode.
    apply bind_outcome_inv in Hcode as (vtmp0 & s1 & o1 & Hco & _).
    assert (Hret : outcome (checkOutAligned 2 1 "_untagged_" None rp) = Ok vtmp0)
      by (by rewrite Hco).
    destruct (checkOut_checkIn_states rp 2 1 "_untagged_" None vtmp0 ltac:(lia) ltac:(lia)
                Hret) as (s1' & o1' & s2 & o2 & Hco' & Hci & Hlen & Hold & Hnew & Hsize).
    rewrite Hco in Hco'. injection Hco' as <- <-.
    rewrite (bind_ok _ _ _ _ _ _ Hco). cbn [outcome final logged fst snd].
    rewrite (bind_ok _ _ _ _ _ _ Hci). cbn [outcome final logged fst snd ret].
    split; [done|]. split; [done|].
    rewrite Hsize, dom_delete. intros k Hk. by apply elem_of_difference in Hk as [Hk _].
Qed.

End MulTemporaries.

(** ** The final leak check after a round trip *)

Section LeakCheck.
Import RegisterPool.

Lemma checkFinalState_ok_iff (s : t) :
  outcome (checkFinalState s) = Ok tt <->
  forall i x, pool s !! i = Some x -> status x <> InUse.
Proof.
  rewrite checkFinalState_eq.
  destruct (list_find _ (pool s)) as [[i r]|] eqn:Hf; cbn [outcome fst].
  - apply list_find_Some in Hf as (Hi & Hr & _). split; [done|].
    intros Hno. by destruct (Hno i r Hi).
  - split; [|done]. intros _ i x Hx Hu.
    eapply list_find_None in Hf. rewrite Forall_forall in Hf.
    apply (Hf x); [|done]. by eapply list_elem_of_lookup_2.
Qed.

(** X27.  A checkout that is checked in again does not trip the leak
    check: if [checkFinalState] passes on a pool, it still passes after
    [checkOutAligned] followed by [checkIn] of the index it returned,
    whether or not the checkout grew the pool. *)
Theorem checkFinalState_after_round_trip (s : t) (sz al : nat) (tg : string)
    (po : option bool) (start : nat) :
  0 < sz -> 1 <= al ->
  outcome (checkOutAligned sz al tg po s) = Ok start ->
  outcome (checkFinalState s) = Ok tt ->
  outcome (bind (checkOutAligned sz al tg po)
                (fun start => bind (checkIn start) (fun _ => checkFinalState)) s) = Ok tt.
Proof.
  intros Hsz Hal Hret Hok.
  destruct (checkOut_checkIn_states s sz al tg po start Hsz Hal Hret)
    as (s1 & o1 & s2 & o2 & Hco & Hci & Hlen & Hold & Hnew & _).
  rewrite (bind_ok _ _ _ _ _ _ Hco). cbn [outcome final logged fst snd].
  rewrite (bind_ok _ _ _ _ _ _ Hci). cbn [outcome final logged fst snd].
  apply checkFinalState_ok_iff. intros i x Hx Hu.
  rewrite checkFinalState_ok_iff in Hok.
  destruct (decide (i < length (pool s))) as [Hlt|Hge].
  - destruct (lookup_lt_is_Some_2 _ _ Hlt) as [y Hy].
    specialize (Hold i y Hy). rewrite Hx in Hold. cbn in Hold.
    injection Hold as Hst. apply (Hok i y Hy). congruence.
  - assert (i < length (pool s2)) by (by eapply lookup_lt_Some).
    specialize (Hnew i ltac:(lia)). rewrite Hx in Hnew. cbn in Hnew.
    injection Hnew as Hst. congruence.
Qed.

(** X28.  A checkout that is never checked in is what the leak check
    reports: on a pool where [checkFinalState] passes, after
    [checkOutAligned] has returned [start] under the tag [tag],
    [checkFinalState] raises the error naming [start] and [tag]. *)
Theorem checkFinalState_reports_checkout (s : t) (sz al : nat) (tg : string)
    (po : option bool) (start : nat) :
  0 < sz -> 1 <= al ->
  outcome (checkOutAligned sz al tg po s) = Ok start ->
  outcome (checkFinalState s) = Ok tt ->
  outcome (bind (checkOutAligned sz al tg po) (fun _ => checkFinalState) s)
  = Raise (RuntimeError (NeverCheckedIn start tg)).
Proof.
  intros Hsz Hal Hret Hok.
  destruct (checkOutAligned_ok_shape s sz al tg po start Hsz Hal Hret)
    as (p' & o & Hco & Hlen & Hin & Hout & Hwas & Hpad).
  rewrite (bind_ok _ _ _ _ _ _ Hco). cbn [outcome final logged fst snd].
  rewrite checkFinalState_eq. cbn [pool].
  rewrite checkFinalState_ok_iff in Hok.
  destruct (list_find _ p') as [[i r]|] eqn:Hf; cbn [outcome fst].
  - apply list_find_Some in Hf as (Hi & Hr & Hfirst).
    assert (Hge : ~ i < start).
    { intros Hlt. destruct (decide (i < length (pool s))) as [Hl|Hl].
      - destruct (lookup_lt_is_Some_2 _ _ Hl) as [y Hy].
        specialize (Hout i y Hy ltac:(lia)). rewrite Hi in Hout. cbn in Hout.
        injection Hout as Hst. apply (Hok i y Hy). congruence.
      - specialize (Hpad i ltac:(lia)). rewrite Hi in Hpad. injection Hpad as ->.
        done. }
    assert (Hle : ~ start < i).
    { intros Hlt. apply (Hfirst start (mkRegister InUse tg)); [|done|done].
      apply Hin. lia. }
    assert (i = start) as -> by lia.
    rewrite (Hin start ltac:(lia)) in Hi. by injection Hi as <-.
  - exfalso. eapply list_find_None in Hf. rewrite Forall_forall in Hf.
    apply (Hf (mkRegister InUse tg)); [|done].
    eapply list_elem_of_lookup_2. apply (Hin start). lia.
Qed.

End LeakCheck.

(** ** The theorems at concrete inputs *)

Section Instances.
Import RegisterPool MemoryInstruction Select Asm Store Examples.

Lemma checkIn_unknown_start_unchanged_witness :
  1 < length (pool fresh2) /\
  checkOutSize fresh2 !! 1 = None /\
  exists x, pool fresh2 !! 1 = Some x /\
    checkIn 1 fresh2 = (Ok tt, fresh2, [Warn (CheckInNeverCheckedOut (tag x) 1)]).
Proof.
  split; [cbn; lia|]. split; [reflexivity|].
  apply (checkIn_unknown_start_unchanged fresh2 1); [cbn; lia|reflexivity].
Defined.

Lemma remove_past_end_raises_witness :
  0 < 2 /\ length (pool fresh2) < 1 + 2 /\
  outcome (remove 1 2 "" fresh2) = Raise IndexError /\
  Warn (RemovePastPoolSize 1 2 (length (pool fresh2))) ∈ logged (remove 1 2 "" fresh2).
Proof.
  split; [lia|]. split; [cbn; lia|].
  apply (remove_past_end_raises fresh2 1 2 ""); cbn; lia.
Defined.

Lemma checkOutAligned_start_aligned_witness :
  0 < 2 /\ 1 <= 2 /\
  outcome (checkOutAligned 2 2 "x" None oneReserved) = Ok 2 /\
  (2 | 2).
Proof.
  split; [lia|]. split; [lia|]. split; [reflexivity|].
  apply (checkOutAligned_start_aligned oneReserved 2 2 "x" None 2); [lia|lia|reflexivity].
Defined.

(** The failing input of C4: [checkOutAligned(3, 1)] on the two-register
    pool whose registers are both Available.  No run of 3 fits and the
    Available tail run is the whole pool, beginning at slot 0; the code
    starts the range at slot 1 and leaves slot 0 Available. *)
Lemma checkOutAligned_no_fit_witness :
  0 < 3 /\ 1 <= 1 /\
  (forall i, ~ fits (pool fresh2) 3 1 i) /\
  pool fresh2 = [mkRegister Available ""; mkRegister Available ""] /\
  defaultPreventOverflow fresh2 = false /\
  outcome (checkOutAligned 3 1 "x" None fresh2) = Ok 1 /\
  pool (final (checkOutAligned 3 1 "x" None fresh2)) =
    [mkRegister Available ""; mkRegister InUse "x"; mkRegister InUse "x";
     mkRegister InUse "x"].
Proof.
  assert (Hno : forall i, ~ fits (pool fresh2) 3 1 i).
  { apply scan_None_no_fit; [lia|lia|reflexivity]. }
  split; [lia|]. split; [lia|]. split; [exact Hno|].
  split; [reflexivity|]. split; [reflexivity|].
  destruct (checkOutAligned_no_fit fresh2 3 1 "x" None) as [_ Hgrow];
    [lia|lia|exact Hno|].
  destruct (Hgrow eq_refl) as (Hret & _ & _ & _ & _ & Hpool & _).
  split; [exact Hret|exact Hpool].
Defined.

Lemma selectMemoryInstruction_sound_witness :
  let w := mkWriter (Catalog.memoryInstructions true) "Cijk" in
  let r := selectMemoryInstruction "GlobalWrite" 2 "Coalesced" true false [4%Z] w in
  let instructions :=
    [Catalog.flat_store_dwordx4; Catalog.flat_store_dwordx2; Catalog.flat_store_dword] in
  memoryInstructions w !! "GlobalWrite" = Some instructions /\
  (forall idx, outcome r = Ok idx ->
     exists selected, instructions !! idx = Some selected /\
                      (blockWidth selected <= 2)%Q /\
                      qualifies 2 [4%Z] (combines "Coalesced" true false) selected) /\
  ((forall instruction, instruction ∈ instructions ->
      ~ qualifies 2 [4%Z] (combines "Coalesced" true false) instruction) ->
   outcome r = Raise (RuntimeError (NoValidMemoryInstruction "GlobalWrite" 2 "Cijk"))).
Proof.
  cbv zeta. split; [vm_compute; reflexivity|].
  apply (selectMemoryInstruction_sound true "Cijk" "GlobalWrite" 2 "Coalesced" true false
           [4%Z]).
  vm_compute; reflexivity.
Defined.

Lemma splitK_trip_counts_witness :
  NoDup (gsuRegisters gsuNames (Sym "UnrollLoopLastIter" 0) 30) /\
  (0 <= 10 < 2 ^ 32)%Z /\ (1 <= 4 < 2 ^ 32)%Z /\
  exists counts : list Z,
    Forall2 (fun p c =>
               tripCount gsuNames noNames noScratch noScratchScc 4
                 (Sym "UnrollLoopLastIter" 0) 30 (machineWith 0 0 0) 10 (Z.of_nat p)
               = Some c)
            (seq 0 (Z.to_nat 4)) counts /\
    sumZ counts = 10%Z.
Proof.
  assert (Hnd : NoDup (gsuRegisters gsuNames (Sym "UnrollLoopLastIter" 0) 30)).
  { apply (bool_decide_unpack _). vm_compute. exact I. }
  split; [exact Hnd|]. split; [lia|]. split; [lia|].
  destruct (splitK_trip_counts gsuNames noNames noScratch noScratchScc 4
              (Sym "UnrollLoopLastIter" 0) 30 (machineWith 0 0 0) 10 Hnd)
    as (counts & Hcounts & _ & Hsum & _); [lia|lia|].
  exists counts. split; [exact Hcounts|exact Hsum].
Defined.

Lemma divideBy7_valid : validMagic 7 divideBy7.
Proof.
  unfold validMagic, divideBy7. cbn [magicNumber magicShift magicAbit].
  repeat split; try lia. intros d Hd.
  change (2 ^ 32)%Z with 4294967296%Z. change (2 ^ 3)%Z with 8%Z.
  Z.div_mod_to_equations. lia.
Qed.

Lemma divideBy3_valid : validMagic 3 divideBy3.
Proof.
  unfold validMagic, divideBy3. cbn [magicNumber magicShift magicAbit].
  repeat split; try lia. intros d Hd.
  change (2 ^ 32)%Z with 4294967296%Z. change (2 ^ 1)%Z with 2%Z.
  Z.div_mod_to_equations. lia.
Qed.

Lemma magic_division_exact_in_range_witness :
  let m7 := machineWith 100 (magicNumber divideBy7) (magicShiftAbitWord divideBy7) in
  let m3 := machineWith 100 (magicNumberWgm 3) 0 in
  (validMagic 7 divideBy7 /\
   (0 <= 100 < 2 ^ 32)%Z /\
   (100 * magicNumber divideBy7 / 2 ^ 32 + 100 * magicAbit divideBy7 < 2 ^ 32)%Z /\
   exists m',
     exec noNames noNames noScratch noScratchScc m7
       (sMagicDivAlg2 0 (sgpr (Idx 4) 1) (sgpr (Idx 5) 1) (sgpr (Idx 6) 1)) = Some m' /\
     sregs m' 0 = (100 / 7)%Z) /\
  ((1 <= 3 < 2 ^ 32)%Z /\
   (0 <= 100 < 2 ^ 32)%Z /\
   (100 * 3 < 2 ^ 31)%Z /\
   exists code m',
     sMagicDiv true 0 (sgpr (Idx 4) 1) (sgpr (Idx 5) 1) (imm smallNumMagicShift) fresh2
       = (Ok code, fresh2, []) /\
     exec noNames noNames noScratch noScratchScc m3 code = Some m' /\
     sregs m' 0 = (100 / 3)%Z).
Proof.
  cbv zeta. split.
  - split; [exact divideBy7_valid|]. split; [lia|]. split; [by vm_compute|].
    apply (proj1 (magic_division_exact_in_range noNames noNames noScratch noScratchScc)
             7%Z divideBy7 100%Z
             (machineWith 100 (magicNumber divideBy7) (magicShiftAbitWord divideBy7))
             0 (sgpr (Idx 4) 1) (sgpr (Idx 5) 1) (sgpr (Idx 6) 1)).
    + exact divideBy7_valid.
    + lia.
    + by vm_compute.
    + reflexivity.
    + reflexivity.
    + reflexivity.
    + cbn; lia.
    + cbn; lia.
    + cbn; lia.
  - split; [lia|]. split; [lia|]. split; [lia|].
    destruct (proj2 (magic_division_exact_in_range noNames noNames noScratch noScratchScc)
                3%Z 100%Z true fresh2 (machineWith 100 (magicNumberWgm 3) 0)
                0 (sgpr (Idx 4) 1) (sgpr (Idx 5) 1) (imm smallNumMagicShift))
      as [Hemit Hrun].
    + lia.
    + lia.
    + reflexivity.
    + reflexivity.
    + reflexivity.
    + cbn; lia.
    + cbn; lia.
    + exact I.
    + destruct (Hemit eq_refl) as [code Hcode].
      destruct (Hrun code) as (m' & He & _ & Hsmall); [by rewrite Hcode|].
      exists code, m'. split; [exact Hcode|]. split; [exact He|].
      apply Hsmall. lia.
Defined.

(** For the divisor 7 the triple is valid, but for the
    dividend 2^32 - 1 the sum of the high product and the dividend carries
    out of 32 bits, [s_add_u32] keeps the low 32 bits, and the code leaves
    76695844 instead of 613566756. *)
Lemma sMagicDivAlg2_drops_carry :
  let d := (2 ^ 32 - 1)%Z in
  let m := machineWith d (magicNumber divideBy7) (magicShiftAbitWord divideBy7) in
  validMagic 7 divideBy7 /\
  (0 <= d < 2 ^ 32)%Z /\
  read32 noNames noNames m (sgpr (Idx 4) 1) = Some d /\
  read32 noNames noNames m (sgpr (Idx 5) 1) = Some (magicNumber divideBy7) /\
  read32 noNames noNames m (sgpr (Idx 6) 1) = Some (magicShiftAbitWord divideBy7) /\
  exists m',
    exec noNames noNames noScratch noScratchScc m
      (sMagicDivAlg2 0 (sgpr (Idx 4) 1) (sgpr (Idx 5) 1) (sgpr (Idx 6) 1)) = Some m' /\
    sregs m' 0 = 76695844%Z /\
    (d / 7 = 613566756)%Z /\
    sregs m' 0 <> (d / 7)%Z.
Proof.
  cbv zeta. split; [apply divideBy7_valid|]. split; [lia|].
  split; [reflexivity|]. split; [reflexivity|]. split; [reflexivity|].
  eexists. split; [reflexivity|]. split; [by vm_compute|]. split; [by vm_compute|].
  by vm_compute.
Qed.

(** For the divisor 3 the workgroup-mapping code computes the multiplier
    715827883 with the shift 31; for the dividend 2^31 the code emitted by
    [sMagicDiv] leaves 715827883, one more than the quotient 715827882. *)
Lemma sMagicDiv_small_magic_inexact :
  let d := (2 ^ 31)%Z in
  let m := machineWith d (magicNumberWgm 3) 0 in
  (0 <= d < 2 ^ 32)%Z /\
  magicNumberWgm 3 = 715827883%Z /\
  read32 noNames noNames m (sgpr (Idx 4) 1) = Some d /\
  read32 noNames noNames m (sgpr (Idx 5) 1) = Some (magicNumberWgm 3) /\
  read32 noNames noNames m (imm smallNumMagicShift) = Some smallNumMagicShift /\
  exists code m',
    sMagicDiv true 0 (sgpr (Idx 4) 1) (sgpr (Idx 5) 1) (imm smallNumMagicShift) fresh2
      = (Ok code, fresh2, []) /\
    exec noNames noNames noScratch noScratchScc m code = Some m' /\
    sregs m' 0 = 715827883%Z /\
    (d / 3 = 715827882)%Z /\
    sregs m' 0 <> (d / 3)%Z.
Proof.
  cbv zeta. split; [lia|]. split; [reflexivity|].
  split; [reflexivity|]. split; [reflexivity|]. split; [reflexivity|].
  eexists. eexists. split; [reflexivity|]. split; [reflexivity|].
  split; [by vm_compute|]. split; [by vm_compute|]. by vm_compute.
Qed.

(** C6 as stated fails in both halves: [sMagicDivAlg2] with the valid
    triple of the divisor 7 at the dividend 2^32 - 1, and [sMagicDiv] with
    the constants computed for the divisor 3 at the dividend 2^31. *)
Lemma magic_division_inexact :
  (let d := (2 ^ 32 - 1)%Z in
   let m := machineWith d (magicNumber divideBy7) (magicShiftAbitWord divideBy7) in
   validMagic 7 divideBy7 /\
   (0 <= d < 2 ^ 32)%Z /\
   read32 noNames noNames m (sgpr (Idx 4) 1) = Some d /\
   read32 noNames noNames m (sgpr (Idx 5) 1) = Some (magicNumber divideBy7) /\
   read32 noNames noNames m (sgpr (Idx 6) 1) = Some (magicShiftAbitWord divideBy7) /\
   exists m',
     exec noNames noNames noScratch noScratchScc m
       (sMagicDivAlg2 0 (sgpr (Idx 4) 1) (sgpr (Idx 5) 1) (sgpr (Idx 6) 1)) = Some m' /\
     sregs m' 0 = 76695844%Z /\
     (d / 7 = 613566756)%Z /\
     sregs m' 0 <> (d / 7)%Z) /\
  (let d := (2 ^ 31)%Z in
   let m := machineWith d (magicNumberWgm 3) 0 in
   (0 <= d < 2 ^ 32)%Z /\
   magicNumberWgm 3 = 715827883%Z /\
   read32 noNames noNames m (sgpr (Idx 4) 1) = Some d /\
   read32 noNames noNames m (sgpr (Idx 5) 1) = Some (magicNumberWgm 3) /\
   read32 noNames noNames m (imm smallNumMagicShift) = Some smallNumMagicShift /\
   exists code m',
     sMagicDiv true 0 (sgpr (Idx 4) 1) (sgpr (Idx 5) 1) (imm smallNumMagicShift) fresh2
       = (Ok code, fresh2, []) /\
     exec noNames noNames noScratch noScratchScc m code = Some m' /\
     sregs m' 0 = 715827883%Z /\
     (d / 3 = 715827882)%Z /\
     sregs m' 0 <> (d / 3)%Z).
Proof. split; [exact sMagicDivAlg2_drops_carry|exact sMagicDiv_small_magic_inexact]. Qed.

Lemma StoreState_addressing_exclusive_witness :
  (true = true \/ false = true) /\
  implb false (EnableMatrixInstruction bf16Kernel) = true /\
  exists ss,
    StoreState_init false bf16Kernel 1 true false false [] fresh2 = (Ok ss, fresh2, []).
Proof.
  split; [by left|]. split; [reflexivity|].
  apply (proj2 (StoreState_addressing_exclusive false bf16Kernel 1 true false false []
                  fresh2)); [by left|reflexivity].
Defined.

Lemma bf16_narrowing_sequences_witness :
  DestDataType bf16Kernel = BFloat16 /\
  HighPrecisionAccumulate bf16Kernel = true /\
  exists sequences : list (list Item),
    packStores bf16Kernel 2 8 40 2 60 tt = (Ok (concat sequences), tt, []) /\
    length sequences
      = (if String.eqb (GlobalAccumulation bf16Kernel) "MultipleBuffer" then 0 else 2) /\
    forall vi code, sequences !! vi = Some code -> narrowingShape vi code.
Proof.
  split; [reflexivity|]. split; [reflexivity|].
  apply (bf16_narrowing_sequences bf16Kernel 2 8 40 2 60 tt); reflexivity.
Defined.

End Instances.

(** ** The further properties at concrete inputs *)

Section MoreInstances.
Import RegisterPool PoolInit Occupancy Labels Sgprs MemoryInstruction Select.
Import Asm MagicDiv Examples.

Lemma oneReserved_fits : fits (pool oneReserved) 2 2 2.
Proof.
  split; [reflexivity|]. split; [cbn; lia|].
  intros [|[|j]] Hj; [by eexists|by eexists|lia].
Qed.

Lemma oneReserved_no_fit (i : nat) : ~ fits (pool oneReserved) 3 4 i.
Proof. apply scan_None_no_fit; [lia|lia|reflexivity]. Qed.

Lemma remove_in_range_witness :
  0 + 2 <= length (pool fresh2) /\
  outcome (remove 0 2 "" fresh2) = Ok tt.
Proof.
  split; [cbn; lia|].
  destruct (remove_in_range fresh2 0 2 "") as (H & _); [cbn; lia|exact H].
Defined.

Lemma add_then_remove_witness :
  (forall i, 1 <= i < 1 + 2 -> ~ availableAt (pool (init 3 "v" false false)) i) /\
  outcome (bind (add 1 2 "a") (fun _ => remove 1 2 "") (init 3 "v" false false)) = Ok tt.
Proof.
  assert (H : forall i, 1 <= i < 1 + 2 -> ~ availableAt (pool (init 3 "v" false false)) i).
  { intros i Hi (r & Hr & Hst).
    apply (lookup_replicate 3 (mkRegister Unavailable "init")) in Hr as [-> _]. done. }
  split; [exact H|].
  destruct (add_then_remove (init 3 "v" false false) 1 2 "a" "" H) as (Hok & _). exact Hok.
Defined.

Lemma checkIn_releases_range_witness :
  let s := final (checkOut 1 "a" None fresh2) in
  checkOutSize s !! 0 = Some 1 /\
  0 + 1 <= length (pool s) /\
  (printRP s = false \/ 0 < 1) /\
  outcome (checkIn 0 s) = Ok tt /\
  checkOutSize (final (checkIn 0 s)) = delete 0 (checkOutSize s).
Proof.
  cbv zeta.
  assert (Hlen : 0 + 1 <= length (pool (final (checkOut 1 "a" None fresh2))))
    by (vm_compute; lia).
  split; [reflexivity|]. split; [exact Hlen|]. split; [by left|].
  destruct (checkIn_releases_range (final (checkOut 1 "a" None fresh2)) 0 1)
    as (H1 & H2 & _); [reflexivity|exact Hlen|by left|]. by split.
Defined.

Lemma checkOutAligned_first_fit_witness :
  0 < 2 /\ 1 <= 2 /\ fits (pool oneReserved) 2 2 2 /\
  exists found,
    outcome (checkOutAligned 2 2 "x" None oneReserved) = Ok found /\
    forall j, j < found -> ~ fits (pool oneReserved) 2 2 j.
Proof.
  split; [lia|]. split; [lia|]. split; [exact oneReserved_fits|].
  destruct (checkOutAligned_first_fit oneReserved 2 2 "x" None 2 ltac:(lia) ltac:(lia)
              oneReserved_fits) as (found & Hret & _ & Hmin & _).
  exists found. by split.
Defined.

Lemma checkOut_then_checkIn_witness :
  0 < 2 /\ 1 <= 2 /\
  outcome (checkOutAligned 2 2 "x" None oneReserved) = Ok 2 /\
  outcome (bind (checkOutAligned 2 2 "x" None) checkIn oneReserved) = Ok tt.
Proof.
  split; [lia|]. split; [lia|]. split; [reflexivity|].
  destruct (checkOut_then_checkIn oneReserved 2 2 "x" None 2 ltac:(lia) ltac:(lia) eq_refl)
    as (H & _). exact H.
Defined.

Lemma checkOutAligned_available_witness :
  0 < 2 /\ 1 <= 2 /\ fits (pool oneReserved) 2 2 2 /\
  available (pool (final (checkOutAligned 2 2 "x" None oneReserved))) + 2
  = available (pool oneReserved).
Proof.
  split; [lia|]. split; [lia|]. split; [exact oneReserved_fits|].
  destruct (checkOutAligned_available oneReserved 2 2 "x" None 2 ltac:(lia) ltac:(lia)
              oneReserved_fits) as (H & _). exact H.
Defined.

Lemma checkOutAligned_overflow_start_witness :
  0 < 3 /\ 1 <= 4 /\
  (forall i, ~ fits (pool oneReserved) 3 4 i) /\
  defaultPreventOverflow oneReserved = false /\
  outcome (checkOutAligned 3 4 "x" None oneReserved)
  = Ok (roundUpToNearestMultiple
          (if decide (0 < length (pool oneReserved)
                      /\ availableBlockAtEnd (pool oneReserved) = length (pool oneReserved))
           then 1
           else length (pool oneReserved) - availableBlockAtEnd (pool oneReserved)) 4).
Proof.
  split; [lia|]. split; [lia|]. split; [exact oneReserved_no_fit|]. split; [reflexivity|].
  apply (checkOutAligned_overflow_start oneReserved 3 4 "x" None);
    [lia|lia|exact oneReserved_no_fit|reflexivity].
Defined.


Lemma initTmps_available_slots_witness :
  (type fresh2 = "s" \/ type fresh2 = "v") /\
  None <> Some (length (pool fresh2)) /\
  initTmps 0 0 None fresh2 =
    (Ok [ Instr (inst "v_mov_b32" [vgpr (Idx 0) 1; imm 0] "init tmp in pool");
          Instr (inst "v_mov_b32" [vgpr (Idx 1) 1; imm 0] "init tmp in pool") ],
     fresh2, []).
Proof.
  split; [by right|]. split; [done|].
  apply (initTmps_available_slots fresh2 0 0 None); [by right|done].
Defined.

Lemma initTmps_stop_at_size_witness :
  (type fresh2 = "s" \/ type fresh2 = "v") /\
  0 <= length (pool fresh2) /\
  initTmps 0 0 (Some (length (pool fresh2))) fresh2 = (Raise IndexError, fresh2, []).
Proof.
  split; [by right|]. split; [lia|].
  apply (initTmps_stop_at_size fresh2 0 0); [by right|lia].
Defined.

Lemma getLabelNum_assigns_once_witness :
  (∅ : gmap string LabelValue) !! "loop" = None /\
  getLabelNum "loop" ∅ = (Ok (LabelNum 0), {["loop" := LabelNum 0]}, []).
Proof.
  split; [apply lookup_empty|].
  destruct (getLabelNum_assigns_once ∅ "loop" (lookup_empty _)) as (H & _). exact H.
Defined.

Lemma findMemoryInstruction_first_match_witness :
  let instructions :=
    [Catalog.flat_store_dwordx4; Catalog.flat_store_dwordx2; Catalog.flat_store_dword] in
  Forall wellFormed instructions /\
  ((forall instruction, instruction ∈ instructions ->
      ~ qualifies (1 # 2) [] false instruction) ->
   findMemoryInstructionForWidthStride (1 # 2) [] false instructions tt
   = (Ok 3, tt, [Warn (NoValidInstructionForWidth (1 # 2))])).
Proof.
  cbv zeta.
  assert (Hwf : Forall wellFormed
            [Catalog.flat_store_dwordx4; Catalog.flat_store_dwordx2;
             Catalog.flat_store_dword]).
  { repeat constructor; unfold wellFormed; cbn; lia. }
  split; [exact Hwf|].
  destruct (findMemoryInstruction_first_match (1 # 2) [] false _ tt Hwf) as (_ & H).
  exact H.
Defined.

Lemma selectMemoryInstruction_widest_witness :
  let w := mkWriter (Catalog.memoryInstructions true) "Cijk" in
  let instructions :=
    [Catalog.flat_store_dwordx4; Catalog.flat_store_dwordx2; Catalog.flat_store_dword] in
  memoryInstructions w !! "GlobalWrite" = Some instructions /\
  outcome (selectMemoryInstruction "GlobalWrite" 2 "Coalesced" true false [4%Z] w) = Ok 1 /\
  exists selected,
    instructions !! 1 = Some selected /\
    forall other, other ∈ instructions ->
      qualifies 2 [4%Z] (combines "Coalesced" true false) other ->
      (blockWidth other <= blockWidth selected)%Q.
Proof.
  cbv zeta. split; [vm_compute; reflexivity|]. split; [vm_compute; reflexivity|].
  apply (selectMemoryInstruction_widest true "Cijk" "GlobalWrite" 2 "Coalesced" true false
           [4%Z]); vm_compute; reflexivity.
Defined.

Lemma scalarMagicDivExplicit_quotient_witness :
  let names := fun name : string =>
    if String.eqb name "MagicNumberSizeX" then 5
    else if String.eqb name "MagicShiftSizeX" then 6 else 7 in
  let m := machineWith 100 (magicNumber divideBy3) (magicShift divideBy3) in
  validMagic 3 divideBy3 /\
  (0 <= 100 < 2 ^ 32)%Z /\
  (100 * magicNumber divideBy3 / 2 ^ 32 + 100 * magicAbit divideBy3 < 2 ^ 32)%Z /\
  exists m',
    exec names noNames noScratch noScratchScc m
      (scalarMagicDiv 0 (sgpr (Idx 4) 1) "X") = Some m' /\
    sregs m' 0 = (100 / 3)%Z.
Proof.
  cbv zeta. split; [exact divideBy3_valid|]. split; [lia|]. split; [by vm_compute|].
  apply (scalarMagicDivExplicit_quotient _ noNames noScratch noScratchScc 3%Z divideBy3 100%Z
           (machineWith 100 (magicNumber divideBy3) (magicShift divideBy3)) 0
           (sgpr (Idx 4) 1) "MagicNumberSizeX" "MagicAbitSizeX" "MagicShiftSizeX").
  - exact divideBy3_valid.
  - lia.
  - by vm_compute.
  - reflexivity.
  - reflexivity.
  - reflexivity.
  - reflexivity.
  - cbn; lia.
  - cbn; lia.
  - cbn; lia.
  - cbn; lia.
Defined.

Lemma checkFinalState_after_round_trip_witness :
  0 < 2 /\ 1 <= 2 /\
  outcome (checkOutAligned 2 2 "x" None oneReserved) = Ok 2 /\
  outcome (checkFinalState oneReserved) = Ok tt /\
  outcome (bind (checkOutAligned 2 2 "x" None)
                (fun start => bind (checkIn start) (fun _ => checkFinalState))
                oneReserved) = Ok tt.
Proof.
  split; [lia|]. split; [lia|]. split; [reflexivity|]. split; [reflexivity|].
  apply (checkFinalState_after_round_trip oneReserved 2 2 "x" None 2);
    [lia|lia|reflexivity|reflexivity].
Defined.

Lemma checkFinalState_reports_checkout_witness :
  0 < 2 /\ 1 <= 2 /\
  outcome (checkOutAligned 2 2 "x" None oneReserved) = Ok 2 /\
  outcome (checkFinalState oneReserved) = Ok tt /\
  outcome (bind (checkOutAligned 2 2 "x" None) (fun _ => checkFinalState) oneReserved)
  = Raise (RuntimeError (NeverCheckedIn 2 "x")).
Proof.
  split; [lia|]. split; [lia|]. split; [reflexivity|]. split; [reflexivity|].
  apply (checkFinalState_reports_checkout oneReserved 2 2 "x" None 2);
    [lia|lia|reflexivity|reflexivity].
Defined.

End MoreInstances.
